(** * d2-viewer: layer-tree utilities and the prerender script

    A shallow embedding of [src/layer-utils.ts] (title extraction, layer
    tree extraction, target flattening) and of [scripts/prerender.ts]
    (import resolution, SVG dimension normalisation, HTML generation and
    the export driver), followed by the properties established for them.

    JavaScript strings are sequences of UTF-16 code units; they are
    modelled as lists of code units ([N]).  String literals of the source
    are written [js "..."]. *)

From Stdlib Require Import List NArith Ascii String Bool Arith Lia.
Import ListNotations.

Set Implicit Arguments.
Set Warnings "-register-all".

(* ================================================================== *)
(** ** JavaScript strings and the built-ins the sources call *)
(* ================================================================== *)

Module JS.

Definition jsstring := list N.

(** A source literal, code unit by code unit. *)
Definition js (s : string) : jsstring :=
  List.map N_of_ascii (list_ascii_of_string s).

(** The double quote is written through its code, 34. *)
Definition dquote : N := 34%N.
Definition dq : jsstring := [dquote].

Definition lessThanSign : N := 60%N.
Definition greaterThanSign : N := 62%N.
Definition ampersand : N := 38%N.
Definition dollar : N := 36%N.

Fixpoint str_eqb (a b : jsstring) : bool :=
  match a, b with
  | [], [] => true
  | x :: a', y :: b' => N.eqb x y && str_eqb a' b'
  | _, _ => false
  end.

(** [String.prototype.startsWith]. *)
Fixpoint startsWith (s p : jsstring) {struct p} : bool :=
  match p, s with
  | [], _ => true
  | y :: p', x :: s' => N.eqb x y && startsWith s' p'
  | _ :: _, [] => false
  end.

(** [String.prototype.endsWith]. *)
Definition endsWith (s p : jsstring) : bool :=
  startsWith (rev s) (rev p).

(** [String.prototype.indexOf]: position of the first occurrence. *)
Fixpoint indexOf (s p : jsstring) : option nat :=
  if startsWith s p then Some 0
  else match s with
       | [] => None
       | _ :: s' => option_map S (indexOf s' p)
       end.

(** [String.prototype.includes]. *)
Definition includes (s p : jsstring) : bool :=
  match indexOf s p with Some _ => true | None => false end.

(** The class [\s] of regular expressions, which is also what [trim]
    strips: WhiteSpace and LineTerminator code units. *)
Definition isWhiteSpace (c : N) : bool :=
  ((9 <=? c) && (c <=? 13) || (c =? 32) || (c =? 160) || (c =? 5760)
   || ((8192 <=? c) && (c <=? 8202)) || (c =? 8232) || (c =? 8233)
   || (c =? 8239) || (c =? 8287) || (c =? 12288) || (c =? 65279))%N.

(** LineTerminator: what [.] refuses and where [^] and [$] anchor under
    the [m] flag. *)
Definition isLineTerminator (c : N) : bool :=
  ((c =? 10) || (c =? 13) || (c =? 8232) || (c =? 8233))%N.

Fixpoint takeWhile (f : N -> bool) (s : jsstring) : jsstring :=
  match s with
  | x :: s' => if f x then x :: takeWhile f s' else []
  | [] => []
  end.

Fixpoint dropWhile (f : N -> bool) (s : jsstring) : jsstring :=
  match s with
  | x :: s' => if f x then dropWhile f s' else s
  | [] => []
  end.

Definition trimStart (s : jsstring) : jsstring := dropWhile isWhiteSpace s.
Definition trimEnd (s : jsstring) : jsstring :=
  rev (dropWhile isWhiteSpace (rev s)).
(** [String.prototype.trim]. *)
Definition trim (s : jsstring) : jsstring := trimEnd (trimStart s).

(** [s.split(sep)] for a separator of one code unit: the pieces between
    the occurrences, empty pieces included. *)
Fixpoint splitOn (sep : N) (s : jsstring) : list jsstring :=
  match s with
  | [] => [[]]
  | x :: s' =>
      if N.eqb x sep then [] :: splitOn sep s'
      else match splitOn sep s' with
           | piece :: more => (x :: piece) :: more
           | [] => [[x]]
           end
  end.

(** [s.split(/\s+/)]: the pieces between maximal runs of white space, so
    leading or trailing white space gives an empty first or last piece. *)
Fixpoint splitWhiteSpace (s : jsstring) : list jsstring :=
  match s with
  | [] => [[]]
  | x :: s' =>
      if isWhiteSpace x then
        match s' with
        | y :: _ => if isWhiteSpace y then splitWhiteSpace s'
                    else [] :: splitWhiteSpace s'
        | [] => [[]; []]
        end
      else match splitWhiteSpace s' with
           | piece :: more => (x :: piece) :: more
           | [] => [[x]]
           end
  end.

(** GetSubstitution of ECMAScript for a replacement template when the
    pattern has no capture groups (a string pattern, or a regular
    expression without groups): [$$] is a dollar, [$&] the matched text,
    [$`] the text before the match, [$'] the text after it; any other
    dollar, also one before digits or [<], stands for itself. *)
Fixpoint getSubstitution (matched before after template : jsstring)
  : jsstring :=
  match template with
  | [] => []
  | 36%N :: rest =>
      match rest with
      | 36%N :: rest' => 36%N :: getSubstitution matched before after rest'
      | 38%N :: rest' => matched ++ getSubstitution matched before after rest'
      | 96%N :: rest' => before ++ getSubstitution matched before after rest'
      | 39%N :: rest' => after ++ getSubstitution matched before after rest'
      | _ => 36%N :: getSubstitution matched before after rest
      end
  | c :: rest => c :: getSubstitution matched before after rest
  end.

(** [s.replace(pattern, template)] with a string pattern: the first
    occurrence only, the template expanded by GetSubstitution. *)
Definition replaceString (s pattern template : jsstring) : jsstring :=
  match indexOf s pattern with
  | None => s
  | Some pos =>
      let before := firstn pos s in
      let after := skipn (pos + List.length pattern) s in
      before ++ getSubstitution pattern before after template ++ after
  end.

(** [s.replace(/c/g, template)] for a pattern of one literal code unit:
    every occurrence, each expanded by GetSubstitution at its position. *)
Fixpoint replaceAllFrom (before : jsstring) (c : N) (template : jsstring)
  (s : jsstring) : jsstring :=
  match s with
  | [] => []
  | x :: s' =>
      (if N.eqb x c then getSubstitution [x] before s' template else [x])
      ++ replaceAllFrom (before ++ [x]) c template s'
  end.

Definition replaceAll (c : N) (template s : jsstring) : jsstring :=
  replaceAllFrom [] c template s.

End JS.
Import JS.

(* ================================================================== *)
(** ** src/layer-utils.ts *)
(* ================================================================== *)

Module LayerUtils.

(** The part of the compiler's [Diagram] the utilities read.  A shape has
    an [id] and possibly a [label]; a board has a [name], its [shapes] and
    the three collections of nested boards.  A collection the compiler
    leaves out is read as empty ([diagram.layers ?? []],
    [diagram.shapes?.find]); an entry may be null ([if (!layer) continue]). *)
Record Shape := mkShape {
  shape_id : jsstring;
  shape_label : option jsstring
}.

Inductive Diagram := mkDiagram {
  d_name : jsstring;
  d_shapes : list Shape;
  d_layers : list (option Diagram);
  d_scenarios : list (option Diagram);
  d_steps : list (option Diagram)
}.

Inductive NodeType := layer | scenario | step.

(** [interface LayerNode]. *)
Inductive LayerNode := mkNode {
  name : jsstring;
  path : jsstring;
  type : NodeType;
  title : option jsstring;
  children : list LayerNode
}.

Definition hash : N := 35%N.
Definition newline : N := 10%N.

(** [content.match(/^#+\s+(.+)$/m)] tried at one line start: one or more
    hashes, then white space (which may run over line ends), then the
    rest of the line, which must not be empty.  When the white space runs
    to the end of the input the matcher gives back code units until the
    group can take one: the last code unit of the run that is not a line
    terminator, if it is not the first of the run. *)
Fixpoint lastNonTerminator (ws : jsstring) : option N :=
  match ws with
  | [] => None
  | x :: ws' =>
      match lastNonTerminator ws' with
      | Some y => Some y
      | None => if isLineTerminator x then None else Some x
      end
  end.

Definition headingAt (s : jsstring) : option jsstring :=
  match takeWhile (N.eqb hash) s with
  | [] => None
  | _ :: _ =>
      let afterHashes := dropWhile (N.eqb hash) s in
      match takeWhile isWhiteSpace afterHashes with
      | [] => None
      | _ :: ws' =>
          match dropWhile isWhiteSpace afterHashes with
          | (_ :: _) as text =>
              Some (takeWhile (fun c => negb (isLineTerminator c)) text)
          | [] => option_map (fun c => [c]) (lastNonTerminator ws')
          end
      end
  end.

(** The leftmost line start at which the heading pattern matches; a line
    starts at the beginning of the input and after each line terminator. *)
Fixpoint headingFrom (atLineStart : bool) (s : jsstring) : option jsstring :=
  match (if atLineStart then headingAt s else None) with
  | Some h => Some h
  | None =>
      match s with
      | [] => None
      | x :: s' => headingFrom (isLineTerminator x) s'
      end
  end.

Definition headingMatch (content : jsstring) : option jsstring :=
  headingFrom true content.

(** [label.replace] of the pattern [/^\|md\s*\n?/] by the empty string. *)
Definition stripMdPrefix (label : jsstring) : jsstring :=
  if startsWith label (js "|md")
  then dropWhile isWhiteSpace (skipn 3 label)
  else label.

Definition nonEmpty (s : jsstring) : bool :=
  match s with [] => false | _ :: _ => true end.

(** [content.split("\n").find((line) => line.trim())], trimmed, or the
    label when there is no such line. *)
Definition firstNonEmptyLine (content label : jsstring) : jsstring :=
  match find (fun line => nonEmpty (trim line)) (splitOn newline content) with
  | Some firstLine => trim firstLine
  | None => label
  end.

Definition extractMarkdownTitle (label : jsstring) : jsstring :=
  let content := stripMdPrefix label in
  match headingMatch content with
  | Some heading => trim heading
  | None => firstNonEmptyLine content label
  end.

Definition isTitleShape (s : Shape) : bool :=
  if str_eqb (shape_id s) (js "d2-config")
     || startsWith (shape_id s) (js "d2-config.")
  then false
  else str_eqb (shape_id s) (js "title")
       || endsWith (shape_id s) (js ".title").

Definition extractTitle (diagram : Diagram) : option jsstring :=
  match find isTitleShape (d_shapes diagram) with
  | None => None
  | Some titleShape =>
      match shape_label titleShape with
      | Some label =>
          if startsWith label (js "|md") || includes label (js "#")
          then Some (extractMarkdownTitle label)
          else Some label
      | None => None
      end
  end.

(** [...(title && { title })]: the property is set only for a title that
    is a non-empty string. *)
Definition titleProperty (t : option jsstring) : option jsstring :=
  match t with
  | Some ((_ :: _) as s) => Some s
  | _ => None
  end.

(** [parentPath ? `${parentPath}.${name}` : `<keyword>.${name}`]. *)
Definition nodePath (keyword parentPath nm : jsstring) : jsstring :=
  match parentPath with
  | [] => keyword ++ js "." ++ nm
  | _ :: _ => parentPath ++ js "." ++ nm
  end.

(** One [for ... of] loop of [extractLayers]: every entry that is not
    null pushes its node on [nodes]. *)
Section Loop.
Variable extract : Diagram -> jsstring -> list LayerNode.
Variables (keyword : jsstring) (ty : NodeType) (parentPath : jsstring).

Definition pushBoard (nodes : list LayerNode) (entry : option Diagram)
  : list LayerNode :=
  match entry with
  | None => nodes
  | Some board =>
      let p := nodePath keyword parentPath (d_name board) in
      nodes ++ [mkNode (d_name board) p ty
                       (titleProperty (extractTitle board))
                       (extract board p)]
  end.
End Loop.

Fixpoint extractLayers (diagram : Diagram) (parentPath : jsstring)
  : list LayerNode :=
  match diagram with
  | mkDiagram _ _ layers scenarios steps =>
      let nodes := [] in
      let nodes :=
        fold_left (pushBoard extractLayers (js "layers") layer parentPath)
                  layers nodes in
      let nodes :=
        fold_left (pushBoard extractLayers (js "scenarios") scenario parentPath)
                  scenarios nodes in
      let nodes :=
        fold_left (pushBoard extractLayers (js "steps") step parentPath)
                  steps nodes in
      nodes
  end.

(** [flattenTargets]: [traverse] pushes on the shared array [targets]. *)
Fixpoint traverseNode (node : LayerNode) (targets : list jsstring)
  : list jsstring :=
  let targets := targets ++ [path node] in
  fold_left (fun acc child => traverseNode child acc) (children node) targets.

Definition traverse (nodes : list LayerNode) (targets : list jsstring)
  : list jsstring :=
  fold_left (fun acc node => traverseNode node acc) nodes targets.

Definition flattenTargets (layers : list LayerNode) : list jsstring :=
  traverse layers [].

End LayerUtils.
Import LayerUtils.

(* ================================================================== *)
(** ** scripts/prerender.ts: the SVG dimension normaliser *)
(* ================================================================== *)

Module Svg.

Definition equalsSign : N := 61%N.
Definition isQuote (c : N) : bool := ((c =? 34) || (c =? 39))%N.
Definition notGt (c : N) : bool := negb (N.eqb c greaterThanSign).
Definition notQuote (c : N) : bool := negb (isQuote c).

(** The match of the pattern for the opening tag (anchored at the start:
    the text [<svg], white space, then everything that is not [>], then
    [>]): the groups [openTag] and [closeAngle]; the whole match is their
    concatenation.  The input has to start with [<svg] and a white space,
    and the open tag runs to the first [>]. *)
Definition svgTagMatch (svg : jsstring) : option (jsstring * jsstring) :=
  if startsWith svg (js "<svg") then
    match skipn 4 svg with
    | c :: _ =>
        if isWhiteSpace c then
          match dropWhile notGt svg with
          | closeAngle :: _ => Some (takeWhile notGt svg, [closeAngle])
          | [] => None
          end
        else None
    | [] => None
    end
  else None.

(** [/\swidth\s*=/.test(openTag)]. *)
Definition widthAttrAt (s : jsstring) : bool :=
  match s with
  | c :: s' =>
      isWhiteSpace c && startsWith s' (js "width")
      && match dropWhile isWhiteSpace (skipn 5 s') with
         | e :: _ => N.eqb e equalsSign
         | [] => false
         end
  | [] => false
  end.

Fixpoint hasWidthAttr (s : jsstring) : bool :=
  widthAttrAt s || match s with [] => false | _ :: s' => hasWidthAttr s' end.

(** The viewBox pattern tried at one position: [viewBox], optional white
    space, [=], optional white space, a single or double quote, one or
    more code units that are not quotes (the group), and a quote.  The
    result is the group. *)
Definition viewBoxAt (s : jsstring) : option jsstring :=
  if startsWith s (js "viewBox") then
    match dropWhile isWhiteSpace (skipn 7 s) with
    | e :: afterEq =>
        if N.eqb e equalsSign then
          match dropWhile isWhiteSpace afterEq with
          | q :: value =>
              if isQuote q then
                match takeWhile notQuote value, dropWhile notQuote value with
                | (_ :: _) as inner, _ :: _ => Some inner
                | _, _ => None
                end
              else None
          | [] => None
          end
        else None
    | [] => None
    end
  else None.

(** The leftmost position at which the pattern matches. *)
Fixpoint viewBoxMatch (s : jsstring) : option jsstring :=
  match viewBoxAt s with
  | Some inner => Some inner
  | None => match s with [] => None | _ :: s' => viewBoxMatch s' end
  end.

Definition ensureSvgDimensions (svg : jsstring) : jsstring :=
  match svgTagMatch svg with
  | None => svg
  | Some (openTag, closeAngle) =>
      let fullMatch := openTag ++ closeAngle in
      if hasWidthAttr openTag then svg
      else
        match viewBoxMatch openTag with
        | None => svg
        | Some inner =>
            (* const [, , w, h] = viewBoxMatch[1].split(/\s+/);
               if (!w || !h) return svg; *)
            match splitWhiteSpace inner with
            | _ :: _ :: ((_ :: _) as w) :: ((_ :: _) as h) :: _ =>
                let newOpenTag :=
                  openTag ++ js " width=" ++ dq ++ w ++ dq
                          ++ js " height=" ++ dq ++ h ++ dq in
                replaceString svg fullMatch (newOpenTag ++ closeAngle)
            | _ => svg
            end
        end
  end.

End Svg.
Import Svg.

(* ================================================================== *)
(** ** scripts/prerender.ts: the exported document *)
(* ================================================================== *)

Module Html.

(** A source literal in which the double quote is written as a backquote
    (the literals below contain no backquote of their own). *)
Definition quoted (s : string) : jsstring :=
  List.map (fun c => if N.eqb c 96 then dquote else c) (js s).

(** A [Record<string, string>]: the own properties in creation order,
    which is the order [JSON.stringify] and [Object.keys] enumerate them
    in when no key is an array index. *)
Definition Record_ := list (jsstring * jsstring).

(** [record[key] = value]. *)
Fixpoint setProperty (o : Record_) (key value : jsstring) : Record_ :=
  match o with
  | [] => [(key, value)]
  | (k, v) :: o' =>
      if str_eqb k key then (k, value) :: o'
      else (k, v) :: setProperty o' key value
  end.

(** [interface D2DiagramData]. *)
Record D2DiagramData := mkData {
  data_title : jsstring;
  data_layers : list LayerNode;
  data_svgs : Record_
}.

(** *** JSON.stringify on the shape of [D2DiagramData] *)

Definition hexDigit (n : N) : N :=
  (if n <? 10 then 48 + n else 87 + n)%N.

(** UnicodeEscape: a backslash, [u] and four lower-case hexadecimal
    digits. *)
Definition unicodeEscape (c : N) : jsstring :=
  [92; 117; hexDigit ((c / 4096) mod 16); hexDigit ((c / 256) mod 16);
   hexDigit ((c / 16) mod 16); hexDigit (c mod 16)]%N.

Definition isLeadingSurrogate (c : N) : bool :=
  ((55296 <=? c) && (c <=? 56319))%N.
Definition isTrailingSurrogate (c : N) : bool :=
  ((56320 <=? c) && (c <=? 57343))%N.

(** The code units QuoteJSONString puts between the quotes. *)
Fixpoint quoteJSONChars (s : jsstring) : jsstring :=
  match s with
  | [] => []
  | c :: s' =>
      if isLeadingSurrogate c then
        match s' with
        | d :: s'' =>
            if isTrailingSurrogate d then c :: d :: quoteJSONChars s''
            else unicodeEscape c ++ quoteJSONChars s'
        | [] => unicodeEscape c
        end
      else if isTrailingSurrogate c then unicodeEscape c ++ quoteJSONChars s'
      else if N.eqb c 8 then js "\b" ++ quoteJSONChars s'
      else if N.eqb c 9 then js "\t" ++ quoteJSONChars s'
      else if N.eqb c 10 then js "\n" ++ quoteJSONChars s'
      else if N.eqb c 12 then js "\f" ++ quoteJSONChars s'
      else if N.eqb c 13 then js "\r" ++ quoteJSONChars s'
      else if N.eqb c 34 then 92%N :: dquote :: quoteJSONChars s'
      else if N.eqb c 92 then js "\\" ++ quoteJSONChars s'
      else if N.ltb c 32 then unicodeEscape c ++ quoteJSONChars s'
      else c :: quoteJSONChars s'
  end.

Definition quoteJSONString (s : jsstring) : jsstring :=
  dq ++ quoteJSONChars s ++ dq.

(** The members of an object or the elements of an array, separated by
    commas. *)
Fixpoint commaJoin (parts : list jsstring) : jsstring :=
  match parts with
  | [] => []
  | [p] => p
  | p :: more => p ++ js "," ++ commaJoin more
  end.

Definition member (key value : jsstring) : jsstring :=
  quoteJSONString key ++ js ":" ++ value.

Definition typeString (t : NodeType) : jsstring :=
  match t with
  | layer => js "layer"
  | scenario => js "scenario"
  | step => js "step"
  end.

Fixpoint stringifyNode (n : LayerNode) : jsstring :=
  js "{"
  ++ commaJoin
       ([member (js "name") (quoteJSONString (name n));
         member (js "path") (quoteJSONString (path n));
         member (js "type") (quoteJSONString (typeString (type n)))]
        ++ match title n with
           | Some t => [member (js "title") (quoteJSONString t)]
           | None => []
           end
        ++ [member (js "children")
              (js "[" ++ commaJoin (List.map stringifyNode (children n))
                      ++ js "]")])
  ++ js "}".

Definition stringifyNodes (ns : list LayerNode) : jsstring :=
  js "[" ++ commaJoin (List.map stringifyNode ns) ++ js "]".

Definition stringifyRecord (o : Record_) : jsstring :=
  js "{"
  ++ commaJoin (List.map (fun kv => member (fst kv) (quoteJSONString (snd kv))) o)
  ++ js "}".

(** [JSON.stringify(data)]. *)
Definition JSON_stringify (data : D2DiagramData) : jsstring :=
  js "{"
  ++ commaJoin
       [member (js "title") (quoteJSONString (data_title data));
        member (js "layers") (stringifyNodes (data_layers data));
        member (js "svgs") (stringifyRecord (data_svgs data))]
  ++ js "}".

Definition escapeHtml (str : jsstring) : jsstring :=
  replaceAll dquote (js "&quot;")
    (replaceAll greaterThanSign (js "&gt;")
       (replaceAll lessThanSign (js "&lt;")
          (replaceAll ampersand (js "&amp;") str))).

Definition escapeData (payload : jsstring) : jsstring :=
  replaceAll ampersand (js "\u0026")
    (replaceAll greaterThanSign (js "\u003e")
       (replaceAll lessThanSign (js "\u003c") payload)).

Definition htmlHead : jsstring := quoted
"<!DOCTYPE html>
<html lang=`en`>
<head>
  <meta charset=`UTF-8`>
  <meta name=`viewport` content=`width=device-width, initial-scale=1.0`>
  <title>".

Definition htmlMiddle : jsstring := quoted
"</title>
  <style>body { background: #1a1a1a; margin: 0; }</style>
</head>
<body>
  <div id=`app`></div>
  <script>
    window.D2_DIAGRAM = ".

Definition htmlTail : jsstring := quoted
";
  </script>
  <script src=`https://alan-roe.github.io/d2-viewer/d2-viewer.js`></script>
</body>
</html>".

Definition generateHtml (data : D2DiagramData) : jsstring :=
  let escapedData := escapeData (JSON_stringify data) in
  htmlHead ++ escapeHtml (data_title data) ++ htmlMiddle
           ++ escapedData ++ htmlTail.

End Html.
Import Html.

(* ================================================================== *)
(** ** scripts/prerender.ts: import resolution and the export driver *)
(* ================================================================== *)

Module Prerender.

(** What the script prints.  The texts are kept as their parts: which
    line it is and the values interpolated into it. *)
Inductive Message (Err : Type) :=
| WarnCouldNotRead (normalizedPath : jsstring)
| WarnImportNotFound (importRef relativePath : jsstring)
| LogReading (inputPath : jsstring)
| LogBuildingFileSystem
| LogFoundFiles (fileCount : nat)
| LogCompiling
| ErrorCompilation (error : Err)
| LogFoundLayers (targets : list jsstring)
| LogRenderingRoot
| ErrorRenderingRoot (error : Err)
| LogRendering (target : jsstring)
| ErrorRendering (target : jsstring) (error : Err)
| LogWriting (outputPath : jsstring)
| LogDone (outputPath : jsstring) (svgCount : nat) (html : jsstring).

(** How a call of an async function ends: it returns, or it rejects with
    the error thrown. *)
Inductive Completion (Err A : Type) :=
| Returned (value : A)
| Threw (error : Err).
Arguments Returned {Err A} value.
Arguments Threw {Err A} error.
Arguments WarnCouldNotRead {Err}.
Arguments WarnImportNotFound {Err}.
Arguments LogReading {Err}.
Arguments LogBuildingFileSystem {Err}.
Arguments LogFoundFiles {Err}.
Arguments LogCompiling {Err}.
Arguments LogFoundLayers {Err}.
Arguments LogRenderingRoot {Err}.
Arguments LogRendering {Err}.
Arguments LogWriting {Err}.
Arguments LogDone {Err}.

(** The import pattern, [@] with an optional [...] before it and then one
    or more code units that are neither white space nor [;], [{], [}]:
    the references it matches, left to right.  The optional dots do not
    change which [@] starts a match nor what the group holds. *)
Definition at_sign : N := 64%N.

Definition isRefChar (c : N) : bool :=
  negb (isWhiteSpace c || (c =? 59) || (c =? 123) || (c =? 125))%N.

Fixpoint scanImports (current : option jsstring) (s : jsstring)
  : list jsstring :=
  match current with
  | Some ref =>
      match s with
      | c :: s' =>
          if isRefChar c then scanImports (Some (ref ++ [c])) s'
          else ref :: scanImports None s'
      | [] => [ref]
      end
  | None =>
      match s with
      | c :: s' =>
          if N.eqb c at_sign then
            match s' with
            | d :: _ =>
                if isRefChar d then scanImports (Some []) s'
                else scanImports None s'
            | [] => []
            end
          else scanImports None s'
      | [] => []
      end
  end.

Definition importRefs (content : jsstring) : list jsstring :=
  scanImports None content.

Section BuildFileSystem.

Variable Err : Type.
(** [resolve], [dirname], [join], [relative] of [path], and [readFile],
    [access] of [fs/promises], which reject when the file is not
    there. *)
Variables resolve dirname : jsstring -> jsstring.
Variables join relative : jsstring -> jsstring -> jsstring.
Variable readFile : jsstring -> Err + jsstring.
Variable access : jsstring -> Err + unit.

(** The variables [processFile] closes over, and the console. *)
Record FsState := mkFsState {
  fs : Record_;
  processed : list jsstring;
  console : list (Message Err)
}.

Definition print (m : Message Err) (st : FsState) : FsState :=
  mkFsState (fs st) (processed st) (console st ++ [m]).

Definition has (set : list jsstring) (x : jsstring) : bool :=
  existsb (str_eqb x) set.

Definition importPathOf (currentDir importRef : jsstring) : jsstring :=
  let importPath := join currentDir importRef in
  if endsWith importPath (js ".d2") then importPath
  else importPath ++ js ".d2".

Definition altPathOf (currentDir importRef : jsstring) : jsstring :=
  join currentDir importRef.

Variable baseDir : jsstring.

Section Loop.
(** The recursive call; [None] when the recursion budget is used up. *)
Variable processFile :
  jsstring -> FsState -> option (Completion Err unit * FsState).

(** [await access(p); await processFile(p);] *)
Definition accessThenProcess (p : jsstring) (st : FsState)
  : option (Completion Err unit * FsState) :=
  match access p with
  | inl e => Some (Threw e, st)
  | inr _ => processFile p st
  end.

(** The body of the [while] loop for one match. *)
Definition processImport (currentDir relativePath importRef : jsstring)
  (st : FsState) : option (Completion Err unit * FsState) :=
  match accessThenProcess (importPathOf currentDir importRef) st with
  | None => None
  | Some (Returned _, st1) => Some (Returned tt, st1)
  | Some (Threw _, st1) =>
      match accessThenProcess (altPathOf currentDir importRef) st1 with
      | None => None
      | Some (Returned _, st2) => Some (Returned tt, st2)
      | Some (Threw _, st2) =>
          Some (Returned tt,
                print (WarnImportNotFound importRef relativePath) st2)
      end
  end.

Fixpoint processImports (currentDir relativePath : jsstring)
  (refs : list jsstring) (st : FsState)
  : option (Completion Err unit * FsState) :=
  match refs with
  | [] => Some (Returned tt, st)
  | importRef :: refs' =>
      match processImport currentDir relativePath importRef st with
      | Some (Returned _, st1) =>
          processImports currentDir relativePath refs' st1
      | other => other
      end
  end.
End Loop.

Fixpoint processFile (depth : nat) (filePath : jsstring) (st : FsState)
  : option (Completion Err unit * FsState) :=
  match depth with
  | O => None
  | S depth' =>
      let normalizedPath := resolve filePath in
      if has (processed st) normalizedPath then Some (Returned tt, st)
      else
        let st := mkFsState (fs st) (processed st ++ [normalizedPath])
                            (console st) in
        match readFile normalizedPath with
        | inl _ => Some (Returned tt, print (WarnCouldNotRead normalizedPath) st)
        | inr content =>
            let relativePath := relative baseDir normalizedPath in
            let st := mkFsState (setProperty (fs st) relativePath content)
                                (processed st) (console st) in
            processImports (processFile depth')
                           (dirname normalizedPath) relativePath
                           (importRefs content) st
        end
  end.

End BuildFileSystem.

Arguments fs {Err}.
Arguments processed {Err}.
Arguments console {Err}.

Section BuildFileSystemEntry.
Variable Err : Type.
Variables resolve dirname : jsstring -> jsstring.
Variables join relative : jsstring -> jsstring -> jsstring.
Variable readFile : jsstring -> Err + jsstring.
Variable access : jsstring -> Err + unit.

(** [buildFileSystem(entryPath)]: the file set, or the error it rejects
    with, and the console after it. *)
Definition buildFileSystem (depth : nat) (entryPath : jsstring)
  (out : list (Message Err))
  : option (Completion Err Record_ * list (Message Err)) :=
  let baseDir := dirname entryPath in
  match processFile resolve dirname join relative readFile access baseDir
                    depth entryPath (mkFsState [] [] out) with
  | None => None
  | Some (Returned _, st) => Some (Returned (fs st), console st)
  | Some (Threw e, st) => Some (Threw e, console st)
  end.
End BuildFileSystemEntry.

End Prerender.
Import Prerender.

Module Cli.

Section Main.

Variable Err : Type.
Variables resolve dirname basename : jsstring -> jsstring.
Variables join relative : jsstring -> jsstring -> jsstring.
Variable readFile : jsstring -> Err + jsstring.
Variable access : jsstring -> Err + unit.

(** The external compiler and renderer.  [compile] stands for
    [d2.compile] with the options of the command line, [render] for
    [d2.render] with [center], [pad] and [noXMLTag] set as the script
    sets them; the last argument is the target. *)
Variable RenderOptions : Type.
Variable compile : Record_ -> jsstring -> Err + (Diagram * RenderOptions).
Variable render : Diagram -> RenderOptions -> jsstring -> Err + jsstring.
(** [writeFile] rejects with an error or writes. *)
Variable writeFails : jsstring -> jsstring -> option Err.

(** The values taken from the command line. *)
Variables inputPath outputPath title : jsstring.

(** The console and the files written, latest first. *)
Record World := mkWorld {
  out : list (Message Err);
  written : list (jsstring * jsstring)
}.

Definition log (m : Message Err) (w : World) : World :=
  mkWorld (out w ++ [m]) (written w).

(** The loop [for (const target of targets)]. *)
Fixpoint renderTargets (diagram : Diagram) (renderOptions : RenderOptions)
  (targets : list jsstring) (svgs : Record_) (w : World)
  : Completion Err Record_ * World :=
  match targets with
  | [] => (Returned svgs, w)
  | target :: targets' =>
      let w := log (LogRendering target) w in
      match render diagram renderOptions target with
      | inl error => (Threw error, log (ErrorRendering target error) w)
      | inr svg =>
          renderTargets diagram renderOptions targets'
            (setProperty svgs target (ensureSvgDimensions svg)) w
      end
  end.

Definition main (depth : nat) (w : World)
  : option (Completion Err unit * World) :=
  let w := log (LogReading inputPath) w in
  let w := log LogBuildingFileSystem w in
  match buildFileSystem resolve dirname join relative readFile access
                        depth inputPath (out w) with
  | None => None
  | Some (Threw e, out') => Some (Threw e, mkWorld out' (written w))
  | Some (Returned fsMap, out') =>
      let w := mkWorld out' (written w) in
      let fileCount := List.length fsMap in
      let w := log (LogFoundFiles fileCount) w in
      let w := log LogCompiling w in
      let inputBasename := basename inputPath in
      match compile fsMap inputBasename with
      | inl error => Some (Threw error, log (ErrorCompilation error) w)
      | inr (diagram, renderOptions) =>
          let layers := extractLayers diagram [] in
          let targets := flattenTargets layers in
          let w := log (LogFoundLayers targets) w in
          let svgs : Record_ := [] in
          let w := log LogRenderingRoot w in
          match render diagram renderOptions [] with
          | inl error => Some (Threw error, log (ErrorRenderingRoot error) w)
          | inr rootSvg =>
              let svgs := setProperty svgs [] (ensureSvgDimensions rootSvg) in
              match renderTargets diagram renderOptions targets svgs w with
              | (Threw error, w) => Some (Threw error, w)
              | (Returned svgs, w) =>
                  let data := mkData title layers svgs in
                  let w := log (LogWriting outputPath) w in
                  match writeFails outputPath (generateHtml data) with
                  | Some error => Some (Threw error, w)
                  | None =>
                      let w := mkWorld (out w)
                                 ((outputPath, generateHtml data) :: written w) in
                      Some (Returned tt,
                            log (LogDone outputPath (List.length svgs)
                                         (generateHtml data)) w)
                  end
              end
          end
      end
  end.

End Main.

Arguments out {Err}.
Arguments written {Err}.

End Cli.
Import Cli.

(* ================================================================== *)
(** ** A model of [node:path] for POSIX paths, for the examples *)
(* ================================================================== *)

Module PosixPath.

Definition slash : N := 47%N.
Definition isSlash (c : N) : bool := N.eqb c slash.

Definition segments (p : jsstring) : list jsstring :=
  filter nonEmpty (splitOn slash p).

(** Resolution of [.] and [..]; [stack] holds the segments kept so far,
    last first. *)
Fixpoint normalizeSegments (absolute : bool) (stack segs : list jsstring)
  : list jsstring :=
  match segs with
  | [] => rev stack
  | seg :: segs' =>
      if str_eqb seg (js ".") then normalizeSegments absolute stack segs'
      else if str_eqb seg (js "..") then
        match stack with
        | top :: stack' =>
            if str_eqb top (js "..")
            then normalizeSegments absolute (seg :: stack) segs'
            else normalizeSegments absolute stack' segs'
        | [] =>
            if absolute then normalizeSegments absolute [] segs'
            else normalizeSegments absolute [seg] segs'
        end
      else normalizeSegments absolute (seg :: stack) segs'
  end.

Fixpoint slashJoin (segs : list jsstring) : jsstring :=
  match segs with
  | [] => []
  | [s] => s
  | s :: more => s ++ [slash] ++ slashJoin more
  end.

Definition isAbsolute (p : jsstring) : bool := startsWith p [slash].

Definition normalize (p : jsstring) : jsstring :=
  match p with
  | [] => js "."
  | _ :: _ =>
      let body := slashJoin (normalizeSegments (isAbsolute p) [] (segments p)) in
      let body :=
        match body with
        | [] => if isAbsolute p then [] else js "."
        | _ :: _ => if endsWith p [slash] then body ++ [slash] else body
        end in
      if isAbsolute p then slash :: body else body
  end.

Definition join (a b : jsstring) : jsstring :=
  match a, b with
  | [], [] => js "."
  | [], _ => normalize b
  | _, [] => normalize a
  | _, _ => normalize (a ++ [slash] ++ b)
  end.

Section Cwd.
(** The working directory, an absolute path. *)
Variable cwd : jsstring.

Definition resolve (p : jsstring) : jsstring :=
  let full := if isAbsolute p then p else cwd ++ [slash] ++ p in
  slash :: slashJoin (normalizeSegments true [] (segments full)).

Fixpoint dropCommon (a b : list jsstring)
  : list jsstring * list jsstring :=
  match a, b with
  | x :: a', y :: b' => if str_eqb x y then dropCommon a' b' else (a, b)
  | _, _ => (a, b)
  end.

Definition relative (from to : jsstring) : jsstring :=
  let (up, down) := dropCommon (segments (resolve from))
                               (segments (resolve to)) in
  slashJoin (List.map (fun _ => js "..") up ++ down).
End Cwd.

(** [dirname]: the path up to the last slash that is followed by a
    segment, trailing slashes ignored. *)
Definition dirname (p : jsstring) : jsstring :=
  match p with
  | [] => js "."
  | c :: body =>
      let noTrail := dropWhile isSlash (rev body) in
      match dropWhile (fun x => negb (isSlash x)) noTrail with
      | [] => if isSlash c then js "/" else js "."
      | _ :: front =>
          match front with
          | [] => if isSlash c then js "//" else [c]
          | _ :: _ => c :: rev front
          end
      end
  end.

Definition basename (p : jsstring) : jsstring :=
  last (segments p) [].

(** A disk as the list of its files; reading or accessing a path that is
    not on it rejects. *)
Definition Disk := list (jsstring * jsstring).

Fixpoint lookup (d : Disk) (p : jsstring) : option jsstring :=
  match d with
  | [] => None
  | (k, v) :: d' => if str_eqb k p then Some v else lookup d' p
  end.

Inductive FsError := ENOENT (p : jsstring).

Definition readFile (d : Disk) (p : jsstring) : FsError + jsstring :=
  match lookup d p with
  | Some content => inr content
  | None => inl (ENOENT p)
  end.

Definition access (d : Disk) (p : jsstring) : FsError + unit :=
  match lookup d p with
  | Some _ => inr tt
  | None => inl (ENOENT p)
  end.

End PosixPath.

(* ================================================================== *)
(** ** Notions the properties are stated with *)
(* ================================================================== *)

Module Spec.

(** The paths of a forest in depth-first pre-order, written directly: a
    node, then its children's subtrees from left to right. *)
Fixpoint preorder (n : LayerNode) : list jsstring :=
  path n :: flat_map preorder (children n).

Definition preorderForest (forest : list LayerNode) : list jsstring :=
  flat_map preorder forest.

(** The number of nodes. *)
Fixpoint nodeCount (n : LayerNode) : nat :=
  S (list_sum (List.map nodeCount (children n))).

Definition forestCount (forest : list LayerNode) : nat :=
  list_sum (List.map nodeCount forest).

(** [occurs n forest]: [n] is a node of the forest, at any depth. *)
Inductive occurs (n : LayerNode) : list LayerNode -> Prop :=
| occurs_here : forall rest, occurs n (n :: rest)
| occurs_below : forall m rest, occurs n (children m) -> occurs n (m :: rest)
| occurs_later : forall m rest, occurs n rest -> occurs n (m :: rest).

(** The entries of a collection that are not null, in order. *)
Definition present (l : list (option Diagram)) : list Diagram :=
  flat_map (fun e => match e with Some b => [b] | None => [] end) l.

Definition presentNames (l : list (option Diagram)) : list jsstring :=
  List.map d_name (present l).

Definition dot : N := 46%N.
Definition noDot (s : jsstring) : bool := negb (existsb (N.eqb dot) s).

(** The node [extractLayers] builds for a board of a collection. *)
Definition boardNode (keyword : jsstring) (ty : NodeType)
  (parentPath : jsstring) (b : Diagram) : LayerNode :=
  let p := nodePath keyword parentPath (d_name b) in
  mkNode (d_name b) p ty (titleProperty (extractTitle b)) (extractLayers b p).

(** The first segment of the paths below a board: the parent path, or at
    the root the keyword of the collection. *)
Definition leading (keyword parentPath : jsstring) : jsstring :=
  match parentPath with [] => keyword | _ :: _ => parentPath end.

(** The boards below a board, each with the leading segment of its path. *)
Definition kidsOf (d : Diagram) (parentPath : jsstring)
  : list (jsstring * Diagram) :=
  List.map (pair (leading (js "layers") parentPath)) (present (d_layers d))
  ++ List.map (pair (leading (js "scenarios") parentPath))
              (present (d_scenarios d))
  ++ List.map (pair (leading (js "steps") parentPath)) (present (d_steps d)).

Definition kidPath (kid : jsstring * Diagram) : jsstring :=
  fst kid ++ [dot] ++ d_name (snd kid).

Definition kidKey (kid : jsstring * Diagram) : jsstring * jsstring :=
  (fst kid, d_name (snd kid)).

(** The paths of the subtrees of a list of boards. *)
Definition pathsOf (kids : list (jsstring * Diagram)) : list jsstring :=
  flat_map (fun kid =>
              kidPath kid
              :: preorderForest (extractLayers (snd kid) (kidPath kid))) kids.

(** Children grouped by kind: layers, then scenarios, then steps. *)
Definition groupedByKind (nodes : list LayerNode) : Prop :=
  exists a b c,
    List.map type nodes = repeat layer a ++ repeat scenario b ++ repeat step c.

(** The boards of a board that are not null, each with the kind of its
    collection: those of [layers] in the compiler's order, then those of
    [scenarios], then those of [steps]. *)
Definition boardsByKind (d : Diagram) : list (NodeType * Diagram) :=
  List.map (pair layer) (present (d_layers d))
  ++ List.map (pair scenario) (present (d_scenarios d))
  ++ List.map (pair step) (present (d_steps d)).

(** A node stands for a board of a kind: it has that kind and the name
    of the board, and its children stand, one by one and in this order,
    for the boards of the board by kind; so at every depth. *)
Inductive mirrors : NodeType * Diagram -> LayerNode -> Prop :=
| mirrors_board : forall ty b n,
    type n = ty ->
    name n = d_name b ->
    Forall2 mirrors (boardsByKind b) (children n) ->
    mirrors (ty, b) n.

(** [boardOf d b]: [b] is a board below [d], at any depth. *)
Inductive boardOf (d : Diagram) : Diagram -> Prop :=
| boardOf_child : forall ty b, In (ty, b) (boardsByKind d) -> boardOf d b
| boardOf_deeper : forall ty c b,
    In (ty, c) (boardsByKind d) -> boardOf c b -> boardOf d b.


Fixpoint distinct (l : list jsstring) : bool :=
  match l with
  | [] => true
  | x :: l' => negb (existsb (str_eqb x) l') && distinct l'
  end.

(** Boards are well named when no name holds a dot and sibling names
    differ: at the root within each collection, below the root across the
    three collections of a board. *)
Fixpoint wellNamed (root : bool) (d : Diagram) : bool :=
  match d with
  | mkDiagram _ _ layers scenarios steps =>
      let below :=
        forallb (fun e => match e with
                          | Some b => wellNamed false b
                          | None => true
                          end) in
      forallb noDot (presentNames layers ++ presentNames scenarios
                                         ++ presentNames steps)
      && (if root
          then distinct (presentNames layers)
               && distinct (presentNames scenarios)
               && distinct (presentNames steps)
          else distinct (presentNames layers ++ presentNames scenarios
                                              ++ presentNames steps))
      && below layers && below scenarios && below steps
  end.

(** Does the string hold the code unit? *)
Definition holds (c : N) (s : jsstring) : bool := existsb (N.eqb c) s.

(** The attributes the normaliser adds for the fields [w] and [h]. *)
Definition dimensionAttrs (w h : jsstring) : jsstring :=
  js " width=" ++ dq ++ w ++ dq ++ js " height=" ++ dq ++ h ++ dq.

(** *** The shape of an image string, as the normaliser reads it *)

(** The input begins with [<svg] and a white space and holds a [>]:
    [tag] is the text before the first [>] and [rest] the text after
    it. *)
Definition opensWith (svg tag rest : jsstring) : Prop :=
  svg = tag ++ greaterThanSign :: rest
  /\ holds greaterThanSign tag = false
  /\ exists ws body, tag = js "<svg" ++ ws :: body /\ isWhiteSpace ws = true.

(** The text holds a white space, [width], white space or none, and
    [=], wherever that is. *)
Definition holdsWidth (tag : jsstring) : Prop :=
  exists before ws spaces after,
    tag = before ++ ws :: js "width" ++ spaces ++ equalsSign :: after
    /\ isWhiteSpace ws = true
    /\ forallb isWhiteSpace spaces = true.

(** The text begins with [viewBox], white space or none, [=], white
    space or none, a single or double quote, the value [inner], which is
    not empty and holds no quote, and a single or double quote. *)
Definition beginsViewBox (s inner : jsstring) : Prop :=
  exists spaces1 spaces2 quote1 quote2 after,
    s = js "viewBox" ++ spaces1 ++ equalsSign :: spaces2
                     ++ quote1 :: inner ++ quote2 :: after
    /\ forallb isWhiteSpace spaces1 = true
    /\ forallb isWhiteSpace spaces2 = true
    /\ isQuote quote1 = true
    /\ isQuote quote2 = true
    /\ inner <> []
    /\ forallb notQuote inner = true.

(** [inner] is the value of the first such text in [tag]: the text
    begins so after [before], and at no place within [before]. *)
Definition firstViewBox (tag inner : jsstring) : Prop :=
  exists before s,
    tag = before ++ s
    /\ beginsViewBox s inner
    /\ forall earlier later,
         before = earlier ++ later -> later <> [] ->
         forall value, ~ beginsViewBox (later ++ s) value.

(** The text holds no such text at all. *)
Definition noViewBox (tag : jsstring) : Prop :=
  forall before s value, tag = before ++ s -> ~ beginsViewBox s value.

(** What a code unit of the payload becomes in the document. *)
Definition unicodeEscaped (c : N) : jsstring :=
  if N.eqb c lessThanSign then js "\u003c"
  else if N.eqb c greaterThanSign then js "\u003e"
  else if N.eqb c ampersand then js "\u0026"
  else [c].

(** What a code unit of the title becomes in the document. *)
Definition entityEscaped (c : N) : jsstring :=
  if N.eqb c ampersand then js "&amp;"
  else if N.eqb c lessThanSign then js "&lt;"
  else if N.eqb c greaterThanSign then js "&gt;"
  else if N.eqb c dquote then js "&quot;"
  else [c].

End Spec.
Import Spec.

(** Example boards. *)
Module Examples.

Definition board (nm : string) (layers scenarios steps : list (option Diagram))
  : Diagram :=
  mkDiagram (js nm) [] layers scenarios steps.

(** The root board, whose name is empty. *)
Definition rootBoard (layers scenarios steps : list (option Diagram))
  : Diagram :=
  mkDiagram [] [] layers scenarios steps.

(** A root layer [auth] with a scenario [timeout] under it. *)
Definition authDiagram : Diagram :=
  rootBoard [Some (board "auth" [] [Some (board "timeout" [] [] [])] [])] [] [].

(** A root layer [a] with a layer [x] and a scenario [x] under it. *)
Definition clashDiagram : Diagram :=
  rootBoard [Some (board "a" [Some (board "x" [] [] [])]
                            [Some (board "x" [] [] [])] [])] [] [].

(** A root layer [a] with the layers [b] and [b.c] under it, [b] having
    a layer [c]. *)
Definition dottedDiagram : Diagram :=
  rootBoard [Some (board "a" [Some (board "b" [Some (board "c" [] [] [])] [] []);
                            Some (board "b.c" [] [] [])] [] [])] [] [].

(** Layers, scenarios and steps at two levels, with a null entry. *)
Definition mixedDiagram : Diagram :=
  rootBoard
    [Some (board "l1" [Some (board "in" [] [] [])] [] [Some (board "s" [] [] [])]);
     None; Some (board "l2" [] [] [])]
    [Some (board "sc" [] [] [])]
    [Some (board "st" [] [] [])].

(** A board whose title shape has a plain label of two lines. *)
Definition plainTitleDiagram : Diagram :=
  mkDiagram (js "b")
    [mkShape (js "box") (Some (js "Box"));
     mkShape (js "title") (Some (js "  hello
world"))] [] [] [].

(** A rendered image with a viewBox and no width. *)
Definition viewBoxSvg : jsstring :=
  quoted "<svg viewBox=`0 0 120 80`><g/></svg>".

(** A viewBox of two fields. *)
Definition shortViewBoxSvg : jsstring :=
  quoted "<svg viewBox=`0 0`><g/></svg>".

(** An opening tag that holds a dollar pattern of [replace]. *)
Definition dollarSvg : jsstring :=
  quoted "<svg viewBox=`0 0 1 2` a=`$'`><g>".

(** Errors of the example runs: a file that is not there, or a failure
    of the compiler or renderer. *)
Inductive RunError :=
| Fs (e : PosixPath.FsError)
| D2Failure (msg : jsstring).

Definition root : jsstring := js "/".

Definition readFileOn (d : PosixPath.Disk) (p : jsstring)
  : RunError + jsstring :=
  match PosixPath.readFile d p with
  | inl e => inl (Fs e)
  | inr content => inr content
  end.

Definition accessOn (d : PosixPath.Disk) (p : jsstring) : RunError + unit :=
  match PosixPath.access d p with
  | inl e => inl (Fs e)
  | inr u => inr u
  end.

(** File A imports file B, and B is not there. *)
Definition twoFileDisk : PosixPath.Disk :=
  [(js "/p/a.d2", js "...@b")].

(** The entry imports a file of a subdirectory, which imports [lib/x];
    [lib/x.d2] is there under the entry's directory and under the root of
    the file system, not under the subdirectory. *)
Definition nestedDisk : PosixPath.Disk :=
  [(js "/p/main.d2", js "...@sub/a");
   (js "/p/sub/a.d2", js "x: @lib/x");
   (js "/p/lib/x.d2", js "shape");
   (js "/lib/x.d2", js "shape")].

Definition buildOn (d : PosixPath.Disk) (depth : nat) (entryPath : jsstring) :=
  buildFileSystem (PosixPath.resolve root) PosixPath.dirname PosixPath.join
                  (PosixPath.relative root) (readFileOn d) (accessOn d)
                  depth entryPath [].

(** A compiler that rejects, one that returns [authDiagram], and a
    renderer that rejects the scenario's target. *)
Definition failingCompile (fsMap : Record_) (inputPath : jsstring)
  : RunError + (Diagram * unit) :=
  inl (D2Failure (js "compile failed")).

Definition authCompile (fsMap : Record_) (inputPath : jsstring)
  : RunError + (Diagram * unit) :=
  inr (authDiagram, tt).

Definition timeoutFailingRender (d : Diagram) (ro : unit) (target : jsstring)
  : RunError + jsstring :=
  if str_eqb target (js "layers.auth.timeout")
  then inl (D2Failure (js "render failed"))
  else inr viewBoxSvg.

Definition mainOn (d : PosixPath.Disk)
  (compile : Record_ -> jsstring -> RunError + (Diagram * unit))
  (render : Diagram -> unit -> jsstring -> RunError + jsstring) :=
  main (PosixPath.resolve root) PosixPath.dirname PosixPath.basename
       PosixPath.join (PosixPath.relative root) (readFileOn d) (accessOn d)
       compile render (fun _ _ => @None RunError)
       (js "/p/a.d2") (js "/p/a.html") (js "a").

End Examples.
(* ================================================================== *)
(** ** src/App.tsx and src/embed-viewer.tsx: navigation in the viewers *)
(* ================================================================== *)

Module Viewer.

(** [record[key]] for a key that no inherited property has (the keys
    looked up below are empty or begin with a collection keyword and a
    dot): the own property, or undefined. *)
Fixpoint getProperty (o : Record_) (key : jsstring) : option jsstring :=
  match o with
  | [] => None
  | (k, v) :: o' => if str_eqb k key then Some v else getProperty o' key
  end.

Definition startsWithKeyword (s : jsstring) : bool :=
  startsWith s (js "layers.") || startsWith s (js "scenarios.")
  || startsWith s (js "steps.").

(** [layerPattern.test(href)] for the pattern [^(root\.)?] then one of
    the three keywords and a dot. *)
Definition layerPatternTest (href : jsstring) : bool :=
  (startsWith href (js "root.") && startsWithKeyword (skipn 5 href))
  || startsWithKeyword href.

(** [href.replace] of the pattern [/^root\./] by the empty string. *)
Definition stripRoot (href : jsstring) : jsstring :=
  if startsWith href (js "root.") then skipn 5 href else href.

(** [handleDiagramClick] of the live viewer (App.tsx), as a function of
    the [href] of the anchor clicked ([None] when there is no anchor or no
    attribute) and of the current target: the new current target. *)
Definition handleDiagramClick (href : option jsstring)
  (currentTarget : jsstring) : jsstring :=
  match href with
  | None => currentTarget
  | Some [] => currentTarget
  | Some ((_ :: _) as h) =>
      if layerPatternTest h then stripRoot h else currentTarget
  end.

(** [handleDiagramClick] of the embedded viewer: it navigates only when
    the payload has an image for the target. *)
Definition embedHandleDiagramClick (data : D2DiagramData)
  (href : option jsstring) (currentTarget : jsstring) : jsstring :=
  match href with
  | None => currentTarget
  | Some [] => currentTarget
  | Some ((_ :: _) as h) =>
      if layerPatternTest h then
        match getProperty (data_svgs data) (stripRoot h) with
        | Some (_ :: _) => stripRoot h
        | _ => currentTarget
        end
      else currentTarget
  end.

(** [ensureSvgDimensions] of the embedded viewer, which checks the number
    of fields before it takes the third and fourth. *)
Definition embedEnsureSvgDimensions (svg : jsstring) : jsstring :=
  match svgTagMatch svg with
  | None => svg
  | Some (openTag, closeAngle) =>
      let fullMatch := openTag ++ closeAngle in
      if hasWidthAttr openTag then svg
      else
        match viewBoxMatch openTag with
        | None => svg
        | Some inner =>
            let parts := splitWhiteSpace inner in
            if List.length parts <? 4 then svg
            else
              match nth 2 parts [], nth 3 parts [] with
              | (_ :: _) as w, (_ :: _) as h =>
                  let newOpenTag :=
                    openTag ++ js " width=" ++ dq ++ w ++ dq
                            ++ js " height=" ++ dq ++ h ++ dq in
                  replaceString svg fullMatch (newOpenTag ++ closeAngle)
              | _, _ => svg
              end
        end
  end.

(** [currentSvg] of the embedded viewer. *)
Definition currentSvg (data : option D2DiagramData) (currentTarget : jsstring)
  : jsstring :=
  match data with
  | None => []
  | Some d =>
      match getProperty (data_svgs d) currentTarget with
      | Some ((_ :: _) as svg) => embedEnsureSvgDimensions svg
      | _ => []
      end
  end.

End Viewer.
Import Viewer.

(* ================================================================== *)
(** ** scripts/prerender.ts: the values computed from the command line *)
(* ================================================================== *)

Module Script.

(** [inputPath.replace] of the pattern [/\.d2$/] by [.html]. *)
Definition replaceD2Suffix (inputPath : jsstring) : jsstring :=
  if endsWith inputPath (js ".d2")
  then firstn (List.length inputPath - 3) inputPath ++ js ".html"
  else inputPath.

Section Run.

Variable Err : Type.
Variables resolve dirname basename : jsstring -> jsstring.
(** [basename(path, ext)]. *)
Variable basenameWithout : jsstring -> jsstring -> jsstring.
Variables join relative : jsstring -> jsstring -> jsstring.
Variable readFile : jsstring -> Err + jsstring.
Variable access : jsstring -> Err + unit.
Variable RenderOptions : Type.
Variable compile : Record_ -> jsstring -> Err + (Diagram * RenderOptions).
Variable render : Diagram -> RenderOptions -> jsstring -> Err + jsstring.
Variable writeFails : jsstring -> jsstring -> option Err.

(** [values.output ? resolve(values.output) : ...]. *)
Definition outputPathOf (output : option jsstring) (inputPath : jsstring)
  : jsstring :=
  match output with
  | Some ((_ :: _) as o) => resolve o
  | _ => replaceD2Suffix inputPath
  end.

(** [values.title ?? basename(inputPath, ".d2")]. *)
Definition titleOf (title : option jsstring) (inputPath : jsstring)
  : jsstring :=
  match title with
  | Some t => t
  | None => basenameWithout inputPath (js ".d2")
  end.

(** The script for a first positional argument and the [--output] and
    [--title] options: the three constants, then [main()]. *)
Definition prerender (positional : jsstring) (output title : option jsstring)
  (depth : nat) (w : World Err) : option (Completion Err unit * World Err) :=
  let inputPath := resolve positional in
  main resolve dirname basename join relative readFile access
       compile render writeFails
       inputPath (outputPathOf output inputPath) (titleOf title inputPath)
       depth w.

End Run.

End Script.
Import Script.

(* ================================================================== *)
(** ** src/vite.config.ts, second file: the prerender script that calls
       the d2 command *)
(* ================================================================== *)

Module CliPrerender.

(** [buildLayerTree]. *)
Definition pushTarget (nodes : list LayerNode) (target : jsstring)
  : list LayerNode :=
  match splitOn 46%N target with
  | ty :: nm :: _ =>
      let nodeType :=
        if str_eqb ty (js "layers") then layer
        else if str_eqb ty (js "scenarios") then scenario
        else step in
      nodes ++ [mkNode nm target nodeType None []]
  | _ => nodes
  end.

Definition buildLayerTree (targets : list jsstring) : list LayerNode :=
  fold_left pushTarget targets [].

End CliPrerender.
Import CliPrerender.

(* ================================================================== *)
(** ** src/vite-plugin-d2.ts (in src/embed-viewer.tsx): loading a file
       with its imports for the live viewer *)
(* ================================================================== *)

Module WatchPlugin.

(** The class [[\w\-\/\.]]. *)
Definition isPathChar (c : N) : bool :=
  ((48 <=? c) && (c <=? 57) || (65 <=? c) && (c <=? 90)
   || (97 <=? c) && (c <=? 122) || (c =? 95) || (c =? 45) || (c =? 47)
   || (c =? 46))%N.

(** Where the import pattern can match: the length of [...@], or of [:],
    white space and [@], when a path character follows. *)
Definition prefixLength (s : jsstring) : option nat :=
  if startsWith s (js "...@") then
    match skipn 4 s with
    | p :: _ => if isPathChar p then Some 4 else None
    | [] => None
    end
  else
    match s with
    | c :: r =>
        if N.eqb c 58 then
          match dropWhile isWhiteSpace r with
          | a :: p :: _ =>
              if N.eqb a at_sign && isPathChar p
              then Some (2 + List.length (takeWhile isWhiteSpace r))
              else None
          | _ => None
          end
        else None
    | [] => None
    end.

Inductive ScanState :=
| Idle
| Skip (n : nat)
| Capture (text : jsstring).

(** The groups of the successive matches of the import pattern.  [Skip n]
    passes the [n] code units that are left of the prefix of a match; a
    code unit that ends a group may start the next match. *)
Fixpoint scanD2Imports (st : ScanState) (s : jsstring) : list jsstring :=
  match s with
  | [] => match st with Capture text => [text] | _ => [] end
  | c :: s' =>
      let idle :=
        match prefixLength s with
        | Some (S k) => scanD2Imports (Skip k) s'
        | _ => scanD2Imports Idle s'
        end in
      let capture text :=
        if isPathChar c then scanD2Imports (Capture (text ++ [c])) s'
        else text :: idle in
      match st with
      | Idle => idle
      | Skip (S n) => scanD2Imports (Skip n) s'
      | Skip O => capture []
      | Capture text => capture text
      end
  end.

Definition withD2Extension (importPath : jsstring) : jsstring :=
  if endsWith importPath (js ".d2") then importPath
  else importPath ++ js ".d2".

Definition parseD2Imports (content : jsstring) : list jsstring :=
  List.map withD2Extension (scanD2Imports Idle content).

(** An entry of the queue. *)
Record Item := mkItem {
  item_path : jsstring;
  item_alternatives : option (list jsstring)
}.

Section Load.

Variable Err : Type.
(** [resolve(watchDir, path)], [dirname], [join] and [readFile]. *)
Variable resolve2 : jsstring -> jsstring -> jsstring.
Variable dirname : jsstring -> jsstring.
Variable join : jsstring -> jsstring -> jsstring.
Variable readFile : jsstring -> Err + jsstring.
Variable watchDir : jsstring.

Record LoadState := mkLoadState {
  load_fs : Record_;
  load_queue : list Item;
  load_seen : list jsstring;
  load_failed : list jsstring
}.

Definition member (set : list jsstring) (x : jsstring) : bool :=
  existsb (str_eqb x) set.

(** The path an import is first looked for at: relative to the directory
    of the importing file. *)
Definition resolvedImportOf (normalizedPath importPath : jsstring)
  : jsstring :=
  let currentDir := dirname normalizedPath in
  if str_eqb currentDir (js ".") then importPath
  else replaceAll 92%N (js "/") (join currentDir importPath).

(** The body of the loop over the imports of a file. *)
Definition queueImport (normalizedPath : jsstring)
  (seen failed : list jsstring) (queue : list Item) (importPath : jsstring)
  : list Item :=
  let resolvedImport := resolvedImportOf normalizedPath importPath in
  if negb (member seen resolvedImport) && negb (member failed resolvedImport)
  then
    let alternatives :=
      if str_eqb resolvedImport importPath then None
      else Some [importPath] in
    queue ++ [mkItem resolvedImport alternatives]
  else queue.

(** One turn of the [while] loop, for the item taken off the queue. *)
Definition loadStep (item : Item) (st : LoadState) : LoadState :=
  let normalizedPath :=
    if startsWith (item_path item) (js "/") then skipn 1 (item_path item)
    else item_path item in
  if member (load_seen st) normalizedPath
     || member (load_failed st) normalizedPath
  then st
  else
    match readFile (resolve2 watchDir normalizedPath) with
    | inr content =>
        let fs := setProperty (load_fs st) normalizedPath content in
        let seen := load_seen st ++ [normalizedPath] in
        let queue :=
          fold_left (queueImport normalizedPath seen (load_failed st))
                    (parseD2Imports content) (load_queue st) in
        mkLoadState fs queue seen (load_failed st)
    | inl _ =>
        let failed := load_failed st ++ [normalizedPath] in
        let queue :=
          match item_alternatives item with
          | Some (next :: rest) => mkItem next (Some rest) :: load_queue st
          | _ => load_queue st
          end in
        mkLoadState (load_fs st) queue (load_seen st) failed
    end.

(** The [while] loop; [None] when the turns allowed are used up. *)
Fixpoint loadLoop (turns : nat) (st : LoadState) : option LoadState :=
  match load_queue st with
  | [] => Some st
  | item :: queue =>
      match turns with
      | O => None
      | S turns' =>
          loadLoop turns'
            (loadStep item
               (mkLoadState (load_fs st) queue (load_seen st) (load_failed st)))
      end
  end.

Definition loadFileWithImports (turns : nat) (entryPath : jsstring)
  : option Record_ :=
  option_map load_fs
    (loadLoop turns (mkLoadState [] [mkItem entryPath None] [] [])).

End Load.

End WatchPlugin.
Import WatchPlugin.

(* ================================================================== *)
(** ** Further notions the properties are stated with *)
(* ================================================================== *)

Module SpecMore.

(** The boards below a board that are not null, at every depth. *)
Fixpoint boardCount (d : Diagram) : nat :=
  match d with
  | mkDiagram _ _ layers scenarios steps =>
      let count :=
        fun l => list_sum (List.map (fun e => match e with
                                              | Some b => S (boardCount b)
                                              | None => 0
                                              end) l) in
      count layers + count scenarios + count steps
  end.

Definition keywordOf (t : NodeType) : jsstring :=
  match t with
  | layer => js "layers"
  | scenario => js "scenarios"
  | step => js "steps"
  end.

(** A node whose path is [parent], a dot and its name, whose title is not
    the empty string, and whose descendants are so below its own path. *)
Fixpoint followsPathScheme (parent : jsstring) (n : LayerNode) : bool :=
  str_eqb (path n) (parent ++ js "." ++ name n)
  && match title n with Some [] => false | _ => true end
  && forallb (followsPathScheme (path n)) (children n).

(** A root-level node: its parent segment is the keyword of its kind. *)
Definition rootFollowsPathScheme (n : LayerNode) : bool :=
  followsPathScheme (keywordOf (type n)) n.

(** A shape of the reserved configuration name space. *)
Definition isConfigShape (s : Shape) : bool :=
  str_eqb (shape_id s) (js "d2-config")
  || startsWith (shape_id s) (js "d2-config.").

Definition hasDot (s : jsstring) : bool := existsb (N.eqb dot) s.

(** The paths the console reports as unreadable, in order. *)
Definition couldNotRead (Err : Type) (console : list (Message Err))
  : list jsstring :=
  flat_map (fun m => match m with
                     | WarnCouldNotRead p => [p]
                     | _ => []
                     end) console.

(** A reference found in a text: it follows an [@], is not empty, is made
    of reference characters, and ends where the text or the run of
    reference characters ends. *)
Definition isReferenceOf (content ref : jsstring) : Prop :=
  ref <> []
  /\ forallb isRefChar ref = true
  /\ exists before after,
       content = before ++ at_sign :: ref ++ after
       /\ match after with
          | [] => True
          | c :: _ => isRefChar c = false
          end.

End SpecMore.
Import SpecMore.

Module MoreExamples.

(** The entry file is not on the disk. *)
Definition emptyDisk : PosixPath.Disk := [].

(** Two files that import each other. *)
Definition cycleDisk : PosixPath.Disk :=
  [(js "/p/a.d2", js "...@b"); (js "/p/b.d2", js "...@a")].

(** A renderer that always succeeds. *)
Definition constantRender (d : Diagram) (ro : unit) (target : jsstring)
  : Examples.RunError + jsstring :=
  inr Examples.viewBoxSvg.

(** [basename(path, ext)] for a path with a directory part: the last
    segment, without [ext] when it ends with it and is longer. *)
Definition basenameWithout (p ext : jsstring) : jsstring :=
  let b := PosixPath.basename p in
  if endsWith b ext && (List.length ext <? List.length b)
  then firstn (List.length b - List.length ext) b
  else b.

(** The script run on a disk, with the example compiler and renderer. *)
Definition prerenderOn (d : PosixPath.Disk)
  (compile : Record_ -> jsstring -> Examples.RunError + (Diagram * unit))
  (render : Diagram -> unit -> jsstring -> Examples.RunError + jsstring) :=
  prerender (PosixPath.resolve Examples.root) PosixPath.dirname
            PosixPath.basename basenameWithout
            PosixPath.join (PosixPath.relative Examples.root)
            (Examples.readFileOn d) (Examples.accessOn d)
            compile render (fun _ _ => @None Examples.RunError).

(** The world a run ends in. *)
Definition worldAfter
  (r : option (Completion Examples.RunError unit * World Examples.RunError))
  : World Examples.RunError :=
  match r with
  | Some (_, w) => w
  | None => mkWorld [] []
  end.

(** A disk with a directory: a directory can be accessed, not read. *)
Definition accessWithDirectories (dirs : list jsstring) (d : PosixPath.Disk)
  (p : jsstring) : Examples.RunError + unit :=
  if existsb (str_eqb p) dirs then inr tt else Examples.accessOn d p.

(** The entry imports the directory [sub] twice. *)
Definition directoryDisk : PosixPath.Disk :=
  [(js "/p/a.d2", js "...@sub
...@sub")].

(** A diagram kept in a file without the [.d2] extension. *)
Definition textDisk : PosixPath.Disk := [(js "/p/diagram.txt", js "a -> b")].

(** The watch directory of the live viewer: the entry imports a file of a
    subdirectory, which imports [lib/x], found under the watch directory
    only. *)
Definition watchDisk : PosixPath.Disk :=
  [(js "/w/sub/a.d2", js "x: @lib/x");
   (js "/w/lib/x.d2", js "shape")].

(** The entry of the watch directory imports a file of the directory
    above it. *)
Definition escapeDisk : PosixPath.Disk :=
  [(js "/w/a.d2", js "...@../secret"); (js "/secret.d2", js "top")].

Definition loadOn (d : PosixPath.Disk) :=
  loadFileWithImports (fun dir p => PosixPath.resolve dir p)
                      PosixPath.dirname PosixPath.join
                      (PosixPath.readFile d) (js "/w").

End MoreExamples.

(* ================================================================== *)
(** ** Induction over the two tree types *)
(* ================================================================== *)

Lemma LayerNode_tree_ind (P : LayerNode -> Prop) :
  (forall n, Forall P (children n) -> P n) -> forall n, P n.
Proof.
  intros step. fix IH 1. intros [nm p ty ti kids].
  apply step. simpl. induction kids as [|k kids IHk]; constructor.
  - apply IH.
  - exact IHk.
Qed.

Definition onBoard (P : Diagram -> Prop) (e : option Diagram) : Prop :=
  match e with Some b => P b | None => True end.

Lemma Diagram_tree_ind (P : Diagram -> Prop) :
  (forall nm sh ls ss ts,
      Forall (onBoard P) ls -> Forall (onBoard P) ss ->
      Forall (onBoard P) ts -> P (mkDiagram nm sh ls ss ts)) ->
  forall d, P d.
Proof.
  intros step. fix IH 1. intros [nm sh ls ss ts].
  assert (every : forall l, Forall (onBoard P) l).
  { induction l as [|[b|] l IHl]; constructor; simpl; auto. }
  apply step; apply every.
Qed.

Lemma onBoard_present (P : Diagram -> Prop) l :
  Forall (onBoard P) l -> Forall P (present l).
Proof.
  induction 1 as [|[b|] l Hb _ IH]; simpl; auto.
Qed.

(* ================================================================== *)
(** ** flattenTargets *)
(* ================================================================== *)

Lemma traverseNode_preorder n :
  forall targets, traverseNode n targets = targets ++ preorder n.
Proof.
  induction n as [n IHn] using LayerNode_tree_ind. intros targets.
  destruct n as [nm p ty ti kids]; simpl in *.
  replace (targets ++ p :: flat_map preorder kids)
    with ((targets ++ [p]) ++ flat_map preorder kids)
    by (now rewrite <- app_assoc).
  generalize (targets ++ [p]) as acc.
  induction IHn as [|k kids Hk _ IHkids]; intros acc; simpl.
  - now rewrite app_nil_r.
  - rewrite Hk, IHkids. now rewrite app_assoc.
Qed.

Lemma traverse_preorder forest :
  forall targets, traverse forest targets = targets ++ preorderForest forest.
Proof.
  unfold traverse, preorderForest.
  induction forest as [|n forest IHf]; intros targets; simpl.
  - now rewrite app_nil_r.
  - rewrite IHf, traverseNode_preorder. now rewrite app_assoc.
Qed.

Lemma flattenTargets_preorder forest :
  flattenTargets forest = preorderForest forest.
Proof. unfold flattenTargets. now rewrite traverse_preorder. Qed.

Lemma flattenTargets_cons n rest :
  flattenTargets (n :: rest)
  = path n :: flattenTargets (children n) ++ flattenTargets rest.
Proof.
  rewrite !flattenTargets_preorder. unfold preorderForest. simpl.
  destruct n; reflexivity.
Qed.

Lemma flattenTargets_app f g :
  flattenTargets (f ++ g) = flattenTargets f ++ flattenTargets g.
Proof.
  rewrite !flattenTargets_preorder. apply flat_map_app.
Qed.

Lemma preorder_length n : List.length (preorder n) = nodeCount n.
Proof.
  induction n as [n IHn] using LayerNode_tree_ind.
  destruct n as [nm p ty ti kids]; simpl in *. f_equal.
  induction IHn as [|k kids Hk _ IHkids]; simpl; auto.
  rewrite length_app. congruence.
Qed.

Lemma occurs_split n forest :
  occurs n forest ->
  exists before after,
    flattenTargets forest
    = before ++ path n :: flattenTargets (children n) ++ after.
Proof.
  revert n.
  assert (main : forall m, Forall (fun k => forall n rest,
              (n = k \/ occurs n (children k)) ->
              exists before after, flattenTargets (k :: rest)
                = before ++ path n :: flattenTargets (children n) ++ after)
            [m]).
  { intros m. constructor; [|constructor].
    induction m as [m IHm] using LayerNode_tree_ind.
    intros n rest [->|Hin].
    - exists [], (flattenTargets rest). apply flattenTargets_cons.
    - rewrite flattenTargets_cons.
      assert (sub : exists before after, flattenTargets (children m)
                = before ++ path n :: flattenTargets (children n) ++ after).
      { clear rest. induction Hin as [rest|k rest Hk _|k rest Hk IH].
        - inversion IHm as [|? ? Hn _]; subst. apply Hn. now left.
        - inversion IHm as [|? ? Hn _]; subst. apply Hn. now right.
        - inversion IHm as [|? ? _ Hrest]; subst.
          destruct (IH Hrest) as (b & a & E).
          rewrite flattenTargets_cons, E.
          exists (path k :: flattenTargets (children k) ++ b), a.
          simpl. rewrite <- !app_assoc. reflexivity. }
      destruct sub as (b & a & E). rewrite E.
      exists (path m :: b), (a ++ flattenTargets rest).
      simpl. rewrite <- !app_assoc. simpl. rewrite <- !app_assoc. reflexivity. }
  intros n Hocc.
  induction Hocc as [rest|m rest Hm _|m rest Hm IH].
  - specialize (main n). inversion main as [|? ? H _]; subst.
    apply H. now left.
  - specialize (main m). inversion main as [|? ? H _]; subst.
    apply H. now right.
  - destruct IH as (b & a & E). rewrite flattenTargets_cons, E.
    exists (path m :: flattenTargets (children m) ++ b), a.
    simpl. rewrite <- !app_assoc. reflexivity.
Qed.

(** C3.  [flattenTargets] lists the paths of a forest in depth-first
    pre-order: it agrees with the directly written pre-order traversal,
    has one element for each node, puts a node's path first and its
    subtree right after it, and so places every node of the forest
    immediately before the paths of its descendants. *)
Theorem flattenTargets_is_preorder (forest : list LayerNode) :
  flattenTargets forest = preorderForest forest
  /\ List.length (flattenTargets forest) = forestCount forest
  /\ (forall n rest, forest = n :: rest ->
        flattenTargets forest
        = path n :: flattenTargets (children n) ++ flattenTargets rest)
  /\ (forall n, occurs n forest ->
        exists before after,
          flattenTargets forest
          = before ++ path n :: flattenTargets (children n) ++ after).
Proof.
  split; [apply flattenTargets_preorder|].
  split.
  - rewrite flattenTargets_preorder. unfold preorderForest, forestCount.
    induction forest as [|n forest IH]; simpl; auto.
    rewrite length_app, preorder_length. congruence.
  - split.
    + intros n rest ->. apply flattenTargets_cons.
    + intros n. apply occurs_split.
Qed.

Lemma flattenTargets_is_preorder_witness :
  let forest := extractLayers Examples.mixedDiagram [] in
  let inner := mkNode (js "in") (js "layers.l1.in") layer None [] in
  exists before after,
    flattenTargets forest
    = before ++ path inner :: flattenTargets (children inner) ++ after.
Proof.
  intros forest inner.
  apply (proj2 (proj2 (proj2 (flattenTargets_is_preorder forest)))).
  apply occurs_below. apply occurs_here.
Defined.

(* ================================================================== *)
(** ** extractLayers *)
(* ================================================================== *)

Lemma fold_pushBoard keyword ty parentPath l :
  forall nodes,
    fold_left (pushBoard extractLayers keyword ty parentPath) l nodes
    = nodes ++ List.map (boardNode keyword ty parentPath) (present l).
Proof.
  induction l as [|[b|] l IH]; intros nodes; simpl.
  - now rewrite app_nil_r.
  - rewrite IH, <- app_assoc. reflexivity.
  - apply IH.
Qed.

Lemma extractLayers_eq d parentPath :
  extractLayers d parentPath
  = List.map (boardNode (js "layers") layer parentPath) (present (d_layers d))
    ++ List.map (boardNode (js "scenarios") scenario parentPath)
                (present (d_scenarios d))
    ++ List.map (boardNode (js "steps") step parentPath) (present (d_steps d)).
Proof.
  destruct d as [nm sh ls ss ts]. cbn [extractLayers d_layers d_scenarios d_steps].
  rewrite !fold_pushBoard. simpl. now rewrite app_assoc.
Qed.

Lemma present_In b l : In b (present l) <-> In (Some b) l.
Proof.
  induction l as [|[c|] l IH]; simpl; try tauto.
  - rewrite IH. split; intros [H|H]; auto; left; congruence.
  - rewrite IH. split; [auto|]. intros [H|H]; [discriminate|auto].
Qed.

Lemma occurs_app n f g : occurs n (f ++ g) -> occurs n f \/ occurs n g.
Proof.
  induction f as [|m f IH]; simpl; intros H; [now right|].
  inversion H; subst.
  - left. constructor.
  - left. now apply occurs_below.
  - destruct (IH H1); [left; now apply occurs_later | now right].
Qed.

Lemma occurs_map_boardNode keyword ty parentPath n bs :
  occurs n (List.map (boardNode keyword ty parentPath) bs) ->
  exists b, In b bs
            /\ (n = boardNode keyword ty parentPath b
                \/ occurs n (extractLayers b (nodePath keyword parentPath (d_name b)))).
Proof.
  induction bs as [|b bs IH]; simpl; intros H; inversion H; subst.
  - exists b. auto.
  - exists b. auto.
  - destruct (IH H1) as (b' & Hin & Hb'). exists b'. auto.
Qed.

Lemma extractLayers_types d parentPath :
  List.map type (extractLayers d parentPath)
  = repeat layer (List.length (present (d_layers d)))
    ++ repeat scenario (List.length (present (d_scenarios d)))
    ++ repeat step (List.length (present (d_steps d))).
Proof.
  rewrite extractLayers_eq, !map_app, !map_map. simpl.
  assert (const : forall (ty : NodeType) (bs : list Diagram),
             List.map (fun _ => ty) bs = repeat ty (List.length bs)).
  { intros ty bs. induction bs; simpl; congruence. }
  now rewrite !const.
Qed.

Lemma mirrors_boardNodes keyword ty parentPath bs :
  Forall (fun b => forall p,
            Forall2 mirrors (boardsByKind b) (extractLayers b p)) bs ->
  Forall2 mirrors (List.map (pair ty) bs)
          (List.map (boardNode keyword ty parentPath) bs).
Proof.
  induction 1 as [|b bs Hb _ IH]; simpl; constructor; [|exact IH].
  constructor; [reflexivity|reflexivity|]. apply Hb.
Qed.

Lemma extractLayers_mirrors d :
  forall parentPath,
    Forall2 mirrors (boardsByKind d) (extractLayers d parentPath).
Proof.
  induction d as [nm sh ls ss ts Hls Hss Hts] using Diagram_tree_ind.
  intros parentPath. rewrite extractLayers_eq. unfold boardsByKind. simpl.
  repeat apply Forall2_app;
    apply mirrors_boardNodes; now apply onBoard_present.
Qed.

Lemma occurs_extractLayers_board d :
  forall parentPath n,
    occurs n (extractLayers d parentPath) ->
    exists b, boardOf d b
              /\ name n = d_name b
              /\ children n = extractLayers b (path n).
Proof.
  induction d as [nm sh ls ss ts Hls Hss Hts] using Diagram_tree_ind.
  intros parentPath n. rewrite extractLayers_eq. simpl.
  set (d := mkDiagram nm sh ls ss ts).
  intros H.
  assert (one : forall keyword ty l,
             incl (List.map (pair ty) (present l)) (boardsByKind d) ->
             Forall (onBoard (fun b => forall parentPath n,
                 occurs n (extractLayers b parentPath) ->
                 exists b', boardOf b b'
                            /\ name n = d_name b'
                            /\ children n = extractLayers b' (path n))) l ->
             occurs n (List.map (boardNode keyword ty parentPath) (present l)) ->
             exists b, boardOf d b
                       /\ name n = d_name b
                       /\ children n = extractLayers b (path n)).
  { intros keyword ty l Hincl Hl Hocc.
    apply occurs_map_boardNode in Hocc.
    destruct Hocc as (b & Hin & [->|Hsub]).
    - exists b. split; [|split; reflexivity].
      apply boardOf_child with (ty := ty). apply Hincl. now apply in_map.
    - apply onBoard_present in Hl. rewrite Forall_forall in Hl.
      destruct (Hl b Hin _ _ Hsub) as (b' & Hb' & Hname & Hkids).
      exists b'. split; [|now split].
      apply boardOf_deeper with (ty := ty) (c := b); [|exact Hb'].
      apply Hincl. now apply in_map. }
  apply occurs_app in H. destruct H as [H|H].
  { apply (one _ _ _ (incl_appl _ (incl_refl _)) Hls H). }
  apply occurs_app in H. destruct H as [H|H].
  - apply (one _ _ _ (incl_appr _ (incl_appl _ (incl_refl _))) Hss H).
  - apply (one _ _ _ (incl_appr _ (incl_appr _ (incl_refl _))) Hts H).
Qed.

Lemma extractLayers_names d parentPath :
  List.map name (extractLayers d parentPath)
  = presentNames (d_layers d) ++ presentNames (d_scenarios d)
                              ++ presentNames (d_steps d).
Proof. rewrite extractLayers_eq, !map_app, !map_map. reflexivity. Qed.

(** C10.  At every level [extractLayers] emits the children grouped by
    kind, whatever the order of declaration.  At the root the nodes are
    those of the boards in [layers] that are not null, in the compiler's
    order, then those of [scenarios], then those of [steps].  So at every
    depth: each node stands for its board, with the board's name, and
    its children stand one by one for the boards of that board in the
    same order; every node of the tree has the name of a board below the
    root, and its children are the nodes of the layers, then the
    scenarios, then the steps of that board, built below the path of the
    node. *)
Theorem extractLayers_grouped_by_kind (d : Diagram) (parentPath : jsstring) :
  List.map type (extractLayers d parentPath)
  = repeat layer (List.length (present (d_layers d)))
    ++ repeat scenario (List.length (present (d_scenarios d)))
    ++ repeat step (List.length (present (d_steps d)))
  /\ List.map name (extractLayers d parentPath)
     = presentNames (d_layers d) ++ presentNames (d_scenarios d)
                                 ++ presentNames (d_steps d)
  /\ Forall2 mirrors (boardsByKind d) (extractLayers d parentPath)
  /\ (forall n, occurs n (extractLayers d parentPath) ->
        groupedByKind (children n)
        /\ exists b,
             boardOf d b
             /\ name n = d_name b
             /\ children n = extractLayers b (path n)
             /\ List.map type (children n)
                = repeat layer (List.length (present (d_layers b)))
                  ++ repeat scenario (List.length (present (d_scenarios b)))
                  ++ repeat step (List.length (present (d_steps b)))
             /\ List.map name (children n)
                = presentNames (d_layers b) ++ presentNames (d_scenarios b)
                                            ++ presentNames (d_steps b)).
Proof.
  split; [apply extractLayers_types|].
  split; [apply extractLayers_names|].
  split; [apply extractLayers_mirrors|].
  intros n H. apply occurs_extractLayers_board in H.
  destruct H as (b & Hb & Hname & Hkids). split.
  - unfold groupedByKind. rewrite Hkids, extractLayers_types. eauto.
  - exists b. split; [exact Hb|]. split; [exact Hname|].
    split; [exact Hkids|]. rewrite Hkids.
    split; [apply extractLayers_types|apply extractLayers_names].
Qed.

Lemma extractLayers_grouped_by_kind_witness :
  let l1 := Examples.board "l1" [Some (Examples.board "in" [] [] [])] []
                           [Some (Examples.board "s" [] [] [])] in
  let n := boardNode (js "layers") layer [] l1 in
  groupedByKind (children n)
  /\ exists b,
       boardOf Examples.mixedDiagram b
       /\ name n = d_name b
       /\ children n = extractLayers b (path n)
       /\ List.map type (children n)
          = repeat layer (List.length (present (d_layers b)))
            ++ repeat scenario (List.length (present (d_scenarios b)))
            ++ repeat step (List.length (present (d_steps b)))
       /\ List.map name (children n)
          = presentNames (d_layers b) ++ presentNames (d_scenarios b)
                                      ++ presentNames (d_steps b).
Proof.
  intros l1 n.
  apply (proj2 (proj2 (proj2 (extractLayers_grouped_by_kind
                                Examples.mixedDiagram [])))).
  apply occurs_here.
Defined.

Lemma In_boardNode keyword ty parentPath b l :
  In (Some b) l ->
  In (boardNode keyword ty parentPath b)
     (List.map (boardNode keyword ty parentPath) (present l)).
Proof. intros H. apply in_map. now apply present_In. Qed.

(** C1 (as the code has it).  For a diagram with a root-level layer
    named auth that has a scenario named timeout, [extractLayers] gives
    the layer's node the path layers.auth and the scenario's node, among
    that node's children, the path layers.auth.timeout: the parent path
    and the name joined by a dot, the collection keyword being a segment
    of root-level paths only. *)
Theorem extractLayers_auth_timeout (d auth timeout : Diagram) :
  In (Some auth) (d_layers d) -> d_name auth = js "auth" ->
  In (Some timeout) (d_scenarios auth) -> d_name timeout = js "timeout" ->
  exists n c,
    In n (extractLayers d []) /\ name n = js "auth" /\ type n = layer
    /\ path n = js "layers.auth"
    /\ In c (children n) /\ name c = js "timeout" /\ type c = scenario
    /\ path c = js "layers.auth.timeout".
Proof.
  intros Hauth Na Htimeout Nt.
  exists (boardNode (js "layers") layer [] auth),
         (boardNode (js "scenarios") scenario (js "layers.auth") timeout).
  repeat split.
  - rewrite extractLayers_eq. apply in_or_app. left. now apply In_boardNode.
  - exact Na.
  - simpl. now rewrite Na.
  - simpl. rewrite Na. change (nodePath (js "layers") [] (js "auth")) with (js "layers.auth").
    rewrite extractLayers_eq. apply in_or_app. right. apply in_or_app. left.
    now apply In_boardNode.
  - exact Nt.
  - simpl. now rewrite Nt.
Qed.

Lemma extractLayers_auth_timeout_witness :
  exists n c,
    In n (extractLayers Examples.authDiagram []) /\ name n = js "auth"
    /\ type n = layer /\ path n = js "layers.auth"
    /\ In c (children n) /\ name c = js "timeout" /\ type c = scenario
    /\ path c = js "layers.auth.timeout".
Proof.
  apply (@extractLayers_auth_timeout Examples.authDiagram
           (Examples.board "auth" [] [Some (Examples.board "timeout" [] [] [])] [])
           (Examples.board "timeout" [] [] [])).
  - simpl. left. reflexivity.
  - reflexivity.
  - simpl. left. reflexivity.
  - reflexivity.
Defined.

Lemma extractLayers_auth_timeout_counterexample :
  flattenTargets (extractLayers Examples.authDiagram [])
  = [js "layers.auth"; js "layers.auth.timeout"]
  /\ ~ In (js "layers.auth.scenarios.timeout")
          (flattenTargets (extractLayers Examples.authDiagram [])).
Proof.
  split; [reflexivity|].
  intros H. vm_compute in H. 
  destruct H as [H|[H|[]]]; discriminate H.
Qed.

(* ================================================================== *)
(** ** Uniqueness of paths *)
(* ================================================================== *)

Lemma str_eqb_eq a b : str_eqb a b = true <-> a = b.
Proof.
  revert b. induction a as [|x a IH]; intros [|y b]; simpl;
    try (split; [discriminate|discriminate]); try tauto.
  rewrite andb_true_iff, N.eqb_eq, IH. split.
  - intros [-> ->]. reflexivity.
  - intros E. injection E. auto.
Qed.

Lemma str_eqb_refl a : str_eqb a a = true.
Proof. now apply str_eqb_eq. Qed.

Lemma distinct_NoDup l : distinct l = true -> NoDup l.
Proof.
  induction l as [|x l IH]; simpl; intros H; constructor.
  - apply andb_true_iff in H. destruct H as [H _].
    intros Hin. apply negb_true_iff in H.
    assert (existsb (str_eqb x) l = true); [|congruence].
    apply existsb_exists. exists x. split; [exact Hin|apply str_eqb_refl].
  - apply IH. apply andb_true_iff in H. tauto.
Qed.

Lemma noDot_In s : noDot s = true -> ~ In dot s.
Proof.
  unfold noDot. intros H Hin. apply negb_true_iff in H.
  assert (existsb (N.eqb dot) s = true); [|congruence].
  apply existsb_exists. exists dot. split; [exact Hin|apply N.eqb_refl].
Qed.

(** A tail is empty or starts with a dot. *)
Definition dotTail (t : jsstring) : Prop := t = [] \/ exists r, t = dot :: r.

Lemma name_tail_inj nm : forall nm' t t',
  nm ++ t = nm' ++ t' -> ~ In dot nm -> ~ In dot nm' ->
  dotTail t -> dotTail t' -> nm = nm'.
Proof.
  induction nm as [|c nm IH]; intros [|c' nm'] t t' E Hn Hn' Ht Ht'; simpl in *.
  - reflexivity.
  - exfalso. destruct Ht as [->|[r ->]]; [discriminate|].
    injection E as <- _. apply Hn'. now left.
  - exfalso. destruct Ht' as [->|[r ->]]; [discriminate|].
    injection E as -> _. apply Hn. now left.
  - injection E as -> E. f_equal. apply (IH nm' t t'); auto.
Qed.

Lemma dot_join_inj a : forall b x y,
  a ++ dot :: x = b ++ dot :: y -> ~ In dot a -> ~ In dot b -> a = b.
Proof.
  intros b x y E Ha Hb.
  apply (@name_tail_inj a b (dot :: x) (dot :: y)); auto;
    right; eexists; reflexivity.
Qed.

Lemma nodePath_kidPath keyword parentPath b :
  nodePath keyword parentPath (d_name b)
  = kidPath (leading keyword parentPath, b).
Proof. destruct parentPath; reflexivity. Qed.

Lemma preorder_extractLayers d parentPath :
  preorderForest (extractLayers d parentPath) = pathsOf (kidsOf d parentPath).
Proof.
  rewrite extractLayers_eq. unfold preorderForest, pathsOf, kidsOf.
  rewrite !flat_map_app.
  assert (one : forall keyword ty bs,
             flat_map preorder (List.map (boardNode keyword ty parentPath) bs)
             = flat_map (fun kid => kidPath kid
                   :: preorderForest (extractLayers (snd kid) (kidPath kid)))
                 (List.map (pair (leading keyword parentPath)) bs)).
  { intros keyword ty bs. induction bs as [|b bs IH]; simpl; [reflexivity|].
    now rewrite IH, nodePath_kidPath. }
  now rewrite !one.
Qed.

(** Every path below a board extends the board's path by a dot and more. *)
Lemma below_extends d :
  forall q x, In x (preorderForest (extractLayers d q)) -> q <> [] ->
              exists r, x = q ++ dot :: r.
Proof.
  induction d as [nm sh ls ss ts Hls Hss Hts] using Diagram_tree_ind.
  intros q x Hin Hq. rewrite preorder_extractLayers in Hin.
  unfold pathsOf in Hin. apply in_flat_map in Hin.
  destruct Hin as ([pre b] & Hkid & Hx).
  assert (Hpre : pre = q /\ (In b (present ls) \/ In b (present ss) \/ In b (present ts))).
  { unfold kidsOf in Hkid. simpl in Hkid.
    rewrite !in_app_iff, !in_map_iff in Hkid.
    destruct q as [|c q]; [congruence|]. simpl in Hkid.
    destruct Hkid as [(b' & E & H)|[(b' & E & H)|(b' & E & H)]];
      injection E as <- <-; auto. }
  destruct Hpre as [-> Hb].
  unfold kidPath in Hx. simpl in Hx. destruct Hx as [<-|Hx].
  - eexists. reflexivity.
  - assert (IH : forall q x, In x (preorderForest (extractLayers b q)) ->
                             q <> [] -> exists r, x = q ++ dot :: r).
    { apply onBoard_present in Hls, Hss, Hts. rewrite Forall_forall in Hls, Hss, Hts.
      destruct Hb as [H|[H|H]];
        [apply (Hls _ H) | apply (Hss _ H) | apply (Hts _ H)]. }
    destruct (IH _ _ Hx) as (r & ->).
    + destruct q; discriminate.
    + exists (d_name b ++ dot :: r). now rewrite <- app_assoc.
Qed.

Lemma kid_paths_shape kid x :
  In x (kidPath kid :: preorderForest (extractLayers (snd kid) (kidPath kid))) ->
  exists t, x = fst kid ++ dot :: d_name (snd kid) ++ t /\ dotTail t.
Proof.
  intros [<-|Hin].
  - exists []. rewrite app_nil_r. split; [reflexivity|now left].
  - apply below_extends in Hin.
    + destruct Hin as (r & ->). exists (dot :: r). unfold kidPath.
      rewrite <- app_assoc. simpl. split; [reflexivity|right; eauto].
    + unfold kidPath. destruct (fst kid); discriminate.
Qed.

Lemma pathsOf_NoDup kids :
  (forall kid, In kid kids ->
      NoDup (preorderForest (extractLayers (snd kid) (kidPath kid)))) ->
  (forall kid, In kid kids -> ~ In dot (d_name (snd kid))) ->
  NoDup (List.map kidKey kids) ->
  (forall kid kid', In kid kids -> In kid' kids ->
      fst kid = fst kid' \/ (~ In dot (fst kid) /\ ~ In dot (fst kid'))) ->
  NoDup (pathsOf kids).
Proof.
  induction kids as [|kid kids IH]; intros Hsub Hname Hkeys Hlead; simpl.
  - constructor.
  - inversion Hkeys as [|? ? Hfresh Hkeys']; subst.
    change (NoDup ((kidPath kid
                    :: preorderForest (extractLayers (snd kid) (kidPath kid)))
                   ++ pathsOf kids)).
    apply NoDup_app.
    + constructor; [|apply Hsub; now left].
      intros Hin. apply below_extends in Hin.
      * destruct Hin as (r & E).
        apply (f_equal (@List.length N)) in E. rewrite length_app in E.
        simpl in E. lia.
      * unfold kidPath. destruct (fst kid); discriminate.
    + apply IH; auto.
      * intros k Hk. apply Hsub. now right.
      * intros k Hk. apply Hname. now right.
      * intros k k' Hk Hk'. apply Hlead; now right.
    + intros x Hx Hx'.
      apply kid_paths_shape in Hx. destruct Hx as (t & Ex & Ht).
      unfold pathsOf in Hx'. apply in_flat_map in Hx'.
      destruct Hx' as (kid' & Hkid' & Hx').
      apply kid_paths_shape in Hx'. destruct Hx' as (t' & Ex' & Ht').
      apply Hfresh. apply in_map_iff. exists kid'. split; [|exact Hkid'].
      assert (Hn : ~ In dot (d_name (snd kid))) by (apply Hname; now left).
      assert (Hn' : ~ In dot (d_name (snd kid'))) by (apply Hname; now right).
      assert (Elead : fst kid = fst kid').
      { destruct (Hlead kid kid') as [E|[Hd Hd']]; auto; [now left|now right|].
        rewrite Ex in Ex'. eapply dot_join_inj; eauto. }
      unfold kidKey. rewrite <- Elead. f_equal.
      rewrite Ex, Elead in Ex'. apply app_inv_head in Ex'.
      injection Ex' as Ex'. symmetry.
      eapply name_tail_inj; eauto.
Qed.

Lemma below_wellNamed l b :
  forallb (fun e => match e with
                    | Some b => wellNamed false b
                    | None => true
                    end) l = true ->
  In b (present l) -> wellNamed false b = true.
Proof.
  rewrite forallb_forall. intros H Hin. apply present_In in Hin.
  apply (H _ Hin).
Qed.

Lemma wellNamed_parts root nm sh ls ss ts :
  wellNamed root (mkDiagram nm sh ls ss ts) = true ->
  (forall x, In x (presentNames ls ++ presentNames ss ++ presentNames ts) ->
             ~ In dot x)
  /\ (if root
      then NoDup (presentNames ls) /\ NoDup (presentNames ss)
           /\ NoDup (presentNames ts)
      else NoDup (presentNames ls ++ presentNames ss ++ presentNames ts))
  /\ (forall b, In b (present ls ++ present ss ++ present ts) ->
                wellNamed false b = true).
Proof.
  cbn [wellNamed]. rewrite !andb_true_iff.
  intros [[[[Hdots Hdistinct] Hl] Hs] Ht]. split; [|split].
  - intros x Hx. apply noDot_In. rewrite forallb_forall in Hdots. auto.
  - destruct root.
    + rewrite !andb_true_iff in Hdistinct.
      destruct Hdistinct as [[H1 H2] H3].
      repeat split; now apply distinct_NoDup.
    + now apply distinct_NoDup.
  - intros b Hb. rewrite !in_app_iff in Hb.
    destruct Hb as [Hb|[Hb|Hb]];
      [ apply (@below_wellNamed _ _ Hl Hb) | apply (@below_wellNamed _ _ Hs Hb)
      | apply (@below_wellNamed _ _ Ht Hb) ].
Qed.

Lemma NoDup_map_pair (k : jsstring) (l : list jsstring) :
  NoDup l -> NoDup (List.map (pair k) l).
Proof.
  induction 1 as [|x l Hx _ IH]; simpl; constructor; auto.
  rewrite in_map_iff. intros (y & E & Hy). injection E as ->. auto.
Qed.

Lemma kidKey_map k bs :
  List.map kidKey (List.map (pair k) bs) = List.map (pair k) (List.map d_name bs).
Proof. rewrite !map_map. reflexivity. Qed.

Lemma kidsOf_In d q kid :
  In kid (kidsOf d q) ->
  In (snd kid) (present (d_layers d) ++ present (d_scenarios d)
                                     ++ present (d_steps d))
  /\ (fst kid = leading (js "layers") q
      \/ fst kid = leading (js "scenarios") q
      \/ fst kid = leading (js "steps") q).
Proof.
  unfold kidsOf. rewrite !in_app_iff, !in_map_iff.
  intros [(b & <- & H)|[(b & <- & H)|(b & <- & H)]]; simpl; tauto.
Qed.

Lemma nested_paths_NoDup d :
  wellNamed false d = true ->
  forall q, q <> [] -> NoDup (preorderForest (extractLayers d q)).
Proof.
  induction d as [nm sh ls ss ts Hls Hss Hts] using Diagram_tree_ind.
  intros Hwf q Hq. apply wellNamed_parts in Hwf.
  destruct Hwf as (Hdots & Hdistinct & Hbelow).
  apply onBoard_present in Hls, Hss, Hts.
  pose proof (Forall_app_all := fun (P : Diagram -> Prop) a b c
      (Ha : Forall P a) (Hb : Forall P b) (Hc : Forall P c) =>
      proj2 (Forall_app P a (b ++ c))
            (conj Ha (proj2 (Forall_app P b c) (conj Hb Hc)))).
  pose proof (IH := Forall_app_all _ _ _ _ Hls Hss Hts).
  rewrite Forall_forall in IH.
  rewrite preorder_extractLayers. apply pathsOf_NoDup.
  - intros kid Hkid. apply kidsOf_In in Hkid. destruct Hkid as [Hb _].
    simpl in Hb. apply IH; auto.
    unfold kidPath. destruct (fst kid); discriminate.
  - intros kid Hkid. apply kidsOf_In in Hkid. destruct Hkid as [Hb _].
    simpl in Hb. apply Hdots. unfold presentNames. rewrite <- !map_app.
    now apply in_map.
  - unfold kidsOf. simpl. destruct q as [|c q]; [congruence|]. simpl.
    rewrite <- !map_app, kidKey_map. apply NoDup_map_pair.
    unfold presentNames in Hdistinct. now rewrite <- !map_app in Hdistinct.
  - intros kid kid' Hkid Hkid'. left.
    apply kidsOf_In in Hkid, Hkid'. destruct Hkid as [_ Hk], Hkid' as [_ Hk'].
    destruct q as [|c q]; [congruence|]. simpl in Hk, Hk'.
    destruct Hk as [->|[->| ->]]; destruct Hk' as [->|[->| ->]]; reflexivity.
Qed.

(** Two keys with different collection keywords cannot be equal. *)
Ltac keyword_clash E E' :=
  rewrite <- E' in E; injection E as E _; vm_compute in E; discriminate E.

(** C2 (as the code has it).  For a diagram whose boards are well named
    (no name holds a dot; sibling names differ, at the root within each
    collection and below the root across the three collections of a
    board) the paths of all the nodes [extractLayers] produces are
    pairwise distinct. *)
Theorem extractLayers_paths_distinct (d : Diagram) :
  wellNamed true d = true ->
  NoDup (flattenTargets (extractLayers d [])).
Proof.
  intros Hwf. rewrite flattenTargets_preorder, preorder_extractLayers.
  destruct d as [nm sh ls ss ts]. apply wellNamed_parts in Hwf.
  destruct Hwf as (Hdots & (Dl & Ds & Dt) & Hbelow).
  apply pathsOf_NoDup.
  - intros kid Hkid. apply kidsOf_In in Hkid. destruct Hkid as [Hb _].
    simpl in Hb. apply nested_paths_NoDup; auto.
    unfold kidPath. destruct (fst kid); discriminate.
  - intros kid Hkid. apply kidsOf_In in Hkid. destruct Hkid as [Hb _].
    simpl in Hb. apply Hdots. unfold presentNames. rewrite <- !map_app.
    now apply in_map.
  - unfold kidsOf. cbn [leading d_layers d_scenarios d_steps].
    rewrite !map_app, !kidKey_map.
    apply NoDup_app; [now apply NoDup_map_pair| |].
    + apply NoDup_app; [now apply NoDup_map_pair|now apply NoDup_map_pair|].
      intros [k x]. rewrite !in_map_iff.
      intros (y & E & _) (y' & E' & _). keyword_clash E E'.
    + intros [k x]. rewrite in_app_iff, !in_map_iff.
      intros (y & E & _) [(y' & E' & _)|(y' & E' & _)]; keyword_clash E E'.
  - intros kid kid' Hkid Hkid'. right.
    apply kidsOf_In in Hkid, Hkid'. destruct Hkid as [_ Hk], Hkid' as [_ Hk'].
    simpl in Hk, Hk'.
    assert (K : forall k, k = js "layers" \/ k = js "scenarios" \/ k = js "steps" ->
                          ~ In dot k).
    { intros k [->|[->| ->]]; apply noDot_In; reflexivity. }
    auto.
Qed.

Lemma extractLayers_paths_distinct_witness :
  NoDup (flattenTargets (extractLayers Examples.mixedDiagram [])).
Proof.
  apply extractLayers_paths_distinct. reflexivity.
Defined.

Lemma extractLayers_paths_distinct_counterexample :
  flattenTargets (extractLayers Examples.clashDiagram [])
  = [js "layers.a"; js "layers.a.x"; js "layers.a.x"]
  /\ ~ NoDup (flattenTargets (extractLayers Examples.clashDiagram []))
  /\ flattenTargets (extractLayers Examples.dottedDiagram [])
     = [js "layers.a"; js "layers.a.b"; js "layers.a.b.c"; js "layers.a.b.c"]
  /\ ~ NoDup (flattenTargets (extractLayers Examples.dottedDiagram [])).
Proof.
  split; [reflexivity|]. split; [|split; [reflexivity|]].
  - change (~ NoDup [js "layers.a"; js "layers.a.x"; js "layers.a.x"]).
    intros H. inversion H as [|? ? _ H']; subst.
    inversion H' as [|? ? Hin _]; subst. apply Hin. now left.
  - change (~ NoDup [js "layers.a"; js "layers.a.b"; js "layers.a.b.c";
                     js "layers.a.b.c"]).
    intros H. inversion H as [|? ? _ H']; subst.
    inversion H' as [|? ? _ H'']; subst.
    inversion H'' as [|? ? Hin _]; subst. apply Hin. now left.
Qed.

(* ================================================================== *)
(** ** extractTitle *)
(* ================================================================== *)

Lemma startsWith_single c s :
  startsWith s [c] = match s with x :: _ => N.eqb x c | [] => false end.
Proof.
  destruct s as [|x s]; simpl; [reflexivity|].
  destruct s; apply andb_true_r.
Qed.

Lemma includes_single c s : includes s [c] = true <-> In c s.
Proof.
  unfold includes. induction s as [|x s IH].
  - simpl. split; [discriminate|tauto].
  - cbn [indexOf]. rewrite startsWith_single.
    destruct (N.eqb_spec x c) as [->|Hne].
    + split; [intros _; now left|reflexivity].
    + destruct (indexOf s [c]); simpl in *.
      * split; [intros _; right; now apply IH|reflexivity].
      * split; [discriminate|]. intros [E|Hin]; [congruence|].
        now apply IH in Hin.
Qed.

(** C7 (as the code has it).  When the matched title shape has a label
    that neither begins with the markdown marker nor contains a hash,
    the extracted title is the label itself, unchanged (no line is
    selected, nothing is trimmed); the node carries it as its title
    unless it is the empty string. *)
Theorem extractTitle_plain_label (d : Diagram) (s : Shape) (label : jsstring) :
  find isTitleShape (d_shapes d) = Some s ->
  shape_label s = Some label ->
  startsWith label (js "|md") = false ->
  ~ In hash label ->
  extractTitle d = Some label
  /\ titleProperty (extractTitle d)
     = match label with [] => None | _ :: _ => Some label end.
Proof.
  intros Hfind Hlabel Hmd Hhash.
  assert (E : extractTitle d = Some label).
  { unfold extractTitle. rewrite Hfind, Hlabel, Hmd. simpl.
    destruct (includes label (js "#")) eqn:Hinc; [|reflexivity].
    exfalso. apply Hhash. now apply includes_single. }
  rewrite E. split; [reflexivity|]. destruct label; reflexivity.
Qed.

Lemma extractTitle_plain_label_witness :
  extractTitle Examples.plainTitleDiagram = Some (js "  hello
world")
  /\ titleProperty (extractTitle Examples.plainTitleDiagram)
     = Some (js "  hello
world").
Proof.
  apply (@extractTitle_plain_label Examples.plainTitleDiagram
           (mkShape (js "title") (Some (js "  hello
world")))).
  - reflexivity.
  - reflexivity.
  - reflexivity.
  - intros H. vm_compute in H.
    repeat (destruct H as [H|H]; [discriminate H|]). exact H.
Defined.

Lemma extractTitle_plain_label_counterexample :
  let label := js "  hello
world" in
  find isTitleShape (d_shapes Examples.plainTitleDiagram)
  = Some (mkShape (js "title") (Some label))
  /\ startsWith label (js "|md") = false
  /\ includes label (js "#") = false
  /\ firstNonEmptyLine label label = js "hello"
  /\ extractTitle Examples.plainTitleDiagram
     <> Some (firstNonEmptyLine label label).
Proof.
  repeat split. vm_compute. discriminate.
Qed.

(* ================================================================== *)
(** ** Strings: scanning and replacing *)
(* ================================================================== *)

Lemma takeWhile_dropWhile f s : takeWhile f s ++ dropWhile f s = s.
Proof.
  induction s as [|x s IH]; simpl; [reflexivity|].
  destruct (f x); simpl; congruence.
Qed.

Lemma takeWhile_all f s x : In x (takeWhile f s) -> f x = true.
Proof.
  induction s as [|y s IH]; simpl; [tauto|].
  destruct (f y) eqn:E; simpl; [|tauto].
  intros [<-|H]; auto.
Qed.

Lemma dropWhile_head f s c r : dropWhile f s = c :: r -> f c = false.
Proof.
  induction s as [|y s IH]; simpl; [discriminate|].
  destruct (f y) eqn:E; auto. intros H. injection H as -> _. exact E.
Qed.

Lemma takeWhile_incl f s : incl (takeWhile f s) s.
Proof.
  intros x. induction s as [|y s IH]; simpl; [tauto|].
  destruct (f y); simpl; [|tauto]. intros [H|H]; auto.
Qed.

Lemma dropWhile_incl f s : incl (dropWhile f s) s.
Proof.
  intros x. induction s as [|y s IH]; simpl; [tauto|].
  destruct (f y); simpl; auto.
Qed.

Lemma skipn_incl n (s : jsstring) : incl (skipn n s) s.
Proof.
  revert s. induction n as [|n IH]; intros [|y s] x; simpl; auto.
  intros H. right. now apply IH.
Qed.

Lemma takeWhile_app_stop f a c r :
  (forall x, In x a -> f x = true) -> f c = false ->
  takeWhile f (a ++ c :: r) = a /\ dropWhile f (a ++ c :: r) = c :: r.
Proof.
  intros Ha Hc. induction a as [|y a IH]; simpl.
  - now rewrite Hc.
  - rewrite (Ha y) by now left.
    destruct IH as [-> ->]; [intros x Hx; apply Ha; now right|].
    split; reflexivity.
Qed.

Lemma startsWith_app p rest : startsWith (p ++ rest) p = true.
Proof.
  induction p as [|c p IH]; simpl; [reflexivity|].
  now rewrite N.eqb_refl.
Qed.

Lemma startsWith_prefix s p : startsWith s p = true -> exists r, s = p ++ r.
Proof.
  revert s. induction p as [|c p IH]; intros s H.
  - exists s. reflexivity.
  - destruct s as [|x s]; simpl in H; [discriminate|].
    apply andb_true_iff in H. destruct H as [E H].
    apply N.eqb_eq in E. subst. destruct (IH _ H) as (r & ->).
    exists r. reflexivity.
Qed.

Lemma indexOf_startsWith s p : startsWith s p = true -> indexOf s p = Some 0.
Proof. intros H. destruct s; simpl; now rewrite H. Qed.

Lemma getSubstitution_plain matched before after template :
  ~ In dollar template ->
  getSubstitution matched before after template = template.
Proof.
  induction template as [|c t IH]; simpl; intros H; [reflexivity|].
  assert (Hc : c <> dollar) by (intros ->; apply H; now left).
  assert (Ht : ~ In dollar t) by (intros Hin; apply H; now right).
  rewrite (IH Ht).
  destruct c as [|p]; [reflexivity|].
  do 6 (try (destruct p as [p|p|]); try reflexivity).
  exfalso. apply Hc. reflexivity.
Qed.

Lemma replaceString_prefix pattern rest template :
  ~ In dollar template ->
  replaceString (pattern ++ rest) pattern template = template ++ rest.
Proof.
  intros H. unfold replaceString.
  rewrite indexOf_startsWith by apply startsWith_app.
  simpl. rewrite getSubstitution_plain by exact H.
  rewrite skipn_app, skipn_all, Nat.sub_diag. reflexivity.
Qed.

Lemma replaceAllFrom_flat_map c template s :
  ~ In dollar template ->
  forall before,
    replaceAllFrom before c template s
    = flat_map (fun x => if N.eqb x c then template else [x]) s.
Proof.
  intros H. induction s as [|x s IH]; intros before; simpl; [reflexivity|].
  rewrite IH. destruct (N.eqb x c); [|reflexivity].
  now rewrite getSubstitution_plain.
Qed.

Lemma replaceAll_flat_map c template s :
  ~ In dollar template ->
  replaceAll c template s
  = flat_map (fun x => if N.eqb x c then template else [x]) s.
Proof. intros H. now apply replaceAllFrom_flat_map. Qed.

Lemma flat_map_flat_map (f g : N -> jsstring) s :
  flat_map g (flat_map f s) = flat_map (fun x => flat_map g (f x)) s.
Proof.
  induction s as [|x s IH]; simpl; [reflexivity|].
  now rewrite flat_map_app, IH.
Qed.

Lemma holds_false_iff c s : holds c s = false <-> ~ In c s.
Proof.
  unfold holds. split.
  - intros H Hin.
    assert (existsb (N.eqb c) s = true); [|congruence].
    apply existsb_exists. exists c. split; [exact Hin|apply N.eqb_refl].
  - intros H. destruct (existsb (N.eqb c) s) eqn:E; [|reflexivity].
    apply existsb_exists in E. destruct E as (x & Hx & E).
    apply N.eqb_eq in E. subst. contradiction.
Qed.

Lemma holds_flat_map c (f : N -> jsstring) s :
  (forall x, holds c (f x) = false) -> holds c (flat_map f s) = false.
Proof.
  intros H. induction s as [|x s IH]; simpl; [reflexivity|].
  unfold holds in *. rewrite existsb_app, H, IH. reflexivity.
Qed.

(* ================================================================== *)
(** ** ensureSvgDimensions *)
(* ================================================================== *)

Lemma notGt_false c : notGt c = false -> c = greaterThanSign.
Proof.
  unfold notGt. intros H. apply negb_false_iff in H. now apply N.eqb_eq.
Qed.

Lemma svgTagMatch_spec svg openTag closeAngle :
  svgTagMatch svg = Some (openTag, closeAngle) ->
  closeAngle = [greaterThanSign]
  /\ (exists rest, svg = openTag ++ [greaterThanSign] ++ rest)
  /\ ~ In greaterThanSign openTag
  /\ startsWith svg (js "<svg") = true.
Proof.
  unfold svgTagMatch.
  destruct (startsWith svg (js "<svg")) eqn:Hstart; [|discriminate].
  destruct (skipn 4 svg) as [|c r]; [discriminate|].
  destruct (isWhiteSpace c); [|discriminate].
  destruct (dropWhile notGt svg) as [|g rest] eqn:Hdrop; [discriminate|].
  intros H. injection H as <- <-.
  pose proof (@dropWhile_head _ _ _ _ Hdrop) as Hg. apply notGt_false in Hg. subst g.
  repeat split.
  - exists rest. rewrite <- (takeWhile_dropWhile notGt svg) at 1.
    now rewrite Hdrop.
  - intros Hin. apply takeWhile_all in Hin. discriminate Hin.
Qed.

Lemma viewBoxAt_incl s inner : viewBoxAt s = Some inner -> incl inner s.
Proof.
  unfold viewBoxAt.
  destruct (startsWith s (js "viewBox")); [|discriminate].
  destruct (dropWhile isWhiteSpace (skipn 7 s)) as [|e afterEq] eqn:E1;
    [discriminate|].
  destruct (N.eqb e equalsSign); [|discriminate].
  destruct (dropWhile isWhiteSpace afterEq) as [|q value] eqn:E2; [discriminate|].
  destruct (isQuote q); [|discriminate].
  destruct (takeWhile notQuote value) as [|i0 i] eqn:E3; [discriminate|].
  destruct (dropWhile notQuote value); [discriminate|].
  intros H. injection H as <-.
  intros x Hx. apply (skipn_incl 7). apply (@dropWhile_incl isWhiteSpace).
  rewrite E1. right. apply (@dropWhile_incl isWhiteSpace). rewrite E2. right.
  apply (@takeWhile_incl notQuote). now rewrite E3.
Qed.

Lemma viewBoxMatch_incl s inner : viewBoxMatch s = Some inner -> incl inner s.
Proof.
  induction s as [|c s IH]; cbn [viewBoxMatch].
  - destruct (viewBoxAt []) eqn:E; [|discriminate].
    intros H. injection H as <-. now apply viewBoxAt_incl.
  - destruct (viewBoxAt (c :: s)) eqn:E.
    + intros H. injection H as <-. now apply viewBoxAt_incl.
    + intros H x Hx. right. now apply IH.
Qed.

Lemma splitWhiteSpace_incl s :
  forall piece, In piece (splitWhiteSpace s) -> incl piece s.
Proof.
  induction s as [|x s IH]; intros piece; cbn [splitWhiteSpace].
  - intros [<-|[]]. apply incl_refl.
  - destruct (isWhiteSpace x).
    + destruct s as [|y s'].
      * intros [<-|[<-|[]]]; intros z [].
      * destruct (isWhiteSpace y).
        -- intros H. apply incl_tl. now apply IH.
        -- intros [<-|H]; [intros z []|]. apply incl_tl. now apply IH.
    + destruct (splitWhiteSpace s) as [|first more] eqn:E.
      * intros [<-|[]]. intros z [->|[]]. now left.
      * intros [<-|H].
        -- intros z [->|Hz]; [now left|]. right. apply (IH first); auto.
           now left.
        -- apply incl_tl. apply IH. now right.
Qed.

Lemma nth_nonempty_In n (fields : list jsstring) :
  nth n fields [] <> [] -> In (nth n fields []) fields.
Proof.
  intros H. destruct (Nat.lt_ge_cases n (List.length fields)) as [Hlt|Hge].
  - now apply nth_In.
  - rewrite nth_overflow in H by exact Hge. congruence.
Qed.

Lemma fields_match (fields : list jsstring) :
  match fields with
  | _ :: _ :: ((_ :: _) as w) :: ((_ :: _) as h) :: _ =>
      nth 2 fields [] = w /\ nth 3 fields [] = h /\ w <> [] /\ h <> []
  | _ => nth 2 fields [] = [] \/ nth 3 fields [] = []
  end.
Proof.
  destruct fields as [|f1 [|f2 [|[|w0 w] [|[|h0 h] more]]]]; simpl; auto.
  repeat split; discriminate.
Qed.

Lemma whitespace_notGt c : isWhiteSpace c = true -> notGt c = true.
Proof.
  intros H. unfold notGt. destruct (N.eqb_spec c greaterThanSign) as [->|_];
    [discriminate H|reflexivity].
Qed.

Lemma svgTagMatch_shape svg openTag closeAngle :
  svgTagMatch svg = Some (openTag, closeAngle) ->
  exists ws body, openTag = js "<svg" ++ ws :: body /\ isWhiteSpace ws = true.
Proof.
  unfold svgTagMatch.
  destruct (startsWith svg (js "<svg")) eqn:Hstart; [|discriminate].
  apply startsWith_prefix in Hstart. destruct Hstart as (r & ->).
  change (skipn 4 (js "<svg" ++ r)) with r.
  destruct r as [|ws r]; [discriminate|].
  destruct (isWhiteSpace ws) eqn:Hws; [|discriminate].
  destruct (dropWhile notGt (js "<svg" ++ ws :: r)); [discriminate|].
  intros H. injection H as <- _.
  exists ws, (takeWhile notGt r). split; [|exact Hws].
  change (js "<svg" ++ ws :: r) with (60 :: 115 :: 118 :: 103 :: ws :: r)%N.
  cbn [takeWhile]. rewrite (whitespace_notGt _ Hws). reflexivity.
Qed.

Lemma svgTagMatch_intro ws body rest :
  isWhiteSpace ws = true ->
  (forall x, In x body -> notGt x = true) ->
  svgTagMatch (js "<svg" ++ ws :: body ++ greaterThanSign :: rest)
  = Some (js "<svg" ++ ws :: body, [greaterThanSign]).
Proof.
  intros Hws Hbody.
  destruct (takeWhile_app_stop notGt body greaterThanSign rest Hbody eq_refl) as [Et Ed].
  unfold svgTagMatch.
  change (js "<svg" ++ ws :: body ++ greaterThanSign :: rest)
    with (60 :: 115 :: 118 :: 103 :: ws :: body ++ greaterThanSign :: rest)%N.
  cbn [startsWith js List.map list_ascii_of_string skipn N_of_ascii
       N_of_digits N.eqb Pos.eqb andb].
  rewrite Hws. cbn [dropWhile takeWhile].
  rewrite (whitespace_notGt _ Hws). cbn. rewrite Et, Ed. reflexivity.
Qed.

Lemma hasWidthAttr_suffix a b :
  widthAttrAt b = true -> hasWidthAttr (a ++ b) = true.
Proof.
  intros H. induction a as [|x a IH]; cbn [app hasWidthAttr].
  - destruct b; [discriminate H|]. cbn [hasWidthAttr]. now rewrite H.
  - rewrite IH. apply orb_true_r.
Qed.

Lemma ensureSvgDimensions_with_width svg openTag closeAngle :
  svgTagMatch svg = Some (openTag, closeAngle) ->
  hasWidthAttr openTag = true ->
  ensureSvgDimensions svg = svg.
Proof. intros M W. unfold ensureSvgDimensions. now rewrite M, W. Qed.

Lemma ensureSvgDimensions_insert svg openTag closeAngle inner :
  svgTagMatch svg = Some (openTag, closeAngle) ->
  hasWidthAttr openTag = false ->
  viewBoxMatch openTag = Some inner ->
  nth 2 (splitWhiteSpace inner) [] <> [] ->
  nth 3 (splitWhiteSpace inner) [] <> [] ->
  ~ In dollar openTag ->
  exists rest,
    svg = openTag ++ [greaterThanSign] ++ rest
    /\ ensureSvgDimensions svg
       = openTag
         ++ dimensionAttrs (nth 2 (splitWhiteSpace inner) [])
                           (nth 3 (splitWhiteSpace inner) [])
         ++ [greaterThanSign] ++ rest.
Proof.
  intros Hmatch Hwidth Hview Hw Hh Hdollar.
  unfold ensureSvgDimensions. rewrite Hmatch, Hwidth, Hview.
  pose proof (fields_match (splitWhiteSpace inner)) as Hf.
  apply svgTagMatch_spec in Hmatch.
  destruct Hmatch as (-> & (rest & Esvg) & _ & _).
  exists rest. split; [exact Esvg|].
  assert (Hin : forall n, nth n (splitWhiteSpace inner) [] <> [] ->
                          ~ In dollar (nth n (splitWhiteSpace inner) [])).
  { intros n Hn Hd. apply Hdollar.
    apply (@viewBoxMatch_incl _ _ Hview).
    apply (@splitWhiteSpace_incl inner _ (@nth_nonempty_In _ _ Hn)).
    exact Hd. }
  pose proof (Hin 2 Hw) as Dw. pose proof (Hin 3 Hh) as Dh. clear Hin.
  destruct (splitWhiteSpace inner)
    as [|f1 [|f2 [|[|w0 w'] [|[|h0 h'] more]]]];
    try (destruct Hf; congruence).
  destruct Hf as (Ew & Eh & _ & _). rewrite <- Ew, <- Eh.
  rewrite Esvg at 1. rewrite app_assoc.
  rewrite replaceString_prefix.
  - unfold dimensionAttrs. rewrite <- !app_assoc. reflexivity.
  - rewrite !in_app_iff. unfold dq. simpl.
    intros H. repeat (destruct H as [H|H]; try discriminate H; auto).
Qed.

Lemma ensureSvgDimensions_short_viewBox svg openTag closeAngle inner :
  svgTagMatch svg = Some (openTag, closeAngle) ->
  viewBoxMatch openTag = Some inner ->
  nth 2 (splitWhiteSpace inner) [] = [] \/ nth 3 (splitWhiteSpace inner) [] = [] ->
  ensureSvgDimensions svg = svg.
Proof.
  intros Hmatch Hview Hempty.
  unfold ensureSvgDimensions. rewrite Hmatch, Hview.
  destruct (hasWidthAttr openTag); [reflexivity|].
  pose proof (fields_match (splitWhiteSpace inner)) as Hf.
  destruct (splitWhiteSpace inner)
    as [|f1 [|f2 [|[|w0 w'] [|[|h0 h'] more]]]]; try reflexivity.
  destruct Hf as (Ew & Eh & _ & _). destruct Hempty; congruence.
Qed.

Lemma widthAttrAt_dimensionAttrs w h : widthAttrAt (dimensionAttrs w h) = true.
Proof. reflexivity. Qed.

(** Without a dollar sign in the opening tag a second call changes
    nothing: the tag then has the width attribute the first call added. *)
Lemma ensureSvgDimensions_idempotent_without_dollar svg :
  (forall openTag closeAngle,
      svgTagMatch svg = Some (openTag, closeAngle) -> ~ In dollar openTag) ->
  ensureSvgDimensions (ensureSvgDimensions svg) = ensureSvgDimensions svg.
Proof.
  intros Hdollar.
  destruct (svgTagMatch svg) as [[openTag closeAngle]|] eqn:M.
  2:{ assert (E : ensureSvgDimensions svg = svg)
        by (unfold ensureSvgDimensions; now rewrite M).
      now rewrite !E. }
  destruct (hasWidthAttr openTag) eqn:W.
  { now rewrite !(ensureSvgDimensions_with_width _ M W). }
  destruct (viewBoxMatch openTag) as [inner|] eqn:V.
  2:{ assert (E : ensureSvgDimensions svg = svg)
        by (unfold ensureSvgDimensions; now rewrite M, W, V).
      now rewrite !E. }
  pose proof (fields_match (splitWhiteSpace inner)) as Hf.
  destruct (splitWhiteSpace inner)
    as [|f1 [|f2 [|[|w0 w'] [|[|h0 h'] more]]]] eqn:F;
    try (rewrite !(@ensureSvgDimensions_short_viewBox _ _ _ _ M V);
         [reflexivity|rewrite F; exact Hf ..]).
  destruct Hf as (Ew & Eh & Hw & Hh).
  rewrite <- F in Ew, Eh. rewrite <- Ew in Hw. rewrite <- Eh in Hh.
  destruct (ensureSvgDimensions_insert _ M W V Hw Hh (Hdollar _ _ eq_refl))
    as (rest & Esvg & ->).
  destruct (svgTagMatch_shape _ M) as (ws & body & Eo & Hws).
  pose proof (svgTagMatch_spec _ M) as (_ & _ & Hgt & _).
  set (w := nth 2 (splitWhiteSpace inner) []) in *.
  set (h := nth 3 (splitWhiteSpace inner) []) in *.
  assert (Hfield : forall n x, nth n (splitWhiteSpace inner) [] <> [] ->
                     In x (nth n (splitWhiteSpace inner) []) -> In x openTag).
  { intros n x Hn Hx. apply (@viewBoxMatch_incl _ _ V).
    apply (@splitWhiteSpace_incl inner _ (@nth_nonempty_In _ _ Hn)).
    exact Hx. }
  assert (Etag : openTag ++ dimensionAttrs w h
                 = js "<svg" ++ ws :: (body ++ dimensionAttrs w h)).
  { rewrite Eo, <- app_assoc. reflexivity. }
  apply (@ensureSvgDimensions_with_width _
           (openTag ++ dimensionAttrs w h) [greaterThanSign]).
  - replace (openTag ++ dimensionAttrs w h ++ [greaterThanSign] ++ rest)
      with ((openTag ++ dimensionAttrs w h) ++ greaterThanSign :: rest)
      by (now rewrite <- app_assoc).
    rewrite Etag, <- app_assoc. cbn [app].
    apply svgTagMatch_intro; [exact Hws|].
    assert (Hopen : forall x, In x openTag -> notGt x = true).
    { intros x Hx. unfold notGt. destruct (N.eqb_spec x greaterThanSign) as [->|_];
        [contradiction|reflexivity]. }
    intros x Hx. apply in_app_or in Hx. destruct Hx as [Hx|Hx].
    + apply Hopen. rewrite Eo. apply in_or_app. right. now right.
    + unfold dimensionAttrs, dq in Hx. rewrite !in_app_iff in Hx.
      simpl in Hx.
      repeat match goal with
             | H : _ \/ _ |- _ => destruct H as [H|H]
             | H : False |- _ => contradiction
             end;
        first [ subst x; reflexivity
              | apply Hopen; apply (Hfield 2 x Hw Hx)
              | apply Hopen; apply (Hfield 3 x Hh Hx) ].
  - apply hasWidthAttr_suffix, widthAttrAt_dimensionAttrs.
Qed.

Lemma forallb_takeWhile f s : forallb f (takeWhile f s) = true.
Proof.
  induction s as [|x s IH]; simpl; [reflexivity|].
  destruct (f x) eqn:E; simpl; [now rewrite E|reflexivity].
Qed.

Lemma dropWhile_app_all f a c r :
  forallb f a = true -> f c = false ->
  takeWhile f (a ++ c :: r) = a /\ dropWhile f (a ++ c :: r) = c :: r.
Proof.
  intros Ha Hc. apply takeWhile_app_stop; [|exact Hc].
  intros x Hx. rewrite forallb_forall in Ha. now apply Ha.
Qed.

Lemma isWhiteSpace_equalsSign : isWhiteSpace equalsSign = false.
Proof. reflexivity. Qed.

Lemma isQuote_not_whiteSpace q : isQuote q = true -> isWhiteSpace q = false.
Proof.
  unfold isQuote. intros H. apply orb_true_iff in H.
  destruct H as [H|H]; apply N.eqb_eq in H; subst q; reflexivity.
Qed.

(** *** The tests of the code and the shape of the string *)

Lemma svgTagMatch_opensWith svg tag rest :
  opensWith svg tag rest -> svgTagMatch svg = Some (tag, [greaterThanSign]).
Proof.
  intros (-> & Hgt & ws & body & -> & Hws).
  rewrite <- app_assoc. cbn [app].
  apply svgTagMatch_intro; [exact Hws|].
  intros x Hx. unfold notGt.
  destruct (N.eqb_spec x greaterThanSign) as [->|_]; [|reflexivity].
  exfalso. apply holds_false_iff in Hgt. apply Hgt.
  apply in_or_app. right. now right.
Qed.

Lemma opensWith_svgTagMatch svg tag closeAngle :
  svgTagMatch svg = Some (tag, closeAngle) ->
  closeAngle = [greaterThanSign] /\ exists rest, opensWith svg tag rest.
Proof.
  intros M.
  destruct (svgTagMatch_spec _ M) as (-> & (rest & E) & Hgt & _).
  destruct (svgTagMatch_shape _ M) as (ws & body & Etag & Hws).
  split; [reflexivity|]. exists rest. split; [exact E|].
  split; [now apply holds_false_iff|]. now exists ws, body.
Qed.

Lemma widthAttrAt_shape s :
  widthAttrAt s = true <->
  exists ws spaces after,
    s = ws :: js "width" ++ spaces ++ equalsSign :: after
    /\ isWhiteSpace ws = true /\ forallb isWhiteSpace spaces = true.
Proof.
  split.
  - destruct s as [|c s]; [discriminate|]. cbn [widthAttrAt].
    intros H. apply andb_true_iff in H. destruct H as [H He].
    apply andb_true_iff in H. destruct H as [Hc Hs].
    apply startsWith_prefix in Hs. destruct Hs as (r & ->).
    change (skipn 5 (js "width" ++ r)) with r in He.
    destruct (dropWhile isWhiteSpace r) as [|e after] eqn:Ed; [discriminate|].
    apply N.eqb_eq in He. subst e.
    exists c, (takeWhile isWhiteSpace r), after.
    split; [|split; [exact Hc|apply forallb_takeWhile]].
    now rewrite <- Ed, takeWhile_dropWhile.
  - intros (ws & spaces & after & -> & Hws & Hsp). cbn [widthAttrAt].
    rewrite Hws, startsWith_app.
    change (skipn 5 (js "width" ++ spaces ++ equalsSign :: after))
      with (spaces ++ equalsSign :: after).
    destruct (dropWhile_app_all isWhiteSpace spaces equalsSign after Hsp
                isWhiteSpace_equalsSign) as [_ ->].
    now rewrite N.eqb_refl.
Qed.

Lemma hasWidthAttr_holdsWidth tag :
  hasWidthAttr tag = true <-> holdsWidth tag.
Proof.
  unfold holdsWidth. split.
  - induction tag as [|c tag IH]; cbn [hasWidthAttr].
    + intros H. rewrite orb_false_r in H. discriminate H.
    + intros H. apply orb_true_iff in H. destruct H as [H|H].
      * apply widthAttrAt_shape in H.
        destruct H as (ws & spaces & after & E & Hws & Hsp).
        exists [], ws, spaces, after. now rewrite E.
      * destruct (IH H) as (before & ws & spaces & after & -> & Hws & Hsp).
        now exists (c :: before), ws, spaces, after.
  - intros (before & ws & spaces & after & -> & Hws & Hsp).
    apply hasWidthAttr_suffix. apply widthAttrAt_shape.
    now exists ws, spaces, after.
Qed.

Lemma hasWidthAttr_false tag : ~ holdsWidth tag -> hasWidthAttr tag = false.
Proof.
  intros H. destruct (hasWidthAttr tag) eqn:E; [|reflexivity].
  exfalso. now apply H, hasWidthAttr_holdsWidth.
Qed.

Lemma viewBoxAt_beginsViewBox s inner :
  viewBoxAt s = Some inner <-> beginsViewBox s inner.
Proof.
  unfold beginsViewBox. split.
  - unfold viewBoxAt.
    destruct (startsWith s (js "viewBox")) eqn:Hs; [|discriminate].
    apply startsWith_prefix in Hs. destruct Hs as (r & ->).
    change (skipn 7 (js "viewBox" ++ r)) with r.
    destruct (dropWhile isWhiteSpace r) as [|e afterEq] eqn:E1; [discriminate|].
    destruct (N.eqb_spec e equalsSign) as [->|_]; [|discriminate].
    destruct (dropWhile isWhiteSpace afterEq) as [|q value] eqn:E2;
      [discriminate|].
    destruct (isQuote q) eqn:Hq; [|discriminate].
    destruct (takeWhile notQuote value) as [|i0 i] eqn:E3; [discriminate|].
    destruct (dropWhile notQuote value) as [|q2 after] eqn:E4; [discriminate|].
    intros H. injection H as <-.
    exists (takeWhile isWhiteSpace r), (takeWhile isWhiteSpace afterEq),
      q, q2, after.
    split.
    + rewrite <- E3.
      replace (takeWhile notQuote value ++ q2 :: after) with value
        by (now rewrite <- E4, takeWhile_dropWhile).
      rewrite <- E2, takeWhile_dropWhile, <- E1, takeWhile_dropWhile.
      reflexivity.
    + repeat split; try apply forallb_takeWhile; try exact Hq.
      * apply dropWhile_head in E4. unfold notQuote in E4.
        now apply negb_false_iff in E4.
      * discriminate.
      * rewrite <- E3. apply forallb_takeWhile.
  - intros (sp1 & sp2 & q1 & q2 & after & -> & H1 & H2 & Hq1 & Hq2 & Hne & Hi).
    unfold viewBoxAt. rewrite startsWith_app.
    change (skipn 7 (js "viewBox" ++ sp1 ++ equalsSign :: sp2
                                  ++ q1 :: inner ++ q2 :: after))
      with (sp1 ++ equalsSign :: sp2 ++ q1 :: inner ++ q2 :: after).
    destruct (dropWhile_app_all isWhiteSpace sp1 equalsSign
                (sp2 ++ q1 :: inner ++ q2 :: after) H1
                isWhiteSpace_equalsSign) as [_ ->].
    rewrite N.eqb_refl.
    destruct (dropWhile_app_all isWhiteSpace sp2 q1 (inner ++ q2 :: after) H2
                (isQuote_not_whiteSpace _ Hq1)) as [_ ->].
    rewrite Hq1.
    assert (Hn2 : notQuote q2 = false) by (unfold notQuote; now rewrite Hq2).
    destruct (dropWhile_app_all notQuote inner q2 after Hi Hn2) as [-> ->].
    destruct inner; [congruence|reflexivity].
Qed.

Lemma viewBoxMatch_unfold s :
  viewBoxMatch s
  = match viewBoxAt s with
    | Some inner => Some inner
    | None => match s with [] => None | _ :: s' => viewBoxMatch s' end
    end.
Proof. destruct s; reflexivity. Qed.

Lemma viewBoxAt_none s :
  (forall value, ~ beginsViewBox s value) -> viewBoxAt s = None.
Proof.
  intros H. destruct (viewBoxAt s) as [value|] eqn:E; [|reflexivity].
  exfalso. now apply (H value), viewBoxAt_beginsViewBox.
Qed.

Lemma viewBoxMatch_firstViewBox tag inner :
  viewBoxMatch tag = Some inner <-> firstViewBox tag inner.
Proof.
  unfold firstViewBox. split.
  - induction tag as [|c tag IH]; rewrite viewBoxMatch_unfold.
    + destruct (viewBoxAt []) as [v|] eqn:E; [|discriminate].
      intros H. injection H as ->. exists [], [].
      split; [reflexivity|]. split; [now apply viewBoxAt_beginsViewBox|].
      intros [|x earlier] later He; [|discriminate He].
      simpl in He. subst later. congruence.
    + destruct (viewBoxAt (c :: tag)) as [v|] eqn:E.
      * intros H. injection H as ->. exists [], (c :: tag).
        split; [reflexivity|]. split; [now apply viewBoxAt_beginsViewBox|].
        intros [|x earlier] later He; [|discriminate He].
        simpl in He. subst later. congruence.
      * intros H. destruct (IH H) as (before & s & -> & Hs & Hfirst).
        exists (c :: before), s. split; [reflexivity|]. split; [exact Hs|].
        intros [|x earlier] later He Hne value Hv.
        -- simpl in He. subst later.
           apply viewBoxAt_beginsViewBox in Hv. cbn [app] in Hv. congruence.
        -- injection He as <- He. exact (Hfirst _ _ He Hne value Hv).
  - intros (before & s & -> & Hs & Hfirst).
    induction before as [|c before IH].
    + apply viewBoxAt_beginsViewBox in Hs. rewrite viewBoxMatch_unfold.
      cbn [app]. now rewrite Hs.
    + rewrite viewBoxMatch_unfold. cbn [app].
      rewrite (viewBoxAt_none (s := c :: before ++ s)).
      * apply IH. intros earlier later He. apply (Hfirst (c :: earlier)).
        now rewrite He.
      * apply (Hfirst [] (c :: before) eq_refl). discriminate.
Qed.

Lemma viewBoxMatch_noViewBox tag :
  viewBoxMatch tag = None <-> noViewBox tag.
Proof.
  unfold noViewBox. split.
  - induction tag as [|c tag IH]; rewrite viewBoxMatch_unfold.
    + destruct (viewBoxAt []) eqn:E; [discriminate|].
      intros _ before s value He Hv.
      symmetry in He. apply app_eq_nil in He. destruct He as [_ ->].
      apply viewBoxAt_beginsViewBox in Hv. congruence.
    + destruct (viewBoxAt (c :: tag)) eqn:E; [discriminate|].
      intros H [|x before] s value He Hv.
      * simpl in He. subst s. apply viewBoxAt_beginsViewBox in Hv. congruence.
      * injection He as _ He. exact (IH H _ _ _ He Hv).
  - intros H. induction tag as [|c tag IH]; rewrite viewBoxMatch_unfold.
    + reflexivity.
    + rewrite (viewBoxAt_none (s := c :: tag))
        by (intros value; apply (H [] (c :: tag) value eq_refl)).
      apply IH. intros before s value ->. apply (H (c :: before) s value).
      reflexivity.
Qed.

(** C5 (as the code has it).  The tag [ensureSvgDimensions] reads is the
    text before the first [>] of an input that begins with [<svg] and a
    white space.  The input is returned unchanged when it has no such
    tag; when the tag holds a white space, [width], white space or none
    and [=], wherever that is; when the tag holds no viewBox text; and
    when the value of the first viewBox text, split on white space, has
    no third or fourth field or an empty one.  When that value has a
    third and a fourth field that are not empty, and the tag holds no
    such width text and no dollar sign, the result is the input with
    width and height attributes, copied from those fields, put right
    before that first [>]. *)
Theorem ensureSvgDimensions_cases (svg : jsstring) :
  ((forall tag rest, ~ opensWith svg tag rest) ->
   ensureSvgDimensions svg = svg)
  /\ (forall tag rest,
        opensWith svg tag rest ->
        (holdsWidth tag -> ensureSvgDimensions svg = svg)
        /\ (noViewBox tag -> ensureSvgDimensions svg = svg)
        /\ (forall inner,
              firstViewBox tag inner ->
              let w := nth 2 (splitWhiteSpace inner) [] in
              let h := nth 3 (splitWhiteSpace inner) [] in
              ((w = [] \/ h = []) -> ensureSvgDimensions svg = svg)
              /\ (~ holdsWidth tag -> w <> [] -> h <> [] ->
                  ~ In dollar tag ->
                  ensureSvgDimensions svg
                  = tag ++ dimensionAttrs w h ++ greaterThanSign :: rest))).
Proof.
  split.
  - intros H. unfold ensureSvgDimensions.
    destruct (svgTagMatch svg) as [[tag closeAngle]|] eqn:M; [|reflexivity].
    exfalso. destruct (opensWith_svgTagMatch _ M) as (_ & rest & Ho).
    exact (H _ _ Ho).
  - intros tag rest Ho. pose proof (svgTagMatch_opensWith Ho) as M.
    split.
    { intros W. apply hasWidthAttr_holdsWidth in W.
      exact (ensureSvgDimensions_with_width _ M W). }
    split.
    + intros V. apply viewBoxMatch_noViewBox in V.
      unfold ensureSvgDimensions. rewrite M, V.
      now destruct (hasWidthAttr tag).
    + intros inner V. apply viewBoxMatch_firstViewBox in V. split.
      * apply (@ensureSvgDimensions_short_viewBox _ _ _ _ M V).
      * intros W Hw Hh Hd. apply hasWidthAttr_false in W.
        destruct (ensureSvgDimensions_insert _ M W V Hw Hh Hd)
          as (rest' & E & ->).
        destruct Ho as (Esvg & _). rewrite Esvg in E.
        apply app_inv_head in E. injection E as <-. reflexivity.
Qed.

Lemma ensureSvgDimensions_cases_witness :
  ensureSvgDimensions Examples.viewBoxSvg
  = quoted "<svg viewBox=`0 0 120 80`"
    ++ dimensionAttrs (js "120") (js "80")
    ++ greaterThanSign :: js "<g/></svg>".
Proof.
  destruct (ensureSvgDimensions_cases Examples.viewBoxSvg) as [_ H].
  destruct (H (quoted "<svg viewBox=`0 0 120 80`") (js "<g/></svg>"))
    as (_ & _ & Hinsert).
  { split; [reflexivity|]. split; [reflexivity|].
    exists 32%N, (quoted "viewBox=`0 0 120 80`"). split; reflexivity. }
  destruct (Hinsert (js "0 0 120 80")) as [_ Hdone].
  { exists (js "<svg "), (quoted "viewBox=`0 0 120 80`").
    split; [reflexivity|]. split.
    - exists [], [], dquote, dquote, []. repeat split. discriminate.
    - intros earlier later E Hne value Hv.
      apply viewBoxAt_beginsViewBox in Hv.
      do 6 (destruct earlier as [|? earlier];
            [simpl in E; subst later; try discriminate Hv; now apply Hne|
             try discriminate E; injection E as <- E]). }
  apply Hdone.
  - intros W. apply hasWidthAttr_holdsWidth in W. discriminate W.
  - discriminate.
  - discriminate.
  - intros Hd. vm_compute in Hd.
    repeat (destruct Hd as [Hd|Hd]; [discriminate Hd|]). exact Hd.
Defined.

Lemma ensureSvgDimensions_cases_counterexample :
  let tag := quoted "<svg viewBox=`0 0`" in
  opensWith Examples.shortViewBoxSvg tag (js "<g/></svg>")
  /\ ~ holdsWidth tag
  /\ firstViewBox tag (js "0 0")
  /\ ensureSvgDimensions Examples.shortViewBoxSvg = Examples.shortViewBoxSvg
  /\ ~ (exists w h rest,
          ensureSvgDimensions Examples.shortViewBoxSvg
          = tag ++ dimensionAttrs w h ++ [greaterThanSign] ++ rest).
Proof.
  intros tag. split.
  { split; [reflexivity|]. split; [reflexivity|].
    exists 32%N, (quoted "viewBox=`0 0`"). split; reflexivity. }
  split.
  { intros W. apply hasWidthAttr_holdsWidth in W. discriminate W. }
  split; [now apply viewBoxMatch_firstViewBox|].
  split; [reflexivity|].
  intros (w & h & rest & E).
  apply (f_equal (fun l => nth 18 l 0%N)) in E.
  vm_compute in E. discriminate E.
Qed.

(** What the shape of the text means for markup.  A [>] inside an
    attribute value ends the tag that is read, so a width attribute after
    it is not seen and the new attributes go into that value; the width
    text counts inside an attribute value too; and the viewBox text that
    comes first is the one whose fields are copied, also inside another
    attribute. *)
Example ensureSvgDimensions_reads_text :
  ensureSvgDimensions
    (quoted "<svg viewBox=`0 0 1 2` title=`a>b` width=`5`>")
  = quoted "<svg viewBox=`0 0 1 2` title=`a width=`1` height=`2`>b` width=`5`>"
  /\ ensureSvgDimensions
       (quoted "<svg data-x=`the width = 3` viewBox=`0 0 1 2`>")
     = quoted "<svg data-x=`the width = 3` viewBox=`0 0 1 2`>"
  /\ ensureSvgDimensions
       (quoted "<svg data-x=`viewBox='9 9 9 9'` viewBox=`0 0 1 2`>")
     = quoted "<svg data-x=`viewBox='9 9 9 9'` viewBox=`0 0 1 2` width=`9` height=`9`>".
Proof. repeat split. Qed.

(** C6, at the input that breaks it.  The opening tag of [dollarSvg]
    holds the pattern [$'] in an attribute value; [replace] expands it in
    the replacement text to the text after the match, so the result of
    the first call has its first [>] inside that attribute value, before
    the added width, and a second call adds the attributes again. *)
Theorem ensureSvgDimensions_not_idempotent :
  ensureSvgDimensions Examples.dollarSvg
  = quoted "<svg viewBox=`0 0 1 2` a=`<g>` width=`1` height=`2`><g>"
  /\ ensureSvgDimensions (ensureSvgDimensions Examples.dollarSvg)
     = quoted "<svg viewBox=`0 0 1 2` a=`<g width=`1` height=`2`>` width=`1` height=`2`><g>"
  /\ ensureSvgDimensions (ensureSvgDimensions Examples.dollarSvg)
     <> ensureSvgDimensions Examples.dollarSvg.
Proof.
  repeat split. vm_compute. discriminate.
Qed.

(* ================================================================== *)
(** ** generateHtml *)
(* ================================================================== *)

Ltac no_dollar :=
  let H := fresh in
  intros H; vm_compute in H;
  repeat (destruct H as [H|H]; [discriminate H|]); exact H.

Lemma escapeData_flat_map payload :
  escapeData payload = flat_map unicodeEscaped payload.
Proof.
  unfold escapeData.
  rewrite !replaceAll_flat_map by no_dollar.
  rewrite !flat_map_flat_map. apply flat_map_ext. intros c.
  unfold unicodeEscaped.
  destruct (N.eqb_spec c lessThanSign) as [->|Hlt]; [reflexivity|].
  cbn [flat_map]. rewrite !app_nil_r.
  destruct (N.eqb_spec c greaterThanSign) as [->|Hgt]; [reflexivity|].
  cbn [flat_map]. rewrite !app_nil_r. reflexivity.
Qed.

Lemma escapeHtml_flat_map str :
  escapeHtml str = flat_map entityEscaped str.
Proof.
  unfold escapeHtml.
  rewrite !replaceAll_flat_map by no_dollar.
  rewrite !flat_map_flat_map. apply flat_map_ext. intros c.
  unfold entityEscaped.
  destruct (N.eqb_spec c ampersand) as [->|Hamp]; [reflexivity|].
  cbn [flat_map]. rewrite !app_nil_r.
  destruct (N.eqb_spec c lessThanSign) as [->|Hlt]; [reflexivity|].
  cbn [flat_map]. rewrite !app_nil_r.
  destruct (N.eqb_spec c greaterThanSign) as [->|Hgt]; [reflexivity|].
  cbn [flat_map]. rewrite !app_nil_r. reflexivity.
Qed.

Lemma holds_single c x : holds c [x] = N.eqb c x.
Proof. unfold holds. simpl. apply orb_false_r. Qed.

Lemma unicodeEscaped_clean c x :
  c = lessThanSign \/ c = greaterThanSign \/ c = ampersand -> holds c (unicodeEscaped x) = false.
Proof.
  intros Hc. unfold unicodeEscaped.
  destruct (N.eqb_spec x lessThanSign) as [->|Hlt];
    [destruct Hc as [->|[->| ->]]; reflexivity|].
  destruct (N.eqb_spec x greaterThanSign) as [->|Hgt];
    [destruct Hc as [->|[->| ->]]; reflexivity|].
  destruct (N.eqb_spec x ampersand) as [->|Hamp];
    [destruct Hc as [->|[->| ->]]; reflexivity|].
  rewrite holds_single. apply N.eqb_neq.
  destruct Hc as [->|[->| ->]]; congruence.
Qed.

Lemma entityEscaped_clean c x :
  c = lessThanSign \/ c = greaterThanSign \/ c = dquote -> holds c (entityEscaped x) = false.
Proof.
  intros Hc. unfold entityEscaped.
  destruct (N.eqb_spec x ampersand) as [->|Hamp];
    [destruct Hc as [->|[->| ->]]; reflexivity|].
  destruct (N.eqb_spec x lessThanSign) as [->|Hlt];
    [destruct Hc as [->|[->| ->]]; reflexivity|].
  destruct (N.eqb_spec x greaterThanSign) as [->|Hgt];
    [destruct Hc as [->|[->| ->]]; reflexivity|].
  destruct (N.eqb_spec x dquote) as [->|Hq];
    [destruct Hc as [->|[->| ->]]; reflexivity|].
  rewrite holds_single. apply N.eqb_neq.
  destruct Hc as [->|[->| ->]]; congruence.
Qed.

(** C8.  The document [generateHtml] produces is the fixed markup with
    the escaped title between the title tags and the escaped payload
    after the assignment.  The payload is [JSON.stringify(data)] with
    every [<], [>] and [&] replaced by its unicode escape, so it holds
    none of the three; the title is the given title with [&], [<], [>]
    and the double quote replaced by their entities, so it holds no [<],
    [>] or double quote and a title with a script tag appears as escaped
    text. *)
Theorem generateHtml_escapes (data : D2DiagramData) :
  let payload := escapeData (JSON_stringify data) in
  let shown := escapeHtml (data_title data) in
  generateHtml data = htmlHead ++ shown ++ htmlMiddle ++ payload ++ htmlTail
  /\ payload = flat_map unicodeEscaped (JSON_stringify data)
  /\ holds lessThanSign payload = false /\ holds greaterThanSign payload = false
  /\ holds ampersand payload = false
  /\ shown = flat_map entityEscaped (data_title data)
  /\ holds lessThanSign shown = false /\ holds greaterThanSign shown = false
  /\ holds dquote shown = false
  /\ escapeHtml (js "<script>") = js "&lt;script&gt;".
Proof.
  cbv zeta. rewrite escapeData_flat_map, escapeHtml_flat_map.
  split; [unfold generateHtml; now rewrite escapeData_flat_map, escapeHtml_flat_map|].
  split; [reflexivity|].
  repeat split;
    try (apply holds_flat_map; intros x;
         first [apply unicodeEscaped_clean | apply entityEscaped_clean]; tauto).
Qed.

(* ================================================================== *)
(** ** main: no output on failure *)
(* ================================================================== *)

Section MainProperties.

Variable Err : Type.
Variables resolve dirname basename : jsstring -> jsstring.
Variables join relative : jsstring -> jsstring -> jsstring.
Variable readFile : jsstring -> Err + jsstring.
Variable access : jsstring -> Err + unit.
Variable RenderOptions : Type.
Variable compile : Record_ -> jsstring -> Err + (Diagram * RenderOptions).
Variable render : Diagram -> RenderOptions -> jsstring -> Err + jsstring.
Variable writeFails : jsstring -> jsstring -> option Err.
Variables inputPath outputPath title : jsstring.

Local Abbreviation run :=
  (main resolve dirname basename join relative readFile access
        compile render writeFails inputPath outputPath title).
Local Abbreviation build :=
  (buildFileSystem resolve dirname join relative readFile access).
Local Abbreviation renders := (renderTargets render).

Lemma renderTargets_written d ro targets :
  forall svgs (w : World Err),
    written (snd (renders d ro targets svgs w)) = written w.
Proof.
  induction targets as [|t targets IH]; intros svgs w; simpl; [reflexivity|].
  destruct (render d ro t); simpl; [reflexivity|]. now rewrite IH.
Qed.

Lemma renderTargets_first_failure d ro before t after e :
  (forall t', In t' before -> exists svg, render d ro t' = inr svg) ->
  render d ro t = inl e ->
  forall svgs (w : World Err),
    fst (renders d ro (before ++ t :: after) svgs w) = Threw e.
Proof.
  intros Hbefore Hfail.
  induction before as [|b before IH]; intros svgs w; simpl.
  - now rewrite Hfail.
  - destruct (Hbefore b) as (svg & ->); [now left|].
    apply IH. intros t' Ht'. apply Hbefore. now right.
Qed.

Lemma renderTargets_returned d ro targets :
  forall svgs (w : World Err) svgs' w',
    renders d ro targets svgs w = (Returned svgs', w') ->
    forall t, In t targets -> exists svg, render d ro t = inr svg.
Proof.
  induction targets as [|t0 targets IH]; intros svgs w svgs' w' H t Hin;
    simpl in *; [contradiction|].
  destruct (render d ro t0) as [e|svg] eqn:E; [discriminate|].
  destruct Hin as [<-|Hin]; [eauto|]. eapply IH; eauto.
Qed.

(** C9.  Once import resolution has returned the file set: when
    compilation rejects, or the rendering of the root, or the rendering
    of a flattened target after the ones before it succeeded, [main]
    rejects with that very error and the files written are the ones
    written before the call; and whenever [main] ends, either it
    rejected and wrote nothing, or it returned, wrote the one output
    file, and compilation, the root and every flattened target had
    succeeded. *)
Theorem main_no_partial_output (depth : nat) (w : World Err)
  (fsMap : Record_) (out' : list (Message Err)) :
  build depth inputPath
        (out (log LogBuildingFileSystem (log (LogReading inputPath) w)))
  = Some (Returned fsMap, out') ->
  (forall e, compile fsMap (basename inputPath) = inl e ->
             exists w', run depth w = Some (Threw e, w')
                        /\ written w' = written w)
  /\ (forall d ro,
        compile fsMap (basename inputPath) = inr (d, ro) ->
        (forall e, render d ro [] = inl e ->
                   exists w', run depth w = Some (Threw e, w')
                              /\ written w' = written w)
        /\ (forall rootSvg before t after e,
              render d ro [] = inr rootSvg ->
              flattenTargets (extractLayers d []) = before ++ t :: after ->
              (forall t', In t' before -> exists svg, render d ro t' = inr svg) ->
              render d ro t = inl e ->
              exists w', run depth w = Some (Threw e, w')
                         /\ written w' = written w))
  /\ (forall r w',
        run depth w = Some (r, w') ->
        (exists e, r = Threw e /\ written w' = written w)
        \/ (r = Returned tt
            /\ (exists html, written w' = (outputPath, html) :: written w)
            /\ exists d ro rootSvg,
                compile fsMap (basename inputPath) = inr (d, ro)
                /\ render d ro [] = inr rootSvg
                /\ forall t, In t (flattenTargets (extractLayers d [])) ->
                             exists svg, render d ro t = inr svg)).
Proof.
  intros Hbuild. unfold main. rewrite Hbuild.
  split; [|split].
  - intros e ->. eexists. split; reflexivity.
  - intros d ro ->. split.
    + intros e ->. eexists. split; reflexivity.
    + intros rootSvg before t after e -> Htargets Hbefore Hfail.
      match goal with
      | |- context [renderTargets render d ro ?ts ?svgs ?w0] =>
          pose proof (renderTargets_written d ro ts svgs w0) as Hw;
          assert (Hf : fst (renderTargets render d ro ts svgs w0) = Threw e)
            by (rewrite Htargets;
                now apply renderTargets_first_failure);
          destruct (renderTargets render d ro ts svgs w0) as [r1 w1]
      end.
      simpl in Hf, Hw. subst r1. eexists. split; [reflexivity|exact Hw].
  - intros r w'.
    destruct (compile fsMap (basename inputPath)) as [e|[d ro]] eqn:Ec.
    { intros H. injection H as <- <-. left. eauto. }
    destruct (render d ro []) as [e|rootSvg] eqn:Er.
    { intros H. injection H as <- <-. left. eauto. }
    match goal with
    | |- context [renderTargets render d ro ?ts ?svgs ?w0] =>
        pose proof (renderTargets_written d ro ts svgs w0) as Hw;
        pose proof (@renderTargets_returned d ro ts svgs w0) as Hall;
        destruct (renderTargets render d ro ts svgs w0) as [[svgs'|e] w1]
    end.
    + simpl in Hw.
      destruct (writeFails outputPath _) as [e|].
      * intros H. injection H as <- <-. left. exists e. split; [reflexivity|].
        exact Hw.
      * intros H. injection H as <- <-. right. split; [reflexivity|].
        split; [eexists; simpl; now rewrite Hw|].
        exists d, ro, rootSvg.
        split; [reflexivity|split; [exact Er|]].
        intros t Ht. eapply Hall; [reflexivity|exact Ht].
    + simpl in Hw. intros H. injection H as <- <-. left. eauto.
Qed.

End MainProperties.

Lemma main_no_partial_output_witness :
  exists w',
    Examples.mainOn Examples.twoFileDisk Examples.authCompile
                    Examples.timeoutFailingRender 2 (mkWorld [] [])
    = Some (Threw (Examples.D2Failure (js "render failed")), w')
    /\ written w' = [].
Proof.
  destruct (@main_no_partial_output Examples.RunError
              (PosixPath.resolve Examples.root) PosixPath.dirname
              PosixPath.basename PosixPath.join
              (PosixPath.relative Examples.root)
              (Examples.readFileOn Examples.twoFileDisk)
              (Examples.accessOn Examples.twoFileDisk)
              unit Examples.authCompile Examples.timeoutFailingRender
              (fun _ _ => None) (js "/p/a.d2") (js "/p/a.html") (js "a")
              2 (mkWorld [] []) [(js "a.d2", js "...@b")]
              [LogReading (js "/p/a.d2"); LogBuildingFileSystem;
               WarnImportNotFound (js "b") (js "a.d2")]
              eq_refl) as (_ & Hrender & _).
  destruct (Hrender Examples.authDiagram tt eq_refl) as [_ Htarget].
  apply (Htarget Examples.viewBoxSvg [js "layers.auth"]
                 (js "layers.auth.timeout") []).
  - reflexivity.
  - reflexivity.
  - intros t' [<-|[]]. eexists. reflexivity.
  - reflexivity.
Defined.

(* ================================================================== *)
(** ** buildFileSystem: imports that are not found *)
(* ================================================================== *)

Section ImportProperties.

Variable Err : Type.
Variables resolve dirname : jsstring -> jsstring.
Variables join relative : jsstring -> jsstring -> jsstring.
Variable readFile : jsstring -> Err + jsstring.
Variable access : jsstring -> Err + unit.

Local Abbreviation State := (FsState Err).
Local Abbreviation Rec :=
  (jsstring -> State -> option (Completion Err unit * State)).

Lemma processImport_returns (rec : Rec) currentDir relativePath importRef
  (st : State) r st' :
  processImport join access rec currentDir relativePath importRef st
  = Some (r, st') ->
  r = Returned tt.
Proof.
  unfold processImport.
  destruct (accessThenProcess access rec _ st) as [[[u|e] st1]|];
    [congruence| |discriminate].
  destruct (accessThenProcess access rec _ st1) as [[[u|e'] st2]|];
    congruence.
Qed.

Lemma processImports_returns (rec : Rec) currentDir relativePath refs :
  forall (st : State) r st',
    processImports join access rec currentDir relativePath refs st
    = Some (r, st') ->
    r = Returned tt.
Proof.
  induction refs as [|ref refs IH]; intros st r st'; simpl.
  - congruence.
  - destruct (processImport join access rec currentDir relativePath ref st)
      as [[[u|e] st1]|] eqn:E; [apply IH| |discriminate].
    apply processImport_returns in E. discriminate E.
Qed.

Lemma processFile_returns baseDir depth :
  forall filePath (st : State) r st',
    processFile resolve dirname join relative readFile access baseDir
                depth filePath st = Some (r, st') ->
    r = Returned tt.
Proof.
  destruct depth as [|depth]; intros filePath st r st'; simpl;
    [discriminate|].
  destruct (has (processed st) (resolve filePath)); [congruence|].
  destruct (readFile (resolve filePath)); [congruence|].
  apply processImports_returns.
Qed.

(** C4 (as the code has it).  An import whose path, computed from the
    directory of the importing file with the extension appended, cannot
    be accessed is tried once more at the same path computed from the
    same directory without the appended extension.  When that cannot be
    accessed either, the import is given up with a warning and the loop
    goes on with the next reference; when it can, that file is
    processed.  [processFile] never rejects.  So for an entry file A
    whose only reference names a file that is there under neither path,
    the file set is A alone and the call returns. *)
Theorem import_retry_then_abandon :
  (forall (rec : Rec) currentDir relativePath importRef refs (st : State) e1 e2,
      access (importPathOf join currentDir importRef) = inl e1 ->
      access (join currentDir importRef) = inl e2 ->
      processImport join access rec currentDir relativePath importRef st
      = Some (Returned tt, print (WarnImportNotFound importRef relativePath) st)
      /\ processImports join access rec currentDir relativePath
                        (importRef :: refs) st
         = processImports join access rec currentDir relativePath refs
                          (print (WarnImportNotFound importRef relativePath) st))
  /\ (forall (rec : Rec) currentDir relativePath importRef (st st' : State) e1,
        access (importPathOf join currentDir importRef) = inl e1 ->
        access (join currentDir importRef) = inr tt ->
        rec (join currentDir importRef) st = Some (Returned tt, st') ->
        processImport join access rec currentDir relativePath importRef st
        = Some (Returned tt, st'))
  /\ (forall baseDir depth filePath (st : State) r st',
        processFile resolve dirname join relative readFile access baseDir
                    depth filePath st = Some (r, st') ->
        r = Returned tt)
  /\ (forall depth entryPath out contentA importRef e1 e2,
        readFile (resolve entryPath) = inr contentA ->
        importRefs contentA = [importRef] ->
        access (importPathOf join (dirname (resolve entryPath)) importRef)
        = inl e1 ->
        access (join (dirname (resolve entryPath)) importRef) = inl e2 ->
        let relativePath := relative (dirname entryPath) (resolve entryPath) in
        buildFileSystem resolve dirname join relative readFile access
                        (S depth) entryPath out
        = Some (Returned [(relativePath, contentA)],
                out ++ [WarnImportNotFound importRef relativePath])).
Proof.
  split; [|split; [|split]].
  - intros rec currentDir relativePath importRef refs st e1 e2 H1 H2.
    assert (E : processImport join access rec currentDir relativePath
                              importRef st
                = Some (Returned tt,
                        print (WarnImportNotFound importRef relativePath) st)).
    { unfold processImport, accessThenProcess, altPathOf.
      now rewrite H1, H2. }
    split; [exact E|]. simpl. now rewrite E.
  - intros rec currentDir relativePath importRef st st' e1 H1 H2 Hrec.
    unfold processImport, accessThenProcess, altPathOf.
    now rewrite H1, H2, Hrec.
  - intros baseDir depth. apply processFile_returns.
  - intros depth entryPath out contentA importRef e1 e2 Hread Hrefs H1 H2.
    unfold buildFileSystem. simpl.
    rewrite Hread, Hrefs. simpl.
    unfold processImport, accessThenProcess, altPathOf.
    rewrite H1, H2. reflexivity.
Qed.

End ImportProperties.

Lemma import_retry_then_abandon_witness :
  Examples.buildOn Examples.twoFileDisk 1 (js "/p/a.d2")
  = Some (Returned [(js "a.d2", js "...@b")],
          [WarnImportNotFound (js "b") (js "a.d2")]).
Proof.
  destruct (@import_retry_then_abandon Examples.RunError
              (PosixPath.resolve Examples.root) PosixPath.dirname
              PosixPath.join (PosixPath.relative Examples.root)
              (Examples.readFileOn Examples.twoFileDisk)
              (Examples.accessOn Examples.twoFileDisk))
    as (_ & _ & _ & Htwo).
  apply (Htwo 0 (js "/p/a.d2") [] (js "...@b") (js "b")
              (Examples.Fs (PosixPath.ENOENT (js "/p/b.d2")))
              (Examples.Fs (PosixPath.ENOENT (js "/p/b"))));
    reflexivity.
Defined.

Lemma import_retry_then_abandon_counterexample :
  let currentDir := js "/p/sub" in
  let baseDir := js "/p" in
  let importRef := js "lib/x" in
  (* the reference is not found at the path computed from the directory
     of the importing file *)
  Examples.accessOn Examples.nestedDisk
    (importPathOf PosixPath.join currentDir importRef)
  = inl (Examples.Fs (PosixPath.ENOENT (js "/p/sub/lib/x.d2")))
  (* the path tried next is under the same directory *)
  /\ altPathOf PosixPath.join currentDir importRef = js "/p/sub/lib/x"
  /\ altPathOf PosixPath.join currentDir importRef
     <> PosixPath.join baseDir importRef
  /\ altPathOf PosixPath.join currentDir importRef
     <> PosixPath.join Examples.root importRef
  (* read from the entry's directory or from the root of the file system
     the reference names a file that is there *)
  /\ Examples.accessOn Examples.nestedDisk
       (importPathOf PosixPath.join baseDir importRef) = inr tt
  /\ Examples.accessOn Examples.nestedDisk
       (importPathOf PosixPath.join Examples.root importRef) = inr tt
  (* and yet the import is given up *)
  /\ Examples.buildOn Examples.nestedDisk 2 (js "/p/main.d2")
     = Some (Returned [(js "main.d2", js "...@sub/a");
                       (js "sub/a.d2", js "x: @lib/x")],
             [WarnImportNotFound (js "lib/x") (js "sub/a.d2")]).
Proof.
  repeat split; try (vm_compute; discriminate).
Qed.

(* ================================================================== *)
(** * Further properties of the code *)
(* ================================================================== *)

(* ================================================================== *)
(** ** More about ensureSvgDimensions *)
(* ================================================================== *)

(** X1.  A second call of [ensureSvgDimensions] changes nothing when the
    opening tag of the input holds no dollar sign: the tag of the first
    result then has the width attribute that was added. *)
Theorem ensureSvgDimensions_second_call (svg : jsstring) :
  (forall openTag closeAngle,
      svgTagMatch svg = Some (openTag, closeAngle) -> ~ In dollar openTag) ->
  ensureSvgDimensions (ensureSvgDimensions svg) = ensureSvgDimensions svg.
Proof. apply ensureSvgDimensions_idempotent_without_dollar. Qed.

Lemma ensureSvgDimensions_second_call_witness :
  ensureSvgDimensions (ensureSvgDimensions Examples.viewBoxSvg)
  = ensureSvgDimensions Examples.viewBoxSvg.
Proof.
  apply ensureSvgDimensions_second_call.
  intros openTag closeAngle H. vm_compute in H. injection H as <- _.
  intros Hd. vm_compute in Hd.
  repeat (destruct Hd as [Hd|Hd]; [discriminate Hd|]). exact Hd.
Defined.

(** X2.  The copy of the normaliser in the embedded viewer, which checks
    that the viewBox has four fields before it takes the third and the
    fourth, computes the same result as the one of the prerender script
    on every input. *)
Theorem embedEnsureSvgDimensions_same (svg : jsstring) :
  embedEnsureSvgDimensions svg = ensureSvgDimensions svg.
Proof.
  unfold embedEnsureSvgDimensions, ensureSvgDimensions.
  destruct (svgTagMatch svg) as [[openTag closeAngle]|]; [|reflexivity].
  destruct (hasWidthAttr openTag); [reflexivity|].
  destruct (viewBoxMatch openTag) as [inner|]; [|reflexivity].
  destruct (splitWhiteSpace inner) as [|f1 [|f2 [|w [|h more]]]];
    try reflexivity.
  - destruct w; reflexivity.
  - cbn [List.length Nat.ltb Nat.leb nth].
    destruct w; [reflexivity|]. destruct h; reflexivity.
Qed.

(* ================================================================== *)
(** ** More about extractLayers *)
(* ================================================================== *)

Lemma startsWith_app_more p q rest : startsWith ((p ++ q) ++ rest) p = true.
Proof. rewrite <- app_assoc. apply startsWith_app. Qed.

Lemma root_paths_keyword d t :
  In t (flattenTargets (extractLayers d [])) -> startsWithKeyword t = true.
Proof.
  rewrite flattenTargets_preorder, preorder_extractLayers.
  unfold pathsOf. rewrite in_flat_map. intros (kid & Hkid & Ht).
  apply kid_paths_shape in Ht. destruct Ht as (tail & -> & _).
  apply kidsOf_In in Hkid. destruct Hkid as [_ Hk]. simpl in Hk.
  unfold startsWithKeyword.
  destruct Hk as [->|[->| ->]].
  - change (js "layers" ++ dot :: d_name (snd kid) ++ tail)
      with (js "layers." ++ d_name (snd kid) ++ tail).
    now rewrite startsWith_app.
  - change (js "scenarios" ++ dot :: d_name (snd kid) ++ tail)
      with (js "scenarios." ++ d_name (snd kid) ++ tail).
    rewrite (startsWith_app (js "scenarios.")).
    now rewrite orb_true_r.
  - change (js "steps" ++ dot :: d_name (snd kid) ++ tail)
      with (js "steps." ++ d_name (snd kid) ++ tail).
    rewrite (startsWith_app (js "steps.")). apply orb_true_r.
Qed.

(** X3.  Every path [extractLayers] produces for a compiled diagram
    begins with one of [layers.], [scenarios.], [steps.]; none is the
    empty path, which stands for the root. *)
Theorem extractLayers_paths_begin_with_keyword (d : Diagram) :
  forallb startsWithKeyword (flattenTargets (extractLayers d [])) = true
  /\ ~ In [] (flattenTargets (extractLayers d [])).
Proof.
  split.
  - apply forallb_forall. intros t. apply root_paths_keyword.
  - intros H. apply root_paths_keyword in H. discriminate H.
Qed.

Lemma keyword_not_root t :
  startsWithKeyword t = true -> startsWith t (js "root.") = false.
Proof.
  unfold startsWithKeyword. destruct t as [|c t]; [discriminate|].
  intros H. cbn [startsWith js List.map list_ascii_of_string] in *.
  destruct (N.eqb_spec c (N_of_ascii "r")) as [->|_]; [|reflexivity].
  discriminate H.
Qed.

(** X4.  A link of the rendered image whose address is the path of a
    node, alone or after [root.], makes the live viewer select exactly
    that path, whatever the current target is. *)
Theorem handleDiagramClick_selects_node (d : Diagram) (current : jsstring) :
  Forall (fun t =>
            handleDiagramClick (Some t) current = t
            /\ handleDiagramClick (Some (js "root." ++ t)) current = t)
         (flattenTargets (extractLayers d [])).
Proof.
  apply Forall_forall. intros t Ht. apply root_paths_keyword in Ht.
  pose proof (keyword_not_root _ Ht) as Hroot.
  split.
  - destruct t as [|c t]; [discriminate Ht|].
    unfold handleDiagramClick, layerPatternTest, stripRoot.
    now rewrite Hroot, Ht.
  - change (js "root." ++ t) with (114 :: 111 :: 111 :: 116 :: 46 :: t)%N.
    unfold handleDiagramClick, layerPatternTest, stripRoot.
    change (startsWith (114 :: 111 :: 111 :: 116 :: 46 :: t)%N (js "root."))
      with true.
    cbn [skipn andb]. now rewrite Ht.
Qed.

Lemma titleProperty_not_empty t :
  match titleProperty t with Some [] => false | _ => true end = true.
Proof. destruct t as [[|c s]|]; reflexivity. Qed.

Lemma forallb_app_true A (f : A -> bool) l1 l2 :
  forallb f l1 = true -> forallb f l2 = true -> forallb f (l1 ++ l2) = true.
Proof. intros H1 H2. rewrite forallb_app. now rewrite H1, H2. Qed.

Lemma extractLayers_follow_scheme d :
  forall parentPath, parentPath <> [] ->
    forallb (followsPathScheme parentPath) (extractLayers d parentPath) = true.
Proof.
  induction d as [nm sh ls ss ts Hls Hss Hts] using Diagram_tree_ind.
  intros parentPath Hp. rewrite extractLayers_eq. simpl.
  assert (one : forall keyword ty l,
             Forall (onBoard (fun b => forall q, q <> [] ->
                 forallb (followsPathScheme q) (extractLayers b q) = true)) l ->
             forallb (followsPathScheme parentPath)
                     (List.map (boardNode keyword ty parentPath) (present l))
             = true).
  { intros keyword ty l Hl. apply onBoard_present in Hl.
    induction Hl as [|b bs Hb _ IH]; simpl; [reflexivity|].
    rewrite IH, andb_true_r.
    destruct parentPath as [|c q]; [congruence|].
    cbn [nodePath]. rewrite str_eqb_refl, titleProperty_not_empty. simpl.
    apply Hb. destruct q; discriminate. }
  repeat apply forallb_app_true; apply one; assumption.
Qed.

(** X5.  In the tree [extractLayers] builds, the path of a root-level
    node is the keyword of its kind, a dot and its name; the path of
    every other node, at any depth, is the path of its parent, a dot and
    its name; and no node has the empty string as its title. *)
Theorem extractLayers_path_scheme (d : Diagram) :
  forallb rootFollowsPathScheme (extractLayers d []) = true.
Proof.
  rewrite extractLayers_eq.
  assert (one : forall ty l,
             forallb rootFollowsPathScheme
                     (List.map (boardNode (keywordOf ty) ty []) (present l))
             = true).
  { intros ty l. induction (present l) as [|b bs IH]; simpl; [reflexivity|].
    rewrite IH, andb_true_r.
    unfold rootFollowsPathScheme, boardNode.
    cbn [followsPathScheme path name type title children nodePath].
    rewrite str_eqb_refl, titleProperty_not_empty. simpl.
    apply extractLayers_follow_scheme. destruct ty; discriminate. }
  repeat apply forallb_app_true.
  - apply (one layer).
  - apply (one scenario).
  - apply (one step).
Qed.

Lemma pathsOf_length kids :
  (forall kid, In kid kids ->
     List.length (preorderForest (extractLayers (snd kid) (kidPath kid)))
     = boardCount (snd kid)) ->
  List.length (pathsOf kids)
  = list_sum (List.map (fun kid => S (boardCount (snd kid))) kids).
Proof.
  induction kids as [|kid kids IH]; intros H; simpl; [reflexivity|].
  rewrite length_app, IH, H; auto.
  - now left.
  - intros k Hk. apply H. now right.
Qed.

Lemma list_sum_present (f : Diagram -> nat) l :
  list_sum (List.map (fun e => match e with Some b => f b | None => 0 end) l)
  = list_sum (List.map f (present l)).
Proof.
  induction l as [|[b|] l IH]; simpl; auto.
Qed.

Lemma extractLayers_count d :
  forall parentPath,
    List.length (flattenTargets (extractLayers d parentPath)) = boardCount d.
Proof.
  induction d as [nm sh ls ss ts Hls Hss Hts] using Diagram_tree_ind.
  intros parentPath.
  rewrite flattenTargets_preorder, preorder_extractLayers, pathsOf_length.
  - unfold kidsOf. cbn [d_layers d_scenarios d_steps boardCount].
    rewrite !map_app, !list_sum_app, !map_map. cbn [snd].
    rewrite !(list_sum_present (fun b => S (boardCount b))).
    now rewrite Nat.add_assoc.
  - intros kid Hkid. apply kidsOf_In in Hkid. destruct Hkid as [Hb _].
    cbn [d_layers d_scenarios d_steps] in Hb.
    apply onBoard_present in Hls, Hss, Hts.
    rewrite Forall_forall in Hls, Hss, Hts.
    rewrite <- flattenTargets_preorder.
    rewrite !in_app_iff in Hb.
    destruct Hb as [Hb|[Hb|Hb]];
      [apply (Hls _ Hb) | apply (Hss _ Hb) | apply (Hts _ Hb)].
Qed.

(** X6.  [flattenTargets] of the tree of a diagram has one target for
    each board below the root that is not null, whatever the depth: null
    entries of the compiler's collections give no target. *)
Theorem flattenTargets_one_per_board (d : Diagram) :
  List.length (flattenTargets (extractLayers d [])) = boardCount d.
Proof. apply extractLayers_count. Qed.

(* ================================================================== *)
(** ** More about extractTitle *)
(* ================================================================== *)

Lemma find_filter A (f g : A -> bool) l :
  (forall x, f x = true -> g x = true) ->
  find f (filter g l) = find f l.
Proof.
  intros H. induction l as [|x l IH]; simpl; [reflexivity|].
  destruct (g x) eqn:G; simpl.
  - now rewrite IH.
  - destruct (f x) eqn:F; [|exact IH]. apply H in F. congruence.
Qed.

(** X7.  Shapes of the reserved configuration name space never provide
    the title: [extractTitle] gives the same result when they are taken
    out of the shape list, also one whose identifier ends in [.title]. *)
Theorem extractTitle_skips_config nm shapes layers scenarios steps :
  extractTitle (mkDiagram nm shapes layers scenarios steps)
  = extractTitle
      (mkDiagram nm (filter (fun s => negb (isConfigShape s)) shapes)
                 layers scenarios steps)
  /\ (forall label,
        extractTitle
          (mkDiagram nm (mkShape (js "d2-config.title") (Some label) :: shapes)
                     layers scenarios steps)
        = extractTitle (mkDiagram nm shapes layers scenarios steps)).
Proof.
  split; [|reflexivity].
  unfold extractTitle. cbn [d_shapes].
  rewrite find_filter; [reflexivity|].
  intros s. unfold isTitleShape, isConfigShape.
  destruct (str_eqb (shape_id s) (js "d2-config")
            || startsWith (shape_id s) (js "d2-config.")); [discriminate|].
  reflexivity.
Qed.

(* ================================================================== *)
(** ** extractMarkdownTitle: one trimmed line *)
(* ================================================================== *)










Lemma newline_is_terminator : isLineTerminator newline = true.
Proof. reflexivity. Qed.





(* ================================================================== *)
(** ** buildFileSystem: the references and the file set *)
(* ================================================================== *)

Lemma forallb_snoc (f : N -> bool) l c :
  forallb f l = true -> f c = true -> forallb f (l ++ [c]) = true.
Proof. intros Hl Hc. rewrite forallb_app. simpl. now rewrite Hl, Hc. Qed.

(** The scan of a text whose part read so far is [before], and in a
    reference [before'], [@] and the reference read so far. *)
Lemma scanImports_sound content s :
  forall current,
    match current with
    | None => exists before, content = before ++ s
    | Some text =>
        forallb isRefChar text = true
        /\ (exists before, content = before ++ at_sign :: text ++ s)
        /\ (text = [] -> match s with
                         | c :: _ => isRefChar c = true
                         | [] => False
                         end)
    end ->
    forall ref, In ref (scanImports current s) -> isReferenceOf content ref.
Proof.
  induction s as [|c s IH]; intros current Hinv ref Href.
  - destruct current as [text|]; simpl in Href; [|contradiction].
    destruct Href as [<-|[]]. destruct Hinv as (Hchars & (before & E) & Hne).
    split; [intros ->; now apply Hne|]. split; [exact Hchars|].
    exists before, []. split; [exact E|exact I].
  - destruct current as [text|]; cbn [scanImports] in Href.
    + destruct Hinv as (Hchars & (before & E) & Hne).
      destruct (isRefChar c) eqn:Hc.
      * apply (IH (Some (text ++ [c]))); [|exact Href].
        split; [now apply forallb_snoc|]. split.
        -- exists before. rewrite E, <- app_assoc. reflexivity.
        -- intros H. now apply app_eq_nil in H.
      * destruct Href as [<-|Href].
        -- split; [intros ->; specialize (Hne eq_refl); simpl in Hne; congruence|].
           split; [exact Hchars|].
           exists before, (c :: s). split; [exact E|exact Hc].
        -- apply (IH None); [|exact Href].
           exists (before ++ at_sign :: text ++ [c]).
           rewrite E, <- !app_assoc. simpl. now rewrite <- app_assoc.
    + destruct Hinv as (before & E).
      destruct (N.eqb_spec c at_sign) as [->|Hne].
      * destruct s as [|d s']; [contradiction|].
        destruct (isRefChar d) eqn:Hd.
        -- apply (IH (Some [])); [|exact Href].
           split; [reflexivity|]. split; [exists before; exact E|].
           intros _. reflexivity.
        -- apply (IH None); [|exact Href].
           exists (before ++ [at_sign]). now rewrite E, <- app_assoc.
      * apply (IH None); [|exact Href].
        exists (before ++ [c]). now rewrite E, <- app_assoc.
Qed.

(** X9.  Every reference [buildFileSystem] takes from a file follows an
    [@] in its text, is not empty, holds no white space, semicolon or
    brace, and runs to the next such character or to the end. *)
Theorem importRefs_are_references (content : jsstring) :
  Forall (isReferenceOf content) (importRefs content).
Proof.
  apply Forall_forall. intros ref. unfold importRefs.
  apply scanImports_sound. exists []. reflexivity.
Qed.

Lemma setProperty_In o key value k v :
  In (k, v) (setProperty o key value) ->
  In (k, v) o \/ (k = key /\ v = value).
Proof.
  induction o as [|[k0 v0] o IH]; simpl.
  - intros [H|[]]. injection H as <- <-. now right.
  - destruct (str_eqb k0 key) eqn:E.
    + apply str_eqb_eq in E. subst k0.
      intros [H|H]; [injection H as <- <-; now right|left; now right].
    + intros [H|H]; [left; now left|].
      destruct (IH H) as [H'|H']; [left; now right|now right].
Qed.

Lemma has_false_iff set x : has set x = false <-> ~ In x set.
Proof.
  unfold has. split.
  - intros H Hin.
    assert (existsb (str_eqb x) set = true); [|congruence].
    apply existsb_exists. exists x. split; [exact Hin|apply str_eqb_refl].
  - intros H. destruct (existsb (str_eqb x) set) eqn:E; [|reflexivity].
    apply existsb_exists in E. destruct E as (y & Hy & E).
    apply str_eqb_eq in E. subst. contradiction.
Qed.

Section FsInvariant.

Variable Err : Type.
Variables resolve dirname : jsstring -> jsstring.
Variables join relative : jsstring -> jsstring -> jsstring.
Variable readFile : jsstring -> Err + jsstring.
Variable access : jsstring -> Err + unit.
Variable baseDir : jsstring.

Local Abbreviation State := (FsState Err).
Local Abbreviation Rec :=
  (jsstring -> State -> option (Completion Err unit * State)).

(** A property of the state that every step of [processFile] keeps. *)
Variable Inv : State -> Prop.
Hypothesis Inv_import_not_found :
  forall importRef relativePath st,
    Inv st -> Inv (print (WarnImportNotFound importRef relativePath) st).
Hypothesis Inv_unreadable :
  forall st p e,
    Inv st -> has (processed st) p = false -> readFile p = inl e ->
    Inv (print (WarnCouldNotRead p)
               (mkFsState (fs st) (processed st ++ [p]) (console st))).
Hypothesis Inv_read :
  forall st p content,
    Inv st -> has (processed st) p = false -> readFile p = inr content ->
    Inv (mkFsState (setProperty (fs st) (relative baseDir p) content)
                   (processed st ++ [p]) (console st)).

Definition keeps (rec : Rec) : Prop :=
  forall p st r st', Inv st -> rec p st = Some (r, st') -> Inv st'.

Lemma processImport_keeps (rec : Rec) currentDir relativePath importRef :
  keeps rec ->
  forall st r st',
    Inv st ->
    processImport join access rec currentDir relativePath importRef st
    = Some (r, st') ->
    Inv st'.
Proof.
  intros Hrec st r st' Hst. unfold processImport.
  assert (step : forall p s r1 s1,
             Inv s -> accessThenProcess access rec p s = Some (r1, s1) -> Inv s1).
  { intros p s r1 s1 Hs. unfold accessThenProcess.
    destruct (access p); [intros H; injection H as <- <-; exact Hs|].
    now apply Hrec. }
  destruct (accessThenProcess access rec _ st) as [[[u|e] st1]|] eqn:E1;
    [| |discriminate].
  - intros H. injection H as <- <-. exact (step _ _ _ _ Hst E1).
  - pose proof (step _ _ _ _ Hst E1) as H1.
    destruct (accessThenProcess access rec _ st1) as [[[u|e'] st2]|] eqn:E2;
      [| |discriminate]; intros H; injection H as <- <-.
    + exact (step _ _ _ _ H1 E2).
    + apply Inv_import_not_found. exact (step _ _ _ _ H1 E2).
Qed.

Lemma processImports_keeps (rec : Rec) currentDir relativePath refs :
  keeps rec ->
  forall st r st',
    Inv st ->
    processImports join access rec currentDir relativePath refs st
    = Some (r, st') ->
    Inv st'.
Proof.
  intros Hrec. induction refs as [|ref refs IH]; intros st r st' Hst; simpl.
  - intros H. injection H as <- <-. exact Hst.
  - destruct (processImport join access rec currentDir relativePath ref st)
      as [[[u|e] st1]|] eqn:E; [| |discriminate].
    + apply IH. eapply processImport_keeps; eauto.
    + intros H. injection H as <- <-.
      eapply processImport_keeps; eauto.
Qed.

Lemma processFile_keeps depth :
  keeps (processFile resolve dirname join relative readFile access baseDir
                     depth).
Proof.
  induction depth as [|depth IH]; intros p st r st' Hst; simpl;
    [discriminate|].
  destruct (has (processed st) (resolve p)) eqn:Hhas.
  { intros H. injection H as <- <-. exact Hst. }
  destruct (readFile (resolve p)) as [e|content] eqn:Hread.
  { intros H. injection H as <- <-.
    apply Inv_unreadable with (e := e); assumption. }
  intros H. eapply processImports_keeps; [exact IH| |exact H].
  apply Inv_read; assumption.
Qed.

End FsInvariant.

Section FileSet.

Variable Err : Type.
Variables resolve dirname : jsstring -> jsstring.
Variables join relative : jsstring -> jsstring -> jsstring.
Variable readFile : jsstring -> Err + jsstring.
Variable access : jsstring -> Err + unit.

Local Abbreviation build :=
  (buildFileSystem resolve dirname join relative readFile access).

(** X10.  Every entry of the file set [buildFileSystem] returns is a
    file that was read: its key is the path of the file relative to the
    directory of the entry file and its value is the content read. *)
Theorem buildFileSystem_entries_were_read (depth : nat)
  (entryPath : jsstring) (out out' : list (Message Err)) (fsMap : Record_) :
  build depth entryPath out = Some (Returned fsMap, out') ->
  forall key content,
    In (key, content) fsMap ->
    exists p, key = relative (dirname entryPath) p
              /\ readFile p = inr content.
Proof.
  unfold buildFileSystem.
  destruct (processFile resolve dirname join relative readFile access
                        (dirname entryPath) depth entryPath
                        (mkFsState [] [] out))
    as [[[u|e] st]|] eqn:E; [|discriminate|discriminate].
  intros H. injection H as <- _.
  pose (Inv := fun s : FsState Err =>
                 forall key content, In (key, content) (fs s) ->
                   exists p, key = relative (dirname entryPath) p
                             /\ readFile p = inr content).
  change (Inv st).
  eapply (@processFile_keeps Err resolve dirname join relative readFile
            access (dirname entryPath) Inv); [| | | |exact E].
  - intros importRef relativePath s Hs. exact Hs.
  - intros s p e Hs _ _. exact Hs.
  - intros s p content Hs _ Hread key value Hin.
    cbn [fs] in Hin. apply setProperty_In in Hin.
    destruct Hin as [Hin|[-> ->]]; [now apply Hs|].
    exists p. split; [reflexivity|exact Hread].
  - intros key content [].
Qed.

(** X11.  During one call of [buildFileSystem] no path is reported as
    unreadable twice: a path is added to the processed set before it is
    read, and a path of that set is never read again. *)
Theorem buildFileSystem_warns_once (depth : nat) (entryPath : jsstring)
  (out out' : list (Message Err)) (result : Completion Err Record_) :
  couldNotRead out = [] ->
  build depth entryPath out = Some (result, out') ->
  NoDup (couldNotRead out').
Proof.
  intros Hout. unfold buildFileSystem.
  destruct (processFile resolve dirname join relative readFile access
                        (dirname entryPath) depth entryPath
                        (mkFsState [] [] out))
    as [[r st]|] eqn:E; [|discriminate].
  intros H.
  assert (Eout : out' = console st) by (destruct r; now injection H).
  subst out'. clear H.
  pose (Inv := fun s : FsState Err =>
                 NoDup (couldNotRead (console s))
                 /\ incl (couldNotRead (console s)) (processed s)).
  assert (Hst : Inv st).
  { eapply (@processFile_keeps Err resolve dirname join relative readFile
              access (dirname entryPath) Inv); [| | | |exact E].
    - intros importRef relativePath s [H1 H2]. unfold Inv, couldNotRead.
      cbn [print console processed]. rewrite flat_map_app. simpl.
      rewrite app_nil_r. now split.
    - intros s p e [H1 H2] Hhas _. unfold Inv, couldNotRead.
      cbn [print console processed]. rewrite flat_map_app. simpl.
      apply has_false_iff in Hhas. split.
      + apply NoDup_app; [exact H1|constructor; [tauto|constructor]|].
        intros x Hx [<-|[]]. apply Hhas. now apply H2.
      + intros x Hx. apply in_app_or in Hx. apply in_or_app.
        destruct Hx as [Hx|Hx]; [left; now apply H2|now right].
    - intros s p content [H1 H2] _ _. unfold Inv.
      cbn [console processed]. split; [exact H1|].
      intros x Hx. apply in_or_app. left. now apply H2.
    - unfold Inv. cbn [console processed]. rewrite Hout.
      split; [constructor|intros x []]. }
  exact (proj1 Hst).
Qed.

(** X12.  When the entry file itself cannot be read, [buildFileSystem]
    does not reject: it returns the empty file set and prints one
    warning that names the path. *)
Theorem buildFileSystem_unreadable_entry (depth : nat) (entryPath : jsstring)
  (out : list (Message Err)) (e : Err) :
  readFile (resolve entryPath) = inl e ->
  build (S depth) entryPath out
  = Some (Returned [], out ++ [WarnCouldNotRead (resolve entryPath)]).
Proof.
  intros Hread. unfold buildFileSystem. simpl. now rewrite Hread.
Qed.

End FileSet.

Lemma buildFileSystem_entries_were_read_witness :
  exists p,
    js "b.d2" = PosixPath.relative Examples.root
                  (PosixPath.dirname (js "/p/a.d2")) p
    /\ Examples.readFileOn MoreExamples.cycleDisk p = inr (js "...@a").
Proof.
  apply (@buildFileSystem_entries_were_read Examples.RunError
           (PosixPath.resolve Examples.root) PosixPath.dirname
           PosixPath.join (PosixPath.relative Examples.root)
           (Examples.readFileOn MoreExamples.cycleDisk)
           (Examples.accessOn MoreExamples.cycleDisk)
           3 (js "/p/a.d2") [] []
           [(js "a.d2", js "...@b"); (js "b.d2", js "...@a")]).
  - reflexivity.
  - right. left. reflexivity.
Defined.

Lemma buildFileSystem_warns_once_witness :
  NoDup (couldNotRead
           [@WarnCouldNotRead Examples.RunError (js "/p/sub")]).
Proof.
  apply (@buildFileSystem_warns_once Examples.RunError
           (PosixPath.resolve Examples.root) PosixPath.dirname
           PosixPath.join (PosixPath.relative Examples.root)
           (Examples.readFileOn MoreExamples.directoryDisk)
           (MoreExamples.accessWithDirectories [js "/p/sub"]
              MoreExamples.directoryDisk)
           2 (js "/p/a.d2") [] _
           (Returned [(js "a.d2", js "...@sub
...@sub")])).
  - reflexivity.
  - reflexivity.
Defined.

Lemma buildFileSystem_unreadable_entry_witness :
  Examples.buildOn MoreExamples.emptyDisk 1 (js "/p/a.d2")
  = Some (Returned [], [WarnCouldNotRead (js "/p/a.d2")]).
Proof.
  apply (@buildFileSystem_unreadable_entry Examples.RunError
           (PosixPath.resolve Examples.root) PosixPath.dirname
           PosixPath.join (PosixPath.relative Examples.root)
           (Examples.readFileOn MoreExamples.emptyDisk)
           (Examples.accessOn MoreExamples.emptyDisk)
           0 (js "/p/a.d2") []
           (Examples.Fs (PosixPath.ENOENT (js "/p/a.d2")))).
  reflexivity.
Defined.

(* ================================================================== *)
(** ** main: what the written document holds *)
(* ================================================================== *)

Lemma getProperty_set_same o key value :
  getProperty (setProperty o key value) key = Some value.
Proof.
  induction o as [|[k v] o IH]; simpl.
  - now rewrite str_eqb_refl.
  - destruct (str_eqb k key) eqn:E; simpl; rewrite E; [reflexivity|exact IH].
Qed.

Lemma getProperty_set_other o key value k :
  k <> key -> getProperty (setProperty o key value) k = getProperty o k.
Proof.
  intros Hne. induction o as [|[k0 v0] o IH]; simpl.
  - destruct (str_eqb key k) eqn:E; [|reflexivity].
    apply str_eqb_eq in E. congruence.
  - destruct (str_eqb k0 key) eqn:E; simpl.
    + apply str_eqb_eq in E. subst k0.
      destruct (str_eqb key k) eqn:E'; [|reflexivity].
      apply str_eqb_eq in E'. congruence.
    + now rewrite IH.
Qed.

Lemma setProperty_keys o key value k :
  In k (List.map fst (setProperty o key value))
  <-> In k (List.map fst o) \/ k = key.
Proof.
  induction o as [|[k0 v0] o IH]; simpl.
  - intuition.
  - destruct (str_eqb k0 key) eqn:E; simpl.
    + apply str_eqb_eq in E. subst k0. intuition.
    + rewrite IH. intuition.
Qed.

Lemma setProperty_keys_NoDup o key value :
  NoDup (List.map fst o) -> NoDup (List.map fst (setProperty o key value)).
Proof.
  induction o as [|[k0 v0] o IH]; simpl; intros H.
  - constructor; [tauto|constructor].
  - inversion H as [|? ? Hk Ho]; subst.
    destruct (str_eqb k0 key) eqn:E; simpl; [now constructor|].
    constructor; [|now apply IH].
    rewrite setProperty_keys. intros [Hin| ->]; [contradiction|].
    rewrite str_eqb_refl in E. discriminate.
Qed.

Section Document.

Variable Err : Type.
Variables resolve dirname basename : jsstring -> jsstring.
Variables join relative : jsstring -> jsstring -> jsstring.
Variable readFile : jsstring -> Err + jsstring.
Variable access : jsstring -> Err + unit.
Variable RenderOptions : Type.
Variable compile : Record_ -> jsstring -> Err + (Diagram * RenderOptions).
Variable render : Diagram -> RenderOptions -> jsstring -> Err + jsstring.
Variable writeFails : jsstring -> jsstring -> option Err.
Variables inputPath outputPath title : jsstring.

Local Abbreviation run :=
  (main resolve dirname basename join relative readFile access
        compile render writeFails inputPath outputPath title).

(** The images of a record: each key is the root or a target, and has
    the normalised image the renderer gives for it. *)
Definition imagesOf (d : Diagram) (ro : RenderOptions)
  (targets : list jsstring) (svgs : Record_) : Prop :=
  NoDup (List.map fst svgs)
  /\ (forall k, In k (List.map fst svgs) -> k = [] \/ In k targets)
  /\ (forall k image, getProperty svgs k = Some image ->
        exists svg, render d ro k = inr svg
                    /\ image = ensureSvgDimensions svg).

Lemma renderTargets_images d ro all targets :
  forall svgs (w : World Err) svgs' w',
    incl targets all ->
    imagesOf d ro all svgs ->
    renderTargets render d ro targets svgs w = (Returned svgs', w') ->
    imagesOf d ro all svgs'
    /\ (forall k, In k (List.map fst svgs) -> In k (List.map fst svgs'))
    /\ (forall t, In t targets -> In t (List.map fst svgs')).
Proof.
  induction targets as [|t targets IH]; intros svgs w svgs' w' Hincl Hsvgs;
    simpl.
  - intros H. injection H as <- _.
    split; [exact Hsvgs|]. split; [auto|intros t []].
  - destruct (render d ro t) as [e|svg] eqn:Hr; [discriminate|].
    intros H. apply IH in H.
    + destruct H as (Himg & Hkeep & Hin). split; [exact Himg|]. split.
      * intros k Hk. apply Hkeep. apply setProperty_keys. now left.
      * intros t' [<-|Ht']; [|now apply Hin].
        apply Hkeep. apply setProperty_keys. now right.
    + intros x Hx. apply Hincl. now right.
    + destruct Hsvgs as (Hnd & Hkeys & Hvals). repeat split.
      * now apply setProperty_keys_NoDup.
      * intros k Hk. apply setProperty_keys in Hk.
        destruct Hk as [Hk| ->]; [now apply Hkeys|].
        right. apply Hincl. now left.
      * intros k image Hget.
        destruct (str_eqb k t) eqn:E.
        -- apply str_eqb_eq in E. subst k.
           rewrite getProperty_set_same in Hget. injection Hget as <-.
           exists svg. split; [exact Hr|reflexivity].
        -- rewrite getProperty_set_other in Hget; [now apply Hvals|].
           intros ->. rewrite str_eqb_refl in E. discriminate.
Qed.

Lemma getProperty_In_key o k :
  In k (List.map fst o) -> exists v, getProperty o k = Some v.
Proof.
  induction o as [|[k0 v0] o IH]; simpl; [tauto|].
  destruct (str_eqb k0 k) eqn:E; [eauto|].
  intros [->|H]; [rewrite str_eqb_refl in E; discriminate|now apply IH].
Qed.

(** X13.  When [main] returns, the file it wrote is the document
    generated from the title, the layer tree of the compiled diagram and
    a record of images that has exactly one entry for the root and one
    for each flattened target, each holding the normalised image the
    renderer gave for that key. *)
Theorem main_document_holds_every_target (depth : nat) (w w' : World Err) :
  run depth w = Some (Returned tt, w') ->
  exists fsMap d ro svgs,
    compile fsMap (basename inputPath) = inr (d, ro)
    /\ written w'
       = (outputPath,
          generateHtml (mkData title (extractLayers d []) svgs))
         :: written w
    /\ NoDup (List.map fst svgs)
    /\ (forall k, In k (List.map fst svgs)
                  <-> k = [] \/ In k (flattenTargets (extractLayers d [])))
    /\ (forall k, In k ([] :: flattenTargets (extractLayers d [])) ->
          exists svg, render d ro k = inr svg
                      /\ getProperty svgs k = Some (ensureSvgDimensions svg)).
Proof.
  unfold main.
  destruct (buildFileSystem resolve dirname join relative readFile access
                            depth inputPath _) as [[[fsMap|e] out']|];
    [|discriminate|discriminate].
  destruct (compile fsMap (basename inputPath)) as [e|[d ro]] eqn:Ec;
    [discriminate|].
  destruct (render d ro []) as [e|rootSvg] eqn:Er; [discriminate|].
  match goal with
  | |- context [renderTargets render d ro ?ts ?svgs ?w0] =>
      pose proof (renderTargets_written render d ro ts svgs w0) as Hw;
      pose proof (@renderTargets_images d ro ts ts svgs w0) as Himg;
      destruct (renderTargets render d ro ts svgs w0) as [[svgs'|e] w1];
        [|discriminate]
  end.
  simpl in Hw.
  destruct (writeFails outputPath _) as [e|]; [discriminate|].
  intros H. injection H as <-.
  destruct (Himg svgs' w1) as ((Hnd & Hkeys & Hvals) & Hkeep & Hin).
  - apply incl_refl.
  - repeat split.
    + simpl. constructor; [tauto|constructor].
    + simpl. intros k [<-|[]]. now left.
    + intros k image. simpl.
      destruct k as [|c k]; simpl; [|discriminate].
      intros Hget. injection Hget as <-.
      exists rootSvg. split; [exact Er|reflexivity].
  - reflexivity.
  - exists fsMap, d, ro, svgs'.
    split; [exact Ec|]. split; [simpl; now rewrite Hw|].
    split; [exact Hnd|].
    assert (Hall : forall k, k = [] \/ In k (flattenTargets (extractLayers d []))
                             -> In k (List.map fst svgs')).
    { intros k [->|Hk]; [apply Hkeep; now left|now apply Hin]. }
    split.
    + intros k. split; [apply Hkeys|apply Hall].
    + intros k Hk.
      assert (Hk' : In k (List.map fst svgs')).
      { apply Hall. destruct Hk as [<-|Hk]; [now left|now right]. }
      destruct (getProperty_In_key _ _ Hk') as (image & Hget).
      destruct (Hvals _ _ Hget) as (svg & Hr & ->).
      exists svg. split; [exact Hr|exact Hget].
Qed.

End Document.

Lemma main_document_holds_every_target_witness :
  let w' :=
    MoreExamples.worldAfter
      (Examples.mainOn Examples.twoFileDisk Examples.authCompile
                       MoreExamples.constantRender 2 (mkWorld [] [])) in
  exists fsMap d ro svgs,
    Examples.authCompile fsMap (PosixPath.basename (js "/p/a.d2"))
    = inr (d, ro)
    /\ written w'
       = (js "/p/a.html",
          generateHtml (mkData (js "a") (extractLayers d []) svgs))
         :: []
    /\ NoDup (List.map fst svgs)
    /\ (forall k, In k (List.map fst svgs)
                  <-> k = [] \/ In k (flattenTargets (extractLayers d [])))
    /\ (forall k, In k ([] :: flattenTargets (extractLayers d [])) ->
          exists svg, MoreExamples.constantRender d ro k = inr svg
                      /\ getProperty svgs k = Some (ensureSvgDimensions svg)).
Proof.
  intros w'.
  apply (@main_document_holds_every_target Examples.RunError
           (PosixPath.resolve Examples.root) PosixPath.dirname
           PosixPath.basename PosixPath.join
           (PosixPath.relative Examples.root)
           (Examples.readFileOn Examples.twoFileDisk)
           (Examples.accessOn Examples.twoFileDisk)
           unit Examples.authCompile MoreExamples.constantRender
           (fun _ _ => None) (js "/p/a.d2") (js "/p/a.html") (js "a")
           2 (mkWorld [] []) w').
  vm_compute. reflexivity.
Defined.

(* ================================================================== *)
(** ** The output path of the script *)
(* ================================================================== *)

Lemma endsWith_app s p : endsWith (s ++ p) p = true.
Proof. unfold endsWith. rewrite rev_app_distr. apply startsWith_app. Qed.

Lemma replaceD2Suffix_stem stem :
  replaceD2Suffix (stem ++ js ".d2") = stem ++ js ".html".
Proof.
  unfold replaceD2Suffix. rewrite endsWith_app.
  rewrite length_app. change (List.length (js ".d2")) with 3.
  rewrite Nat.add_sub, firstn_app, Nat.sub_diag, firstn_all. simpl.
  now rewrite app_nil_r.
Qed.

Section OutputPath.

Variable Err : Type.
Variables resolve dirname basename : jsstring -> jsstring.
Variable basenameWithout : jsstring -> jsstring -> jsstring.
Variables join relative : jsstring -> jsstring -> jsstring.
Variable readFile : jsstring -> Err + jsstring.
Variable access : jsstring -> Err + unit.
Variable RenderOptions : Type.
Variable compile : Record_ -> jsstring -> Err + (Diagram * RenderOptions).
Variable render : Diagram -> RenderOptions -> jsstring -> Err + jsstring.
Variable writeFails : jsstring -> jsstring -> option Err.

Lemma main_returned_writes inputPath outputPath title depth
  (w w' : World Err) :
  main resolve dirname basename join relative readFile access
       compile render writeFails inputPath outputPath title depth w
  = Some (Returned tt, w') ->
  exists html, written w' = (outputPath, html) :: written w.
Proof.
  unfold main.
  destruct (buildFileSystem resolve dirname join relative readFile access
                            depth inputPath _) as [[[fsMap|e] out']|];
    [|discriminate|discriminate].
  destruct (compile fsMap (basename inputPath)) as [e|[d ro]];
    [discriminate|].
  destruct (render d ro []) as [e|rootSvg]; [discriminate|].
  match goal with
  | |- context [renderTargets render d ro ?ts ?svgs ?w0] =>
      pose proof (renderTargets_written render d ro ts svgs w0) as Hw;
      destruct (renderTargets render d ro ts svgs w0) as [[svgs'|e] w1];
        [|discriminate]
  end.
  simpl in Hw.
  destruct (writeFails outputPath _) as [e|]; [discriminate|].
  intros H. injection H as <-. eexists. simpl. now rewrite Hw.
Qed.

(** X14.  Without the output option the script writes next to its
    input: for an input path that ends in [.d2] the output path has
    [.html] in its place; for any other input path the output path is
    the input path itself, so a run that succeeds writes the document
    over the input file. *)
Theorem prerender_default_output_path (positional : jsstring)
  (title : option jsstring) (depth : nat) (w w' : World Err) :
  (forall stem,
      resolve positional = stem ++ js ".d2" ->
      outputPathOf resolve None (resolve positional) = stem ++ js ".html")
  /\ (endsWith (resolve positional) (js ".d2") = false ->
      prerender resolve dirname basename basenameWithout join relative
                readFile access compile render writeFails
                positional None title depth w
      = Some (Returned tt, w') ->
      exists html, written w' = (resolve positional, html) :: written w).
Proof.
  split.
  - intros stem ->. apply replaceD2Suffix_stem.
  - intros Hext. unfold prerender, outputPathOf, replaceD2Suffix.
    rewrite Hext. apply main_returned_writes.
Qed.

End OutputPath.

Lemma prerender_default_output_path_witness :
  exists html,
    written
      (MoreExamples.worldAfter
         (MoreExamples.prerenderOn MoreExamples.textDisk Examples.authCompile
            MoreExamples.constantRender (js "/p/diagram.txt") None
            (Some (js "t")) 1 (mkWorld [] [])))
    = (js "/p/diagram.txt", html) :: [].
Proof.
  apply (proj2 (@prerender_default_output_path Examples.RunError
           (PosixPath.resolve Examples.root) PosixPath.dirname
           PosixPath.basename MoreExamples.basenameWithout PosixPath.join
           (PosixPath.relative Examples.root)
           (Examples.readFileOn MoreExamples.textDisk)
           (Examples.accessOn MoreExamples.textDisk)
           unit Examples.authCompile MoreExamples.constantRender
           (fun _ _ => None) (js "/p/diagram.txt") (Some (js "t")) 1
           (mkWorld [] []) _)).
  - reflexivity.
  - vm_compute. reflexivity.
Defined.

(* ================================================================== *)
(** ** The first path tried for an import *)
(* ================================================================== *)

(** X15.  The path under which an import is looked for first always has
    the [.d2] extension, in the prerender script and in the loader of the
    live viewer alike. *)
Theorem first_import_path_has_extension :
  (forall join currentDir importRef,
      endsWith (importPathOf join currentDir importRef) (js ".d2") = true)
  /\ (forall content,
        forallb (fun p => endsWith p (js ".d2")) (parseD2Imports content)
        = true).
Proof.
  split.
  - intros join currentDir importRef. unfold importPathOf.
    destruct (endsWith (join currentDir importRef) (js ".d2")) eqn:E;
      [exact E|apply endsWith_app].
  - intros content. apply forallb_forall. intros p Hp.
    unfold parseD2Imports in Hp. apply in_map_iff in Hp.
    destruct Hp as (q & <- & _). unfold withD2Extension.
    destruct (endsWith q (js ".d2")) eqn:E; [exact E|apply endsWith_app].
Qed.

(* ================================================================== *)
(** ** buildLayerTree of the script that calls the d2 command *)
(* ================================================================== *)

Lemma splitOn_dot_pieces t :
  match splitOn dot t with
  | [] => False
  | [_] => hasDot t = false
  | _ :: _ :: _ => hasDot t = true
  end.
Proof.
  induction t as [|x t IH]; cbn [splitOn]; [reflexivity|].
  unfold hasDot in *. cbn [existsb]. rewrite (N.eqb_sym dot x).
  destruct (N.eqb x dot); simpl.
  - destruct (splitOn dot t); [contradiction|reflexivity].
  - destruct (splitOn dot t) as [|first [|second more]];
      [contradiction|exact IH|exact IH].
Qed.

Lemma buildLayerTree_fold targets :
  forall nodes,
    fold_left pushTarget targets nodes
    = nodes ++ fold_left pushTarget targets [].
Proof.
  induction targets as [|t targets IH]; intros nodes; simpl.
  - now rewrite app_nil_r.
  - rewrite IH, (IH (pushTarget [] t)). unfold pushTarget.
    destruct (splitOn 46%N t) as [|ty [|nm more]];
      rewrite ?app_nil_r; try reflexivity.
    now rewrite <- app_assoc.
Qed.

(** X16.  [buildLayerTree] turns the targets that hold a dot, in order,
    into nodes without children and without a title whose path is the
    target; a target without a dot gives no node.  So flattening the tree
    gives those targets back. *)
Theorem buildLayerTree_keeps_targets (targets : list jsstring) :
  List.map path (buildLayerTree targets) = filter hasDot targets
  /\ flattenTargets (buildLayerTree targets) = filter hasDot targets
  /\ Forall (fun n => children n = [] /\ title n = None)
            (buildLayerTree targets).
Proof.
  unfold buildLayerTree.
  induction targets as [|t targets (IH1 & IH2 & IH3)]; simpl.
  - repeat split. constructor.
  - rewrite buildLayerTree_fold.
    pose proof (splitOn_dot_pieces t) as Ht.
    unfold pushTarget at 1 3 5. change 46%N with dot.
    destruct (splitOn dot t) as [|ty [|nm more]]; [contradiction| |];
      rewrite Ht; cbn [app]; [now repeat split|].
    repeat split.
    + simpl. now rewrite IH1.
    + rewrite flattenTargets_cons. simpl. now rewrite IH2.
    + constructor; [now split|exact IH3].
Qed.

(* ================================================================== *)
(** ** escapeHtml loses nothing *)
(* ================================================================== *)

Lemma entityEscaped_cons x a y b :
  entityEscaped x ++ a = entityEscaped y ++ b -> x = y /\ a = b.
Proof.
  unfold entityEscaped.
  destruct (N.eqb_spec x ampersand) as [->|Hxa];
    [|destruct (N.eqb_spec x lessThanSign) as [->|Hxl];
      [|destruct (N.eqb_spec x greaterThanSign) as [->|Hxg];
        [|destruct (N.eqb_spec x dquote) as [->|Hxq]]]];
  (destruct (N.eqb_spec y ampersand) as [->|Hya];
    [|destruct (N.eqb_spec y lessThanSign) as [->|Hyl];
      [|destruct (N.eqb_spec y greaterThanSign) as [->|Hyg];
        [|destruct (N.eqb_spec y dquote) as [->|Hyq]]]]);
  intros H; cbn in H; inversion H; subst;
  first [ now split
        | exfalso;
          match goal with
          | N : ?c <> _ |- _ => apply N; reflexivity
          end
        | discriminate ].
Qed.

(** X17.  [escapeHtml] loses nothing: two titles with the same escaped
    text are the same title. *)
Theorem escapeHtml_injective (a b : jsstring) :
  escapeHtml a = escapeHtml b -> a = b.
Proof.
  rewrite !escapeHtml_flat_map. revert b.
  induction a as [|x a IH]; intros [|y b]; simpl; intros H.
  - reflexivity.
  - exfalso. symmetry in H. apply app_eq_nil in H. destruct H as [H _].
    apply (f_equal (@List.length N)) in H. unfold entityEscaped in H.
    destruct (N.eqb y ampersand), (N.eqb y lessThanSign),
      (N.eqb y greaterThanSign), (N.eqb y dquote); discriminate H.
  - exfalso. apply app_eq_nil in H. destruct H as [H _].
    apply (f_equal (@List.length N)) in H. unfold entityEscaped in H.
    destruct (N.eqb x ampersand), (N.eqb x lessThanSign),
      (N.eqb x greaterThanSign), (N.eqb x dquote); discriminate H.
  - apply entityEscaped_cons in H. destruct H as [-> H].
    f_equal. now apply IH.
Qed.

Lemma escapeHtml_injective_witness : js "a<b" = js "a<b".
Proof.
  apply (@escapeHtml_injective (js "a<b") (js "a<b")). reflexivity.
Defined.

(* ================================================================== *)
(** ** The loader of the live viewer *)
(* ================================================================== *)

Lemma str_eqb_neq a b : a <> b -> str_eqb a b = false.
Proof.
  intros H. destruct (str_eqb a b) eqn:E; [|reflexivity].
  apply str_eqb_eq in E. contradiction.
Qed.

Section LoadProperties.

Variable Err : Type.
Variable resolve2 : jsstring -> jsstring -> jsstring.
Variable dirname : jsstring -> jsstring.
Variable join : jsstring -> jsstring -> jsstring.
Variable readFile : jsstring -> Err + jsstring.
Variable watchDir : jsstring.

Local Abbreviation load :=
  (loadFileWithImports resolve2 dirname join readFile watchDir).

(** Every entry of the file set is a file read under the watch
    directory. *)
Definition wereRead (fsMap : Record_) : Prop :=
  forall key content,
    In (key, content) fsMap ->
    readFile (resolve2 watchDir key) = inr content.

Lemma loadStep_wereRead item st :
  wereRead (load_fs st) ->
  wereRead (load_fs (loadStep resolve2 dirname join readFile watchDir
                              item st)).
Proof.
  intros Hst. unfold loadStep.
  destruct (member _ _ || member _ _); [exact Hst|].
  destruct (readFile _) as [e|content] eqn:Hread; cbn [load_fs];
    [exact Hst|].
  intros key value Hin. apply setProperty_In in Hin.
  destruct Hin as [Hin|[-> ->]]; [now apply Hst|exact Hread].
Qed.

Lemma loadLoop_wereRead turns :
  forall st st',
    wereRead (load_fs st) ->
    loadLoop resolve2 dirname join readFile watchDir turns st = Some st' ->
    wereRead (load_fs st').
Proof.
  induction turns as [|turns IH]; intros st st' Hst; simpl.
  - destruct (load_queue st); [|discriminate].
    intros H. now injection H as <-.
  - destruct (load_queue st) as [|item queue].
    + intros H. now injection H as <-.
    + apply IH. apply loadStep_wereRead. exact Hst.
Qed.

(** X18.  Every entry of the file set [loadFileWithImports] returns
    was read from the path that resolving its key against the watch
    directory gives: the content of that path is the value.  Nothing
    keeps that path inside the watch directory: a key can begin with
    [../]. *)
Theorem loadFileWithImports_entries_were_read (turns : nat)
  (entryPath : jsstring) (fsMap : Record_) :
  load turns entryPath = Some fsMap ->
  forall key content,
    In (key, content) fsMap ->
    readFile (resolve2 watchDir key) = inr content.
Proof.
  unfold loadFileWithImports.
  destruct (loadLoop resolve2 dirname join readFile watchDir turns _)
    as [st|] eqn:E; [|discriminate].
  intros H. injection H as <-.
  eapply loadLoop_wereRead; [|exact E]. intros key content [].
Qed.

(** X19.  The fall-back of [loadFileWithImports].  A file of a
    subdirectory imports one path; the path relative to the directory of
    the file cannot be read, the same path relative to the watch
    directory can, and that file imports nothing.  Then three turns of the
    loop are enough, and the file set holds the entry and the file found
    under the watch directory, the latter under the path as the import
    wrote it. *)
Theorem loadFileWithImports_falls_back_to_root (turns : nat)
  (entryPath importPath entryContent importContent : jsstring) (e : Err) :
  let resolvedImport := resolvedImportOf dirname join entryPath importPath in
  startsWith entryPath (js "/") = false ->
  startsWith importPath (js "/") = false ->
  startsWith resolvedImport (js "/") = false ->
  resolvedImport <> importPath ->
  resolvedImport <> entryPath ->
  importPath <> entryPath ->
  readFile (resolve2 watchDir entryPath) = inr entryContent ->
  parseD2Imports entryContent = [importPath] ->
  readFile (resolve2 watchDir resolvedImport) = inl e ->
  readFile (resolve2 watchDir importPath) = inr importContent ->
  parseD2Imports importContent = [] ->
  load (3 + turns) entryPath
  = Some [(entryPath, entryContent); (importPath, importContent)].
Proof.
  intros resolvedImport HsE HsI HsR Hri Hre Hie HrE HpE HrR HrI HpI.
  assert (first :
    loadStep resolve2 dirname join readFile watchDir (mkItem entryPath None)
             (mkLoadState [] [] [] [])
    = mkLoadState [(entryPath, entryContent)]
                  [mkItem resolvedImport (Some [importPath])]
                  [entryPath] []).
  { unfold loadStep. cbn [item_path]. rewrite HsE.
    cbn [load_seen load_failed load_fs load_queue member existsb orb].
    rewrite HrE, HpE. cbn [fold_left app setProperty]. unfold queueImport.
    fold resolvedImport. cbn [member existsb orb negb andb app].
    rewrite (str_eqb_neq Hre), (str_eqb_neq Hri). reflexivity. }
  assert (second :
    loadStep resolve2 dirname join readFile watchDir
             (mkItem resolvedImport (Some [importPath]))
             (mkLoadState [(entryPath, entryContent)] [] [entryPath] [])
    = mkLoadState [(entryPath, entryContent)]
                  [mkItem importPath (Some [])]
                  [entryPath] [resolvedImport]).
  { unfold loadStep. cbn [item_path]. rewrite HsR.
    cbn [load_seen load_failed load_fs load_queue member existsb orb
         item_alternatives].
    rewrite (str_eqb_neq Hre), HrR. reflexivity. }
  assert (third :
    loadStep resolve2 dirname join readFile watchDir
             (mkItem importPath (Some []))
             (mkLoadState [(entryPath, entryContent)] [] [entryPath]
                          [resolvedImport])
    = mkLoadState [(entryPath, entryContent); (importPath, importContent)]
                  [] [entryPath; importPath] [resolvedImport]).
  { unfold loadStep. cbn [item_path]. rewrite HsI.
    cbn [load_seen load_failed load_fs load_queue member existsb orb
         item_alternatives].
    rewrite (str_eqb_neq Hie), (str_eqb_neq (fun E => Hri (eq_sym E))).
    cbn [orb]. rewrite HrI, HpI. cbn [fold_left setProperty app].
    rewrite (str_eqb_neq (fun E => Hie (eq_sym E))). reflexivity. }
  unfold loadFileWithImports.
  change (3 + turns) with (S (S (S turns))).
  cbn [loadLoop load_queue load_fs load_seen load_failed].
  rewrite first.
  cbn [loadLoop load_queue load_fs load_seen load_failed].
  rewrite second.
  cbn [loadLoop load_queue load_fs load_seen load_failed].
  rewrite third.
  destruct turns; reflexivity.
Qed.

End LoadProperties.

Lemma loadFileWithImports_entries_were_read_witness :
  PosixPath.readFile MoreExamples.escapeDisk
    (PosixPath.resolve (js "/w") (js "../secret.d2")) = inr (js "top").
Proof.
  apply (@loadFileWithImports_entries_were_read PosixPath.FsError
           (fun dir p => PosixPath.resolve dir p) PosixPath.dirname
           PosixPath.join (PosixPath.readFile MoreExamples.escapeDisk)
           (js "/w") 2 (js "a.d2")
           [(js "a.d2", js "...@../secret"); (js "../secret.d2", js "top")]).
  - reflexivity.
  - right. left. reflexivity.
Defined.

Lemma loadFileWithImports_falls_back_to_root_witness :
  MoreExamples.loadOn MoreExamples.watchDisk 3 (js "sub/a.d2")
  = Some [(js "sub/a.d2", js "x: @lib/x"); (js "lib/x.d2", js "shape")].
Proof.
  apply (@loadFileWithImports_falls_back_to_root PosixPath.FsError
           (fun dir p => PosixPath.resolve dir p) PosixPath.dirname
           PosixPath.join (PosixPath.readFile MoreExamples.watchDisk)
           (js "/w") 0 (js "sub/a.d2") (js "lib/x.d2")
           (js "x: @lib/x") (js "shape")
           (PosixPath.ENOENT (js "/w/sub/lib/x.d2")));
    try reflexivity;
    intros E; vm_compute in E; discriminate E.
Defined.

(* ================================================================== *)
(** ** Navigation in the embedded viewer *)
(* ================================================================== *)

Lemma layerPattern_stripRoot href :
  layerPatternTest href = true -> startsWithKeyword (stripRoot href) = true.
Proof.
  unfold layerPatternTest, stripRoot. intros H.
  destruct (startsWith href (js "root.")) eqn:Er.
  - simpl in H. apply orb_true_iff in H. destruct H as [H|H]; [exact H|].
    apply keyword_not_root in H. congruence.
  - exact H.
Qed.

(** X20.  A click in the embedded viewer never selects a target the
    document has no image for: the target stays as it is, or the new
    target begins with a collection keyword and a dot, the document holds
    an image for it that is not empty, and that image, with its
    dimensions ensured, is what the viewer shows next. *)
Theorem embedHandleDiagramClick_needs_image (data : D2DiagramData)
  (href : option jsstring) (currentTarget : jsstring) :
  embedHandleDiagramClick data href currentTarget = currentTarget
  \/ (startsWithKeyword (embedHandleDiagramClick data href currentTarget)
      = true
      /\ exists image,
           getProperty (data_svgs data)
             (embedHandleDiagramClick data href currentTarget) = Some image
           /\ image <> []
           /\ currentSvg (Some data)
                (embedHandleDiagramClick data href currentTarget)
              = embedEnsureSvgDimensions image).
Proof.
  unfold embedHandleDiagramClick.
  destruct href as [[|c h]|]; [now left| |now left].
  destruct (layerPatternTest (c :: h)) eqn:Ep; [|now left].
  destruct (getProperty (data_svgs data) (stripRoot (c :: h)))
    as [[|i image]|] eqn:Eg; [now left| |now left].
  right. split; [now apply layerPattern_stripRoot|].
  exists (i :: image). split; [exact Eg|]. split; [discriminate|].
  unfold currentSvg. now rewrite Eg.
Qed.
